(** * nostr-fetch: the multi-relay fetch orchestrator

    A shallow embedding of [packages/nostr-fetch/src/fetcher.ts] (class
    [NostrFetcher]) together with the helpers it imports, and the properties
    the specification states about them.

    Conventions of the embedding.
    - JavaScript numbers that the code uses as counts and timestamps
      ([limit], [created_at], [until], the option values) are integers, [Z].
      The code computes with them in double precision, which agrees with the
      integers as long as they are safe integers ([isSafeInteger]: at most
      2^53 - 1 in absolute value); theorems that depend on the arithmetic
      say so.  What the final selection does with a [limit] that is not an
      integer is modelled apart, on [JsNumber].
    - A [Set<string>] is a [gset string]; a [Map] keyed by strings is a
      [gmap], or a [JsMap.t] where the order of its entries matters.
    - The injected collaborators (relay pool, capability checker, signature
      verification, clock, the caller's abort signal) are fields of an
      environment record [Env]; every theorem quantifies over all of them.
    - The relay workers of one fetch are JavaScript async tasks.  Between two
      [await]s a task runs alone, so a fetch is a machine whose atomic steps
      are "send the next REQ", "handle the next event of the running
      subscription" and "leave the [for await] loop"; a schedule (a list of
      task numbers) says which task takes the next step.  Theorems quantify
      over all schedules. *)

From Stdlib Require Import ZArith Lia.
From Stdlib Require QArith.
From stdpp Require Import base tactics option list sets gmap strings sorting.

Set Default Proof Using "Type".

(* ===================================================================== *)
(** * Data model ([@nostr-fetch/kernel/nostr]) *)
(* ===================================================================== *)

(** [NostrEvent] *)
Record NostrEvent := {
  id : string;
  pubkey : string;
  created_at : Z;
  kind : Z;
  tags : list (list string);
  content : string;
  sig : string;
}.

(** [FetchFilter = Omit<Filter, "limit" | "since" | "until">] *)
Record FetchFilter := {
  ids : option (list string);
  kinds : option (list Z);
  authors : option (list string);
  search : option string;
  tagQueries : list (string * list string);
}.

(** [FetchTimeRangeFilter = Pick<Filter, "since" | "until">] *)
Record FetchTimeRangeFilter := {
  tr_since : option Z;
  tr_until : option Z;
}.

(** [Filter]: what is sent in a REQ. *)
Record Filter := {
  f_rest : FetchFilter;
  since : option Z;
  until : option Z;
  limit : option Z;
}.

Definition emptyFetchFilter : FetchFilter :=
  {| ids := None; kinds := None; authors := None; search := None; tagQueries := [] |}.

(** [Number.MAX_SAFE_INTEGER] *)
Definition MAX_SAFE_INTEGER : Z := 9007199254740991.

(** [Number.isSafeInteger]: on these numbers the arithmetic of the code, in
    double precision, is the arithmetic of the integers.  A [created_at] or
    an [until] is a count of seconds and a [limit] a count of events, far
    inside the range. *)
Definition isSafeInteger (t : Z) : Prop :=
  (- MAX_SAFE_INTEGER <= t <= MAX_SAFE_INTEGER)%Z.

Definition MAX_LIMIT_PER_REQ : Z := 5000.
Definition MAX_LIMIT_PER_REQ_IN_BACKPRESSURE : Z := 500.
Definition MIN_HIGH_WATER_MARK : Z := 5000.

(* ===================================================================== *)
(** * [Array.prototype.sort] and [createdAtDesc] *)
(* ===================================================================== *)

(** [Array.prototype.sort(compareFn)] is a stable sort: [a] is placed before
    [b] when [compareFn a b < 0], after it when [compareFn a b > 0], and the
    two keep their order when it is [0].  For a consistent comparator the
    result of a stable sort is unique, so straight insertion stands for
    whichever algorithm the engine runs. *)
Fixpoint insertBy {A} (compareFn : A → A → Z) (x : A) (l : list A) : list A :=
  match l with
  | [] => [x]
  | y :: l' =>
      if (compareFn x y <=? 0)%Z then x :: y :: l' else y :: insertBy compareFn x l'
  end.

Definition sortBy {A} (compareFn : A → A → Z) (l : list A) : list A :=
  foldr (insertBy compareFn) [] l.

(** Modelled from the spec: [createdAtDesc] is exported by [fetcherHelper.ts],
    which is not among the sources; the specification says the collected
    APIs "order by [created_at] descending", which for a comparator is
    [(a, b) => b.created_at - a.created_at]. *)
Definition createdAtDesc (a b : NostrEvent) : Z := (created_at b - created_at a)%Z.

(** [arr.slice(0, n)] for an integer [n >= 0]; a negative [n] counts from the
    end of the array. *)
Definition slice0 {A} (l : list A) (n : Z) : list A :=
  if (0 <=? n)%Z then take (Z.to_nat n) l
  else take (length l - Z.to_nat (- n)) l.

(* ===================================================================== *)
(** * [EventBuckets] ([fetcherHelper.ts]) *)
(* ===================================================================== *)

Module EventBuckets.

(** Modelled from the spec: the class [EventBuckets] lives in
    [fetcherHelper.ts], which is not among the sources (its test
    [fetcherHelper.spec.ts] and its caller [fetchLatestEventsPerAuthor]
    are).  Section 4.3 of the specification: the table is "constructed with
    (keys, capPerKey)"; it is a per-key bounded accumulator. *)
Record t := {
  buckets : gmap string (list NostrEvent);
  limitPerKey : Z;
}.

Inductive AddState := open | fulfilled | dropped.

(** Modelled from the spec: the result [{state, events?}] of [add]. *)
Record AddResult := {
  state : AddState;
  events : option (list NostrEvent);
}.

(** Modelled from the spec: [new EventBuckets(keys, limit)] has an empty
    bucket for every key. *)
Definition new (keys : list string) (lim : Z) : t :=
  {| buckets := list_to_map ((λ k, (k, [])) <$> keys); limitPerKey := lim |}.

(** Modelled from the spec: "[getBucket(key)]: current contents or
    unknown". *)
Definition getBucket (b : t) (key : string) : option (list NostrEvent) :=
  buckets b !! key.

(** Modelled from the spec: "[add(key, event)]: if [key] unknown, dropped.
    Else push [event] unless [cap] reached; return fulfilled with the
    bucket's events on the insert that reaches the cap, open if still
    below, dropped if already at cap." *)
Definition add (b : t) (key : string) (ev : NostrEvent) : t * AddResult :=
  match buckets b !! key with
  | None => (b, {| state := dropped; events := None |})
  | Some bucket =>
      if (limitPerKey b <=? Z.of_nat (length bucket))%Z
      then (b, {| state := dropped; events := None |})
      else
        let bucket' := bucket ++ [ev] in
        let b' := {| buckets := <[key := bucket']> (buckets b);
                     limitPerKey := limitPerKey b |} in
        if (Z.of_nat (length bucket') =? limitPerKey b)%Z
        then (b', {| state := fulfilled; events := Some bucket' |})
        else (b', {| state := open; events := None |})
  end.

(** Remaining capacity of one bucket. *)
Definition remaining (b : t) (bucket : list NostrEvent) : Z :=
  (limitPerKey b - Z.of_nat (length bucket))%Z.

(** The entries whose bucket is below the cap. *)
Definition openEntries (b : t) : list (string * list NostrEvent) :=
  filter (λ kb, (Z.of_nat (length kb.2) < limitPerKey b)%Z) (map_to_list (buckets b)).

(** Modelled from the spec: "[calcKeysAndLimitForNextReq() → {keys, limit}]:
    [keys] = all not-yet-fulfilled keys; [limit] = sum of remaining
    capacity across those keys." *)
Definition calcKeysAndLimitForNextReq (b : t) : list string * Z :=
  (fst <$> openEntries b,
   foldr Z.add 0%Z ((λ kb, remaining b kb.2) <$> openEntries b)).

(** The tables a caller can hold: a new one, or one obtained by [add]. *)
Inductive reachable (keys : list string) (lim : Z) : t → Prop :=
| reach_new : reachable keys lim (new keys lim)
| reach_add b key ev : reachable keys lim b → reachable keys lim (add b key ev).1.

End EventBuckets.

Definition dummyEvent (i : string) : NostrEvent :=
  {| id := i; pubkey := EmptyString; kind := 0; content := EmptyString; tags := []; created_at := 0; sig := EmptyString |}.

(* ===================================================================== *)
(** * Options *)
(* ===================================================================== *)

(** The caller's [AbortSignal] is a handle; whether it has fired when a worker
    looks at it is answered by the environment ([Env] below). *)
Definition AbortSignal := nat.

(** [FetchOptions]: every key is optional ([None]: the key is absent). *)
Record FetchOptions := {
  skipVerification_opt : option bool;
  connectTimeoutMs_opt : option Z;
  abortSignal_opt : option AbortSignal;
  abortSubBeforeEoseTimeoutMs_opt : option Z;
  limitPerReq_opt : option Z;
}.

(** [AllEventsIterOptions = FetchOptions & { enableBackpressure?: boolean }] *)
Record AllEventsIterOptions := {
  aio_fetch_opt : FetchOptions;
  enableBackpressure_opt : option bool;
}.

(** [FetchAllOptions = FetchOptions & { sort?: boolean }] *)
Record FetchAllOptions := {
  fao_fetch_opt : FetchOptions;
  sort_opt : option bool;
}.

(** [FetchLatestOptions = FetchOptions & { reduceVerification?: boolean }] *)
Record FetchLatestOptions := {
  flo_fetch_opt : FetchOptions;
  reduceVerification_opt : option bool;
}.

(** [Required<FetchOptions>] *)
Record Required_FetchOptions := {
  skipVerification : bool;
  connectTimeoutMs : Z;
  abortSignal : option AbortSignal;
  abortSubBeforeEoseTimeoutMs : Z;
  limitPerReq : Z;
}.

Record Required_AllEventsIterOptions := {
  aio_fetch :> Required_FetchOptions;
  enableBackpressure : bool;
}.

Record Required_FetchAllOptions := {
  fao_fetch :> Required_FetchOptions;
  sort : bool;
}.

Record Required_FetchLatestOptions := {
  flo_fetch :> Required_FetchOptions;
  reduceVerification : bool;
}.

Definition defaultFetchOptions : Required_FetchOptions :=
  {| skipVerification := false;
     connectTimeoutMs := 5000;
     abortSignal := None;
     abortSubBeforeEoseTimeoutMs := 10000;
     limitPerReq := MAX_LIMIT_PER_REQ |}.

Definition defaultAllEventsIterOptions : Required_AllEventsIterOptions :=
  {| aio_fetch := defaultFetchOptions; enableBackpressure := false |}.

Definition defaultFetchAllOptions : Required_FetchAllOptions :=
  {| fao_fetch := defaultFetchOptions; sort := false |}.

Definition defaultFetchLatestOptions : Required_FetchLatestOptions :=
  {| flo_fetch := defaultFetchOptions; reduceVerification := true |}.

(** The object spread [{ ...d, ...o }] of a complete object [d] and a partial
    one [o]: a key of [o] wins over the key of [d]. *)
Definition spreadFetchOptions (d : Required_FetchOptions) (o : FetchOptions)
  : Required_FetchOptions :=
  {| skipVerification := default (skipVerification d) (skipVerification_opt o);
     connectTimeoutMs := default (connectTimeoutMs d) (connectTimeoutMs_opt o);
     abortSignal := abortSignal_opt o ∪ abortSignal d;
     abortSubBeforeEoseTimeoutMs :=
       default (abortSubBeforeEoseTimeoutMs d) (abortSubBeforeEoseTimeoutMs_opt o);
     limitPerReq := default (limitPerReq d) (limitPerReq_opt o) |}.

Definition spreadAllEventsIterOptions
  (d : Required_AllEventsIterOptions) (o : AllEventsIterOptions)
  : Required_AllEventsIterOptions :=
  {| aio_fetch := spreadFetchOptions d (aio_fetch_opt o);
     enableBackpressure := default (enableBackpressure d) (enableBackpressure_opt o) |}.

Definition spreadFetchAllOptions (d : Required_FetchAllOptions) (o : FetchAllOptions)
  : Required_FetchAllOptions :=
  {| fao_fetch := spreadFetchOptions d (fao_fetch_opt o);
     sort := default (sort d) (sort_opt o) |}.

Definition spreadFetchLatestOptions
  (d : Required_FetchLatestOptions) (o : FetchLatestOptions)
  : Required_FetchLatestOptions :=
  {| flo_fetch := spreadFetchOptions d (flo_fetch_opt o);
     reduceVerification := default (reduceVerification d) (reduceVerification_opt o) |}.

(** A complete options object passed where a partial one is expected: every
    key is present. *)
Definition asFetchOptions (r : Required_FetchOptions) : FetchOptions :=
  {| skipVerification_opt := Some (skipVerification r);
     connectTimeoutMs_opt := Some (connectTimeoutMs r);
     abortSignal_opt := abortSignal r;
     abortSubBeforeEoseTimeoutMs_opt := Some (abortSubBeforeEoseTimeoutMs r);
     limitPerReq_opt := Some (limitPerReq r) |}.

Definition asFetchLatestOptions (r : Required_FetchLatestOptions) : FetchLatestOptions :=
  {| flo_fetch_opt := asFetchOptions r;
     reduceVerification_opt := Some (reduceVerification r) |}.

(** [FetchTillEoseOptions] ([@nostr-fetch/kernel/fetcherBase]): the keys the
    relay pool reads from the options object it is handed. *)
Record FetchTillEoseOptions := {
  sub_skipVerification : bool;
  sub_connectTimeoutMs : Z;
  sub_abortSignal : option AbortSignal;
  sub_abortSubBeforeEoseTimeoutMs : Z;
}.

Definition asFetchTillEoseOptions (o : Required_FetchOptions) : FetchTillEoseOptions :=
  {| sub_skipVerification := skipVerification o;
     sub_connectTimeoutMs := connectTimeoutMs o;
     sub_abortSignal := abortSignal o;
     sub_abortSubBeforeEoseTimeoutMs := abortSubBeforeEoseTimeoutMs o |}.

(* ===================================================================== *)
(** * The environment of a fetch, and what a fetch does to it *)
(* ===================================================================== *)

(** What one [fetchTillEose] call delivers: the events it yields, and whether
    the async iterator then throws (transport error) instead of ending. *)
Record Subscription := {
  sub_events : list NostrEvent;
  sub_throws : bool;
}.

Record Env := {
  (** [NostrFetcherBase.ensureRelays(urls, { connectTimeoutMs })]: the relays
      that are connected *)
  ensureRelays : list string → Z → list string;
  (** [RelayCapabilityChecker.relaySupportsNips(url, nips)] *)
  relaySupportsNips : string → list Z → bool;
  (** [NostrFetcherBase.fetchTillEose(url, filter, opts)]; the last argument
      counts the REQs the calling worker has sent before, so that a relay may
      answer the same filter differently over time *)
  fetchTillEose : string → Filter → FetchTillEoseOptions → nat → Subscription;
  (** [verifyEventSig] ([@nostr-fetch/kernel/crypto]) *)
  verifyEventSig : NostrEvent → bool;
  (** [currUnixtimeSec()] at the start of the fetch *)
  currUnixtimeSec : Z;
  (** [signal.aborted], as the worker of relay [url] reads it after its
      [n]-th sub-request *)
  aborted : AbortSignal → string → nat → bool;
  (** [normalizeRelayUrls] ([@nostr-fetch/kernel/utils]) *)
  normalizeRelayUrls : list string → list string;
}.

Inductive LogLevel := verbose | info | warn | error.

(** The calls a fetch makes on its collaborators.  Of the debug logger's
    messages only those of [assertReq] are recorded. *)
Inductive Effect :=
| Log (level : LogLevel) (msg : string)
| EnsureRelays (urls : list string) (timeoutMs : Z)
| RelaySupportsNips (url : string) (nips : list Z)
| FetchTillEose (url : string) (fil : Filter) (opts : FetchTillEoseOptions).

(** Network input/output: everything but logging. *)
Definition isIO (e : Effect) : bool :=
  match e with
  | Log _ _ => false
  | _ => true
  end.

Inductive Error :=
| NostrFetchError (message : string)
| TypeError.

(** A computation that logs and calls collaborators, and returns or throws. *)
Inductive Result (A : Type) :=
| Ok (a : A)
| Throw (e : Error).
Arguments Ok {A} a.
Arguments Throw {A} e.

Definition M (A : Type) : Type := list Effect * Result A.

Definition ret {A} (a : A) : M A := ([], Ok a).
Definition throw {A} (e : Error) : M A := ([], Throw e).
Definition tell (es : list Effect) : M unit := (es, Ok tt).
Definition bind {A B} (m : M A) (k : A → M B) : M B :=
  match m with
  | (es, Ok a) => (es ++ (k a).1, (k a).2)
  | (es, Throw e) => (es, Throw e)
  end.

Notation "'do' x <- m ; k" := (bind m (λ x, k))
  (at level 10, x binder, m at level 100, k at level 200).
Notation "m ;; k" := (bind m (λ _, k))
  (at level 100, k at level 200, right associativity).

(* ===================================================================== *)
(** * Input validation ([fetcherHelper.ts]) *)
(* ===================================================================== *)

Inductive Severity := sev_warn | sev_error.

(** Modelled from the spec: a check of [assertReq]; [None] when the request
    passes, else the severity and the message. *)
Definition AssertReqCheck (T : Type) : Type := T → option (Severity * string).

(** Modelled from the spec: "relay list non-empty", "authors non-empty". *)
Definition checkIfNonEmpty {T E} (getArray : T → list E) (sev : Severity) (msg : string)
  : AssertReqCheck T :=
  λ req, match getArray req with [] => Some (sev, msg) | _ => None end.

(** Modelled from the spec: "[since ≤ until] when both present; violation is
    a caller error". *)
Definition checkIfTimeRangeIsValid {T} (getTimeRange : T → FetchTimeRangeFilter)
  (sev : Severity) (msg : string) : AssertReqCheck T :=
  λ req, match tr_since (getTimeRange req), tr_until (getTimeRange req) with
         | Some s, Some u => if (u <? s)%Z then Some (sev, msg) else None
         | _, _ => None
         end.

(** Modelled from the spec: a check given by a predicate ("[limit > 0]"). *)
Definition checkIfTrue {T} (predicate : T → bool) (sev : Severity) (msg : string)
  : AssertReqCheck T :=
  λ req, if predicate req then None else Some (sev, msg).

(** Modelled from the spec: [assertReq] is in [fetcherHelper.ts], which is not
    among the sources.  "Each strategy validates its arguments in order";
    a failed check at warn severity is "logged at warn; call proceeds", a
    failed check at error severity "raise[s] a typed FetchError".
    [fetcher.ts] calls [assertReq] as a statement and ignores its value, so
    a call that does not throw goes on with the fetch. *)
Fixpoint assertReq {T} (req : T) (checks : list (AssertReqCheck T)) : M unit :=
  match checks with
  | [] => ret tt
  | check :: checks' =>
      match check req with
      | None => assertReq req checks'
      | Some (sev_error, msg) => throw (NostrFetchError msg)
      | Some (sev_warn, msg) => tell [Log warn msg] ;; assertReq req checks'
      end
  end.

(* ===================================================================== *)
(** * Cooperative scheduling of the tasks of one fetch *)
(* ===================================================================== *)

Section Scheduler.
Context {W G : Type}.
(** one atomic step of a task, on its own state and the shared state *)
Variable step : W → G → W * G.

Definition stepTask (i : nat) (st : list W * G) : list W * G :=
  match st.1 !! i with
  | Some w => (<[i := (step w st.2).1]> st.1, (step w st.2).2)
  | None => st
  end.

Definition run (sched : list nat) (st : list W * G) : list W * G :=
  foldl (λ st i, stepTask i st) st sched.

Lemma run_app s1 s2 st : run (s1 ++ s2) st = run s2 (run s1 st).
Proof. apply foldl_app. Qed.

Lemma run_snoc s i st : run (s ++ [i]) st = stepTask i (run s st).
Proof. by rewrite run_app. Qed.

Lemma stepTask_length i st : length (stepTask i st).1 = length st.1.
Proof.
  unfold stepTask. destruct (st.1 !! i); simpl; [|done].
  by rewrite length_insert.
Qed.

Lemma run_length s st : length (run s st).1 = length st.1.
Proof.
  revert st. induction s as [|i s IH]; intros st; [done|].
  simpl. by rewrite IH, stepTask_length.
Qed.

(** A property of the whole state that every step keeps holds along every
    schedule. *)
Lemma run_invariant (P : list W * G → Prop) :
  (∀ i st, P st → P (stepTask i st)) →
  ∀ s st, P st → P (run s st).
Proof.
  intros Hstep s. induction s as [|i s IH]; intros st HP; [done|].
  simpl. apply IH, Hstep, HP.
Qed.

(** The same for an invariant given task by task: [Q] of the shared state
    and [R] of each task with the shared state. *)
Lemma stepTask_tasks (R : W → G → Prop) (Q : G → Prop) :
  (∀ w g, Q g → R w g → Q (step w g).2 ∧ R (step w g).1 (step w g).2) →
  (∀ w w' g, Q g → R w g → R w' g → R w' (step w g).2) →
  ∀ i st, (Q st.2 ∧ Forall (λ w, R w st.2) st.1) →
          Q (stepTask i st).2 ∧ Forall (λ w, R w (stepTask i st).2) (stepTask i st).1.
Proof.
  intros Hown Hother i [ws g] [HQ HR]. unfold stepTask. simpl in *.
  destruct (ws !! i) as [w|] eqn:Hi; simpl; [|done].
  assert (R w g) as Hw by exact (Forall_lookup_1 _ _ _ _ HR Hi).
  destruct (Hown w g HQ Hw) as [HQ' Hw']. split; [done|].
  apply Forall_insert; [|done].
  eapply Forall_impl; [exact HR|]. intros w' Hw''. by apply Hother.
Qed.

(** A property of the shared state that every task keeps. *)
Lemma run_shared (Q : G → Prop) :
  (∀ w g, Q g → Q (step w g).2) →
  ∀ s st, Q st.2 → Q (run s st).2.
Proof.
  intros Hstep. apply (run_invariant (λ st, Q st.2)).
  intros i st HQ. unfold stepTask. destruct (st.1 !! i); simpl; [by apply Hstep|done].
Qed.

(** A property of tasks that every step of a task keeps, whatever the
    shared state. *)
Lemma run_tasks (R : W → Prop) :
  (∀ w g, R w → R (step w g).1) →
  ∀ s st, Forall R st.1 → Forall R (run s st).1.
Proof.
  intros Hstep. apply (run_invariant (λ st, Forall R st.1)).
  intros i st HR. unfold stepTask. destruct (st.1 !! i) as [w|] eqn:Hi; simpl; [|done].
  apply Forall_insert; [done|]. apply Hstep. exact (Forall_lookup_1 _ _ _ _ HR Hi).
Qed.
End Scheduler.

(* ===================================================================== *)
(** * [NostrFetcher]: shared pieces *)
(* ===================================================================== *)

(** [#calcRequiredNips]: NIP-50 when the filter has a [search] key. *)
Definition calcRequiredNips (fil : FetchFilter) : list Z :=
  match search fil with
  | Some _ => [50%Z]
  | None => []
  end.

(** [#ensureRelaysWithCapCheck].  The capability checks run concurrently and
    [res] is filled in their order of completion; the embedding keeps the
    order of [connectedRelays]. *)
Definition ensureRelaysWithCapCheck (env : Env) (relayUrls : list string)
  (opts : Required_FetchOptions) (requiredNips : list Z) : M (list string) :=
  tell [EnsureRelays relayUrls (connectTimeoutMs opts)] ;;
  let connectedRelays := ensureRelays env relayUrls (connectTimeoutMs opts) in
  match requiredNips with
  | [] => ret connectedRelays
  | _ =>
      tell ((λ rurl, RelaySupportsNips rurl requiredNips) <$> connectedRelays) ;;
      ret (filter (λ rurl, relaySupportsNips env rurl requiredNips) connectedRelays)
  end.

(** Where a relay worker stands in its [while (true)] loop. *)
Inductive Phase (V : Type) :=
| AtLoopHead
    (* the next REQ is not sent yet *)
| InForAwait (pending : list NostrEvent) (throws : bool) (vars : V)
    (* inside [for await (const e of fetchTillEose(..))]: the events still to
       come, whether the iterator throws after them, the variables declared
       in the loop body *)
| Finished.
    (* after [break] *)
Arguments AtLoopHead {V}.
Arguments InForAwait {V} pending throws vars.
Arguments Finished {V}.

Definition isFinished {V} (p : Phase V) : bool :=
  match p with
  | Finished => true
  | _ => false
  end.

(** State shared by the relay workers of [allEventsIterator] and
    [fetchLatestEvents]: the set [globalSeenEventIds], the sending end [tx]
    of the channel (all that was sent, oldest first), and the calls made on
    the relay pool. *)
Record FanIn := {
  globalSeenEventIds : gset string;
  tx : list NostrEvent;
  effects : list Effect;
}.

(** [opts.abortSignal?.aborted] *)
Definition signalAborted (env : Env) (opts : Required_FetchOptions)
  (rurl : string) (reqCount : nat) : bool :=
  match abortSignal opts with
  | Some signal => aborted env signal rurl reqCount
  | None => false
  end.

(** The reduced-verification loop
    [for (const ev of evs) { if (verifyEventSig(ev)) { verified.push(ev);
       if (verified.length >= limit) break; } }],
    for a [limit] that is an integer; [collectVerifiedNumber] is the loop for
    any number, and [collectVerifiedNumber_integer] relates the two. *)
Fixpoint collectVerified (verify : NostrEvent → bool) (lim : Z)
  (evs verified : list NostrEvent) : list NostrEvent :=
  match evs with
  | [] => verified
  | ev :: evs' =>
      if verify ev then
        let verified' := verified ++ [ev] in
        if (lim <=? Z.of_nat (length verified'))%Z then verified'
        else collectVerified verify lim evs' verified'
      else collectVerified verify lim evs' verified
  end.

(** The last lines of [fetchLatestEvents], and of the merger of
    [fetchLatestEventsPerAuthor]: what is returned from the sorted events,
    for a [limit] that is an integer ([latestOfNumber] for any number). *)
Definition latestOf (env : Env) (finalOpts : Required_FetchLatestOptions) (lim : Z)
  (evs : list NostrEvent) : list NostrEvent :=
  if skipVerification finalOpts || negb (reduceVerification finalOpts)
  then slice0 evs lim
  else collectVerified (verifyEventSig env) lim evs [].

(** [subOpts]: the options of the sub-requests of the latest-N family. *)
Definition subOptsOf (finalOpts : Required_FetchLatestOptions) : Required_FetchOptions :=
  {| skipVerification := skipVerification finalOpts || reduceVerification finalOpts;
     connectTimeoutMs := connectTimeoutMs finalOpts;
     abortSignal := abortSignal finalOpts;
     abortSubBeforeEoseTimeoutMs := abortSubBeforeEoseTimeoutMs finalOpts;
     limitPerReq := limitPerReq finalOpts |}.

(* ===================================================================== *)
(** * [allEventsIterator] and [fetchAllEvents] *)
(* ===================================================================== *)

Module AllEvents.

(** The variables of one loop iteration.  [fresh] is a history variable
    (not a variable of the source): the events of the running sub-request
    that were new to this relay worker, latest first. *)
Record PageVars := {
  gotNewEvent : bool;
  oldestCreatedAt : Z;
  fresh : list NostrEvent;
}.

Record Worker := {
  rurl : string;
  nextUntil : Z;
  localSeenEventIds : gset string;
  reqCount : nat;
  phase : Phase PageVars;
}.

Section loop.
Context (env : Env) (fil : FetchFilter) (timeRangeFilter : FetchTimeRangeFilter)
        (finalOpts : Required_AllEventsIterOptions).

Definition refinedFilter (w : Worker) : Filter :=
  {| f_rest := fil;
     since := tr_since timeRangeFilter;
     until := Some (nextUntil w);
     limit := Some (Z.min (limitPerReq finalOpts) MAX_LIMIT_PER_REQ) |}.

(** One atomic step of the worker of one relay. *)
Definition step (w : Worker) (g : FanIn) : Worker * FanIn :=
  match phase w with
  | AtLoopHead =>
      let sub := fetchTillEose env (rurl w) (refinedFilter w)
                   (asFetchTillEoseOptions finalOpts) (reqCount w) in
      ({| rurl := rurl w; nextUntil := nextUntil w;
          localSeenEventIds := localSeenEventIds w;
          reqCount := S (reqCount w);
          phase := InForAwait (sub_events sub) (sub_throws sub)
                     {| gotNewEvent := false;
                        oldestCreatedAt := MAX_SAFE_INTEGER;
                        fresh := [] |} |},
       {| globalSeenEventIds := globalSeenEventIds g; tx := tx g;
          effects := effects g ++
            [FetchTillEose (rurl w) (refinedFilter w) (asFetchTillEoseOptions finalOpts)] |})
  | InForAwait (e :: pending) throws vars =>
      if decide (id e ∈ localSeenEventIds w) then
        ({| rurl := rurl w; nextUntil := nextUntil w;
            localSeenEventIds := localSeenEventIds w; reqCount := reqCount w;
            phase := InForAwait pending throws vars |}, g)
      else
        let vars' :=
          {| gotNewEvent := true;
             oldestCreatedAt :=
               if (created_at e <? oldestCreatedAt vars)%Z then created_at e
               else oldestCreatedAt vars;
             fresh := e :: fresh vars |} in
        let w' :=
          {| rurl := rurl w; nextUntil := nextUntil w;
             localSeenEventIds := {[id e]} ∪ localSeenEventIds w;
             reqCount := reqCount w;
             phase := InForAwait pending throws vars' |} in
        if decide (id e ∈ globalSeenEventIds g) then (w', g)
        else
          (w', {| globalSeenEventIds := {[id e]} ∪ globalSeenEventIds g;
                  tx := tx g ++ [e];
                  effects := effects g |})
  | InForAwait [] throws vars =>
      let stop := {| rurl := rurl w; nextUntil := nextUntil w;
                     localSeenEventIds := localSeenEventIds w;
                     reqCount := reqCount w; phase := Finished |} in
      if throws then (stop, g)                        (* catch (err): break *)
      else if negb (gotNewEvent vars) then (stop, g)  (* termination condition 1 *)
      else if signalAborted env finalOpts (rurl w) (reqCount w)
      then (stop, g)                                  (* termination condition 2 *)
      else
        ({| rurl := rurl w;
            nextUntil := (oldestCreatedAt vars + 1)%Z;
            localSeenEventIds := localSeenEventIds w;
            reqCount := reqCount w; phase := AtLoopHead |}, g)
  | Finished => (w, g)
  end.
End loop.

Definition init (initialUntil : Z) (eligibleRelayUrls : list string)
  : list Worker * FanIn :=
  ((λ rurl, {| rurl := rurl; nextUntil := initialUntil; localSeenEventIds := ∅;
               reqCount := 0; phase := AtLoopHead |}) <$> eligibleRelayUrls,
   {| globalSeenEventIds := ∅; tx := []; effects := [] |}).

(** What [allEventsIterator] hands back: the receiving end of the channel,
    with the tasks that feed it. *)
Record Iterator := {
  it_filter : FetchFilter;
  it_timeRangeFilter : FetchTimeRangeFilter;
  it_finalOpts : Required_AllEventsIterOptions;
  highWaterMark : option Z;
  state : list Worker * FanIn;
}.

Definition advance (env : Env) (sched : list nat) (it : Iterator) : Iterator :=
  {| it_filter := it_filter it; it_timeRangeFilter := it_timeRangeFilter it;
     it_finalOpts := it_finalOpts it; highWaterMark := highWaterMark it;
     state := run (step env (it_filter it) (it_timeRangeFilter it) (it_finalOpts it))
                sched (state it) |}.

(** The events the caller has been handed when it has drained the channel. *)
Definition delivered (it : Iterator) : list NostrEvent := tx (state it).2.

(** [tx.close()] has run: all subscription loops have terminated. *)
Definition closed (it : Iterator) : bool :=
  forallb (λ w, isFinished (phase w)) (state it).1.

End AllEvents.

(** [filledOpts] of [allEventsIterator] *)
Definition filledOptsOf (options : AllEventsIterOptions) : Required_AllEventsIterOptions :=
  spreadAllEventsIterOptions defaultAllEventsIterOptions options.

(** [finalOpts] of [allEventsIterator]: use smaller limit if backpressure is
    enabled. *)
Definition finalOptsOf (options : AllEventsIterOptions) : Required_AllEventsIterOptions :=
  let filledOpts := filledOptsOf options in
  {| aio_fetch :=
       {| skipVerification := skipVerification filledOpts;
          connectTimeoutMs := connectTimeoutMs filledOpts;
          abortSignal := abortSignal filledOpts;
          abortSubBeforeEoseTimeoutMs := abortSubBeforeEoseTimeoutMs filledOpts;
          limitPerReq :=
            if enableBackpressure filledOpts
            then Z.min (limitPerReq filledOpts) MAX_LIMIT_PER_REQ_IN_BACKPRESSURE
            else limitPerReq filledOpts |};
     enableBackpressure := enableBackpressure filledOpts |}.

(** [highWaterMark] of [allEventsIterator] *)
Definition highWaterMarkOf (finalOpts : Required_AllEventsIterOptions)
  (eligibleRelayUrls : list string) : option Z :=
  if enableBackpressure finalOpts
  then Some (Z.max (limitPerReq finalOpts * Z.of_nat (length eligibleRelayUrls))
                   MIN_HIGH_WATER_MARK)
  else None.

Definition allEventsIterator (env : Env) (relayUrls : list string) (fil : FetchFilter)
  (timeRangeFilter : FetchTimeRangeFilter) (options : AllEventsIterOptions)
  : M AllEvents.Iterator :=
  assertReq (relayUrls, timeRangeFilter)
    [checkIfNonEmpty fst sev_warn "Specify at least 1 relay URL";
     checkIfTimeRangeIsValid snd sev_error "Invalid time range (since > until)"] ;;
  let filledOpts := filledOptsOf options in
  let finalOpts := finalOptsOf options in
  let reqNips := calcRequiredNips fil in
  do eligibleRelayUrls <- ensureRelaysWithCapCheck env relayUrls filledOpts reqNips ;
  let highWaterMark := highWaterMarkOf finalOpts eligibleRelayUrls in
  let initialUntil := default (currUnixtimeSec env) (tr_until timeRangeFilter) in
  ret {| AllEvents.it_filter := fil;
         AllEvents.it_timeRangeFilter := timeRangeFilter;
         AllEvents.it_finalOpts := finalOpts;
         AllEvents.highWaterMark := highWaterMark;
         AllEvents.state := AllEvents.init initialUntil eligibleRelayUrls |}.

(** [fetchAllEvents] under a schedule of its relay workers: [None] while the
    channel is not closed (the promise is still pending). *)
Definition fetchAllEvents (env : Env) (sched : list nat) (relayUrls : list string)
  (fil : FetchFilter) (timeRangeFilter : FetchTimeRangeFilter) (options : FetchAllOptions)
  : M (option (list NostrEvent)) :=
  assertReq (relayUrls, timeRangeFilter)
    [checkIfNonEmpty fst sev_warn "Specify at least 1 relay URL";
     checkIfTimeRangeIsValid snd sev_error "Invalid time range (since > until)"] ;;
  let finalOpts := spreadFetchAllOptions defaultFetchAllOptions options in
  do allEvents <- allEventsIterator env relayUrls fil timeRangeFilter
                    {| aio_fetch_opt := asFetchOptions finalOpts;
                       enableBackpressure_opt := Some false |} ;
  let drained := AllEvents.advance env sched allEvents in
  tell (effects (AllEvents.state drained).2) ;;
  if AllEvents.closed drained then
    let res := AllEvents.delivered drained in
    (* sort events in "newest to oldest" order if `sort` options is specified *)
    ret (Some (if sort finalOpts then sortBy createdAtDesc res else res))
  else ret None.

(* ===================================================================== *)
(** * [fetchLatestEvents] and [fetchLastEvent] *)
(* ===================================================================== *)

(** The message ['"limit" should be positive number']. *)
Definition limitShouldBePositive : string :=
  String (Ascii.ascii_of_nat 34)
    ("limit" +:+ String (Ascii.ascii_of_nat 34) " should be positive number").

Module Latest.

(** The variables of one loop iteration; [fresh] is a history variable as
    in [AllEvents.PageVars]. *)
Record PageVars := {
  numNewEvents : Z;
  oldestCreatedAt : Z;
  fresh : list NostrEvent;
}.

(** The variables of the worker of one relay.  [remainingLimit] and
    [nextUntil] are integers: the code counts and adds in double precision,
    which is exact as long as [limit] and the timestamps are safe
    integers. *)
Record Worker := {
  rurl : string;
  nextUntil : Z;
  remainingLimit : Z;
  localSeenEventIds : gset string;
  reqCount : nat;
  phase : Phase PageVars;
}.

Section loop.
Context (env : Env) (fil : FetchFilter)
        (finalOpts : Required_FetchLatestOptions).

Definition refinedFilter (w : Worker) : Filter :=
  {| f_rest := fil;
     since := None;
     until := Some (nextUntil w);
     limit := Some (Z.min (remainingLimit w) MAX_LIMIT_PER_REQ) |}.

Definition step (w : Worker) (g : FanIn) : Worker * FanIn :=
  match phase w with
  | AtLoopHead =>
      let subOpts := asFetchTillEoseOptions (subOptsOf finalOpts) in
      let sub := fetchTillEose env (rurl w) (refinedFilter w) subOpts (reqCount w) in
      ({| rurl := rurl w; nextUntil := nextUntil w;
          remainingLimit := remainingLimit w;
          localSeenEventIds := localSeenEventIds w;
          reqCount := S (reqCount w);
          phase := InForAwait (sub_events sub) (sub_throws sub)
                     {| numNewEvents := 0;
                        oldestCreatedAt := MAX_SAFE_INTEGER;
                        fresh := [] |} |},
       {| globalSeenEventIds := globalSeenEventIds g; tx := tx g;
          effects := effects g ++ [FetchTillEose (rurl w) (refinedFilter w) subOpts] |})
  | InForAwait (e :: pending) throws vars =>
      if decide (id e ∈ localSeenEventIds w) then
        ({| rurl := rurl w; nextUntil := nextUntil w;
            remainingLimit := remainingLimit w;
            localSeenEventIds := localSeenEventIds w; reqCount := reqCount w;
            phase := InForAwait pending throws vars |}, g)
      else
        let vars' :=
          {| numNewEvents := (numNewEvents vars + 1)%Z;
             oldestCreatedAt :=
               if (created_at e <? oldestCreatedAt vars)%Z then created_at e
               else oldestCreatedAt vars;
             fresh := e :: fresh vars |} in
        let w' :=
          {| rurl := rurl w; nextUntil := nextUntil w;
             remainingLimit := remainingLimit w;
             localSeenEventIds := {[id e]} ∪ localSeenEventIds w;
             reqCount := reqCount w;
             phase := InForAwait pending throws vars' |} in
        if decide (id e ∈ globalSeenEventIds g) then (w', g)
        else
          (w', {| globalSeenEventIds := {[id e]} ∪ globalSeenEventIds g;
                  tx := tx g ++ [e];
                  effects := effects g |})
  | InForAwait [] throws vars =>
      if throws then                                   (* catch (err): break *)
        ({| rurl := rurl w; nextUntil := nextUntil w;
            remainingLimit := remainingLimit w;
            localSeenEventIds := localSeenEventIds w;
            reqCount := reqCount w; phase := Finished |}, g)
      else
        let remainingLimit' := (remainingLimit w - numNewEvents vars)%Z in
        let stop := {| rurl := rurl w; nextUntil := nextUntil w;
                       remainingLimit := remainingLimit';
                       localSeenEventIds := localSeenEventIds w;
                       reqCount := reqCount w; phase := Finished |} in
        if (numNewEvents vars =? 0)%Z || (remainingLimit' <=? 0)%Z
        then (stop, g)                                 (* termination condition 1, 2 *)
        else if signalAborted env finalOpts (rurl w) (reqCount w)
        then (stop, g)                                 (* termination condition 3 *)
        else
          ({| rurl := rurl w;
              nextUntil := (oldestCreatedAt vars + 1)%Z;
              remainingLimit := remainingLimit';
              localSeenEventIds := localSeenEventIds w;
              reqCount := reqCount w; phase := AtLoopHead |}, g)
  | Finished => (w, g)
  end.
End loop.

Definition init (initialUntil lim : Z) (eligibleRelayUrls : list string)
  : list Worker * FanIn :=
  ((λ rurl, {| rurl := rurl; nextUntil := initialUntil; remainingLimit := lim;
               localSeenEventIds := ∅; reqCount := 0; phase := AtLoopHead |})
     <$> eligibleRelayUrls,
   {| globalSeenEventIds := ∅; tx := []; effects := [] |}).

Definition closed (st : list Worker * FanIn) : bool :=
  forallb (λ w, isFinished (phase w)) st.1.

End Latest.

(** [fetchLatestEvents] under a schedule of its relay workers: [None] while
    the channel is not closed (the promise is still pending). *)
Definition fetchLatestEvents (env : Env) (sched : list nat) (relayUrls : list string)
  (fil : FetchFilter) (lim : Z) (options : FetchLatestOptions)
  : M (option (list NostrEvent)) :=
  assertReq (relayUrls, lim)
    [checkIfNonEmpty fst sev_warn "Specify at least 1 relay URL";
     checkIfTrue (λ r, (0 <? r.2)%Z) sev_error limitShouldBePositive] ;;
  let finalOpts := spreadFetchLatestOptions defaultFetchLatestOptions options in
  let reqNips := calcRequiredNips fil in
  do eligibleRelayUrls <- ensureRelaysWithCapCheck env relayUrls finalOpts reqNips ;
  let initialUntil := currUnixtimeSec env in
  (* fetch at most `limit` events from each relay *)
  let st := run (Latest.step env fil finalOpts) sched
              (Latest.init initialUntil lim eligibleRelayUrls) in
  tell (effects st.2) ;;
  if Latest.closed st then
    (* collect events from relays. events are already deduped *)
    let evs := sortBy createdAtDesc (tx st.2) in
    ret (Some (latestOf env finalOpts lim evs))
  else ret None.

(** The object spread [{ ...a, ...b }] of two partial objects. *)
Definition overrideFetchOptions (a b : FetchOptions) : FetchOptions :=
  {| skipVerification_opt := skipVerification_opt b ∪ skipVerification_opt a;
     connectTimeoutMs_opt := connectTimeoutMs_opt b ∪ connectTimeoutMs_opt a;
     abortSignal_opt := abortSignal_opt b ∪ abortSignal_opt a;
     abortSubBeforeEoseTimeoutMs_opt :=
       abortSubBeforeEoseTimeoutMs_opt b ∪ abortSubBeforeEoseTimeoutMs_opt a;
     limitPerReq_opt := limitPerReq_opt b ∪ limitPerReq_opt a |}.

(** [{ abortSubBeforeEoseTimeoutMs: 1000, ...options }]: overrides the default
    value of [abortSubBeforeEoseTimeoutMs] (10000 -> 1000). *)
Definition lastEventOptions (options : FetchLatestOptions) : FetchLatestOptions :=
  {| flo_fetch_opt :=
       overrideFetchOptions
         {| skipVerification_opt := None; connectTimeoutMs_opt := None;
            abortSignal_opt := None; abortSubBeforeEoseTimeoutMs_opt := Some 1000%Z;
            limitPerReq_opt := None |}
         (flo_fetch_opt options);
     reduceVerification_opt := reduceVerification_opt options |}.

(** [fetchLastEvent]; [latest1[0]] is [undefined] for an empty array. *)
Definition fetchLastEvent (env : Env) (sched : list nat) (relayUrls : list string)
  (fil : FetchFilter) (options : FetchLatestOptions)
  : M (option (option NostrEvent)) :=
  let finalOpts :=
    spreadFetchLatestOptions defaultFetchLatestOptions (lastEventOptions options) in
  do latest1 <- fetchLatestEvents env sched relayUrls fil 1 (asFetchLatestOptions finalOpts) ;
  ret (head <$> latest1).

(* ===================================================================== *)
(** * [fetchLatestEventsPerAuthor] and [fetchLastEventPerAuthor] *)
(* ===================================================================== *)

(** A JavaScript [Map] with string keys: the entries in insertion order, one
    per key.  [set] on a key that is present replaces the value in place. *)
Module JsMap.
Definition t (V : Type) : Type := list (string * V).

Fixpoint get {V} (m : t V) (key : string) : option V :=
  match m with
  | [] => None
  | (k, v) :: m' => if decide (k = key) then Some v else get m' key
  end.

Fixpoint set {V} (m : t V) (key : string) (v : V) : t V :=
  match m with
  | [] => [(key, v)]
  | (k, v') :: m' => if decide (k = key) then (k, v) :: m' else (k, v') :: set m' key v
  end.

(** [new Map(entries)] *)
Definition new {V} (entries : list (string * V)) : t V :=
  foldl (λ m kv, set m kv.1 kv.2) [] entries.

Definition keys {V} (m : t V) : list string := fst <$> m.
End JsMap.

Module KeyRelayMatrix.
(** Modelled from the spec: the class [KeyRelayMatrix] lives in
    [fetcherHelper.ts], which is not among the sources.  "For input
    [map relay → [keys…]], creates a latch at every [(key, relay)] pair such
    that a key's latches is exactly the set of relays carrying that key."
    The matrix is built by going through the input [Map], which a
    JavaScript program does in the order of insertion; [relays] keeps that
    order, and the items of a key come in it. *)
Record t (V : Type) := {
  cells : gmap (string * string) V;
  relays : list string;
}.
Arguments cells {V} _.
Arguments relays {V} _.

Definition new {V} (relayToKeys : JsMap.t (list string)) (initVal : V) : t V :=
  {| cells :=
       list_to_map
         (relayToKeys ≫= λ rk : string * list string, (λ k, ((k, rk.1), initVal)) <$> rk.2);
     relays := JsMap.keys relayToKeys |}.

(** Modelled from the spec: the item at [(key, relay)], if there is one. *)
Definition get {V} (m : t V) (key rurl : string) : option V :=
  cells m !! (key, rurl).

(** The matrix with the item at [(key, relay)] replaced. *)
Definition withItem {V} (m : t V) (key rurl : string) (v : V) : t V :=
  {| cells := <[(key, rurl) := v]> (cells m); relays := relays m |}.

(** Modelled from the spec: the items of a key, one per relay carrying it,
    in the order of the relays; [undefined] for a key that no relay carries
    (the test expects [matrix.itemsByKey(k)?.length]). *)
Definition itemsByKey {V} (m : t V) (key : string) : option (list V) :=
  match omap (λ rurl, cells m !! (key, rurl)) (relays m) with
  | [] => None
  | items => Some items
  end.
End KeyRelayMatrix.

(** [m !! (key, relay)] reads the item of the matrix [m]. *)
#[global] Instance KeyRelayMatrix_lookup {V} : Lookup (string * string) V (KeyRelayMatrix.t V) :=
  λ k m, KeyRelayMatrix.cells m !! k.

(** [{ ...otherFilter, authors: nextAuthors }] *)
Definition withAuthors (otherFilter : FetchFilter) (nextAuthors : list string)
  : FetchFilter :=
  {| ids := ids otherFilter; kinds := kinds otherFilter;
     authors := Some nextAuthors;
     search := search otherFilter;
     tagQueries := tagQueries otherFilter |}.

(** [AuthorsAndRelays]; [Malformed] stands for a value of neither shape:
    an object that lacks one of the two properties and is not iterable
    ([isObject = true]), or a value that is no object (a number, a string,
    [null], [undefined]). *)
Inductive AuthorsAndRelays :=
| RelaySetForAllAuthors (authors relayUrls : list string)
| RelaySetsPerAuthor (a2rs : list (string * list string))
| Malformed (isObject : bool).

Module PerAuthor.

(** What the iterator of [fetchLatestEventsPerAuthor] yields. *)
Record AuthorEvents := {
  author : string;
  events : list NostrEvent;
}.

Record PageVars := {
  gotNewEvent : bool;
  oldestCreatedAt : Z;
  fresh : list NostrEvent;   (* history variable, as in [AllEvents.PageVars] *)
}.

(** The "fetcher" of one relay. *)
Record Worker := {
  rurl : string;
  authors : list string;
  nextUntil : Z;
  evBucketsPerAuthor : EventBuckets.t;
  localSeenEventIds : gset string;
  reqCount : nat;
  phase : Phase PageVars;
}.

(** The tasks of one fetch: a fetcher per relay, and a "merger" per author,
    which has sent its record or is still waiting for its latches. *)
Inductive Task :=
| Fetcher (w : Worker)
| Merger (pubkey : string) (sent : bool).

(** A [Deferred<NostrEvent[]>] is pending ([None]) or resolved. *)
Record Shared := {
  latches : KeyRelayMatrix.t (option (list NostrEvent));
  tx : list AuthorEvents;
  effects : list Effect;
}.

(** [latches.get(pk, rurl)?.resolve(evs)]; resolving a resolved promise does
    nothing. *)
Definition resolve (latches : KeyRelayMatrix.t (option (list NostrEvent)))
  (pk rurl : string) (evs : list NostrEvent)
  : KeyRelayMatrix.t (option (list NostrEvent)) :=
  match KeyRelayMatrix.get latches pk rurl with
  | Some None => KeyRelayMatrix.withItem latches pk rurl (Some evs)
  | _ => latches
  end.

(** [resolveAllOnEarlyBreak] *)
Definition resolveAllOnEarlyBreak (w : Worker)
  (latches : KeyRelayMatrix.t (option (list NostrEvent)))
  : KeyRelayMatrix.t (option (list NostrEvent)) :=
  foldl (λ latches pk,
           resolve latches pk (rurl w)
             (default [] (EventBuckets.getBucket (evBucketsPerAuthor w) pk)))
        latches (authors w).

(** The merge of the merger: events of all relays, without repeated ids. *)
Definition evsDeduped (evsPerRelay : list (list NostrEvent)) : list NostrEvent :=
  (foldl (λ (acc : list NostrEvent * gset string) ev,
            if decide (id ev ∈ acc.2) then acc
            else (acc.1 ++ [ev], {[id ev]} ∪ acc.2))
         ([], ∅) (concat evsPerRelay)).1.

Section loop.
Context (env : Env) (otherFilter : FetchFilter) (lim : Z)
        (finalOpts : Required_FetchLatestOptions).

Definition refinedFilter (w : Worker) (nextAuthors : list string) (nextLimit : Z)
  : Filter :=
  {| f_rest := withAuthors otherFilter nextAuthors;
     since := None;
     until := Some (nextUntil w);
     limit := Some (Z.min nextLimit MAX_LIMIT_PER_REQ) |}.

Definition stepFetcher (w : Worker) (g : Shared) : Worker * Shared :=
  match phase w with
  | AtLoopHead =>
      let '(nextAuthors, nextLimit) :=
        EventBuckets.calcKeysAndLimitForNextReq (evBucketsPerAuthor w) in
      match nextAuthors with
      | [] =>                                           (* termination condition 1 *)
          ({| rurl := rurl w; authors := authors w; nextUntil := nextUntil w;
              evBucketsPerAuthor := evBucketsPerAuthor w;
              localSeenEventIds := localSeenEventIds w;
              reqCount := reqCount w; phase := Finished |}, g)
      | _ =>
          let subOpts := asFetchTillEoseOptions (subOptsOf finalOpts) in
          let fil := refinedFilter w nextAuthors nextLimit in
          let sub := fetchTillEose env (rurl w) fil subOpts (reqCount w) in
          ({| rurl := rurl w; authors := authors w; nextUntil := nextUntil w;
              evBucketsPerAuthor := evBucketsPerAuthor w;
              localSeenEventIds := localSeenEventIds w;
              reqCount := S (reqCount w);
              phase := InForAwait (sub_events sub) (sub_throws sub)
                         {| gotNewEvent := false;
                            oldestCreatedAt := MAX_SAFE_INTEGER;
                            fresh := [] |} |},
           {| latches := latches g; tx := tx g;
              effects := effects g ++ [FetchTillEose (rurl w) fil subOpts] |})
      end
  | InForAwait (e :: pending) throws vars =>
      if decide (id e ∈ localSeenEventIds w) then
        ({| rurl := rurl w; authors := authors w; nextUntil := nextUntil w;
            evBucketsPerAuthor := evBucketsPerAuthor w;
            localSeenEventIds := localSeenEventIds w; reqCount := reqCount w;
            phase := InForAwait pending throws vars |}, g)
      else
        let vars' :=
          {| gotNewEvent := true;
             oldestCreatedAt :=
               if (created_at e <? oldestCreatedAt vars)%Z then created_at e
               else oldestCreatedAt vars;
             fresh := e :: fresh vars |} in
        (* add the event to the bucket for the author(pubkey) *)
        let addRes := EventBuckets.add (evBucketsPerAuthor w) (pubkey e) e in
        let w' :=
          {| rurl := rurl w; authors := authors w; nextUntil := nextUntil w;
             evBucketsPerAuthor := addRes.1;
             localSeenEventIds := {[id e]} ∪ localSeenEventIds w;
             reqCount := reqCount w;
             phase := InForAwait pending throws vars' |} in
        match EventBuckets.state addRes.2 with
        | EventBuckets.fulfilled =>
            (w', {| latches := resolve (latches g) (pubkey e) (rurl w)
                                 (default [] (EventBuckets.events addRes.2));
                    tx := tx g; effects := effects g |})
        | _ => (w', g)
        end
  | InForAwait [] throws vars =>
      let stop := {| rurl := rurl w; authors := authors w; nextUntil := nextUntil w;
                     evBucketsPerAuthor := evBucketsPerAuthor w;
                     localSeenEventIds := localSeenEventIds w;
                     reqCount := reqCount w; phase := Finished |} in
      let resolved := {| latches := resolveAllOnEarlyBreak w (latches g);
                         tx := tx g; effects := effects g |} in
      if throws then (stop, resolved)                  (* catch (err) *)
      else if negb (gotNewEvent vars) then (stop, resolved)
                                                       (* termination condition 2 *)
      else if signalAborted env finalOpts (rurl w) (reqCount w)
      then (stop, resolved)                            (* termination condition 3 *)
      else
        ({| rurl := rurl w; authors := authors w;
            nextUntil := (oldestCreatedAt vars + 1)%Z;
            evBucketsPerAuthor := evBucketsPerAuthor w;
            localSeenEventIds := localSeenEventIds w;
            reqCount := reqCount w; phase := AtLoopHead |}, g)
  | Finished => (w, g)
  end.

(** The merger of one author; it goes on when all the latches of the
    author are resolved. *)
Definition recordOf (pk : string) (evsPerRelay : list (list NostrEvent))
  : AuthorEvents :=
  {| author := pk;
     events := latestOf env finalOpts lim (sortBy createdAtDesc (evsDeduped evsPerRelay)) |}.

Definition stepMerger (pk : string) (g : Shared) : Task * Shared :=
  let items := default [] (KeyRelayMatrix.itemsByKey (latches g) pk) in
  match mapM (λ d : option (list NostrEvent), d) items with
  | Some evsPerRelay =>
      (Merger pk true,
       {| latches := latches g; tx := tx g ++ [recordOf pk evsPerRelay];
          effects := effects g |})
  | None => (Merger pk false, g)
  end.

Definition step (t : Task) (g : Shared) : Task * Shared :=
  match t with
  | Fetcher w => (Fetcher (stepFetcher w g).1, (stepFetcher w g).2)
  | Merger pk false => stepMerger pk g
  | Merger pk true => (t, g)
  end.
End loop.

Definition init (initialUntil lim : Z) (relayToAuthors : JsMap.t (list string))
  (allAuthors : list string) : list Task * Shared :=
  (((λ ra : string * list string,
       Fetcher {| rurl := ra.1; authors := ra.2; nextUntil := initialUntil;
                  evBucketsPerAuthor := EventBuckets.new ra.2 lim;
                  localSeenEventIds := ∅; reqCount := 0; phase := AtLoopHead |})
      <$> relayToAuthors)
   ++ ((λ pubkey, Merger pubkey false) <$> allAuthors),
   {| latches := KeyRelayMatrix.new relayToAuthors None; tx := []; effects := [] |}).

Record Iterator := {
  it_otherFilter : FetchFilter;
  it_limit : Z;
  it_finalOpts : Required_FetchLatestOptions;
  state : list Task * Shared;
}.

Definition advance (env : Env) (sched : list nat) (it : Iterator) : Iterator :=
  {| it_otherFilter := it_otherFilter it; it_limit := it_limit it;
     it_finalOpts := it_finalOpts it;
     state := run (step env (it_otherFilter it) (it_limit it) (it_finalOpts it))
                sched (state it) |}.

Definition delivered (it : Iterator) : list AuthorEvents := tx (state it).2.

(** [tx.close()] has run: all mergers have sent their record. *)
Definition closed (it : Iterator) : bool :=
  forallb (λ t, match t with Merger _ sent => sent | Fetcher _ => true end) (state it).1.

End PerAuthor.

(** [#mapAvailableRelayToAuthors]: the mapping of available relays to authors,
    and the array of all authors.  In the second shape the source reads
    [rurl2authors.get(rurl)!]; for a URL the pool returns although it was not
    asked for, that is [undefined], and building the latches and buckets from
    it fails with a [TypeError]. *)
Definition mapAvailableRelayToAuthors (env : Env) (a2rs : AuthorsAndRelays)
  (ensureOpts : Required_FetchOptions) (reqNips : list Z)
  : M (JsMap.t (list string) * list string) :=
  match a2rs with
  | RelaySetForAllAuthors authors relayUrls =>
      assertReq (authors, relayUrls)
        [checkIfNonEmpty snd sev_warn "Specify at least 1 relay URL";
         checkIfNonEmpty fst sev_warn "Specify at least 1 author (pubkey)"] ;;
      do eligibleRelays <- ensureRelaysWithCapCheck env relayUrls ensureOpts reqNips ;
      ret (JsMap.new ((λ rurl, (rurl, authors)) <$> eligibleRelays), authors)
  | RelaySetsPerAuthor a2rsArr =>
      assertReq a2rsArr
        [checkIfNonEmpty (λ a2rs, a2rs) sev_warn "Specify at least 1 author";
         checkIfTrue (forallb (λ ar : string * list string, (0 <? length ar.2)%nat))
           sev_warn "Specify at least 1 relay URL for all authors"] ;;
      (* transpose: author to rurls -> rurl to authors *)
      let rurl2authors :=
        foldl (λ (m : JsMap.t (list string)) (ar : string * list string),
                 foldl (λ (m : JsMap.t (list string)) rurl,
                          JsMap.set m rurl (default [] (JsMap.get m rurl) ++ [ar.1]))
                       m (normalizeRelayUrls env ar.2))
              [] a2rsArr in
      do eligibleRelays <-
        ensureRelaysWithCapCheck env (JsMap.keys rurl2authors) ensureOpts reqNips ;
      (* retain eligible relays only *)
      match mapM (λ rurl, (λ authors, (rurl, authors)) <$> JsMap.get rurl2authors rurl)
                 eligibleRelays with
      | Some entries => ret (JsMap.new entries, fst <$> a2rsArr)
      | None => throw TypeError
      end
  | Malformed isObject =>
      (* [isRelaySetForAllAuthors] tests ["relayUrls" in a2rs], and [in]
         throws a [TypeError] when its right operand is not an object *)
      if isObject
      then throw (NostrFetchError
                    "malformed first argument for fetchLatestEventsPerAuthor/fetchLastEventPerAuthor")
      else throw TypeError
  end.

Definition fetchLatestEventsPerAuthor (env : Env) (authorsAndRelays : AuthorsAndRelays)
  (otherFilter : FetchFilter) (lim : Z) (options : FetchLatestOptions)
  : M PerAuthor.Iterator :=
  assertReq lim [checkIfTrue (λ r, (0 <? r)%Z) sev_error limitShouldBePositive] ;;
  let finalOpts := spreadFetchLatestOptions defaultFetchLatestOptions options in
  (* get mapping of available relay to authors and list of all authors *)
  let reqNips := calcRequiredNips otherFilter in
  do ra <- mapAvailableRelayToAuthors env authorsAndRelays finalOpts reqNips ;
  let relayToAuthors := ra.1 in
  let allAuthors := ra.2 in
  let initialUntil := currUnixtimeSec env in
  ret {| PerAuthor.it_otherFilter := otherFilter;
         PerAuthor.it_limit := lim;
         PerAuthor.it_finalOpts := finalOpts;
         PerAuthor.state := PerAuthor.init initialUntil lim relayToAuthors allAuthors |}.

Module LastPerAuthor.
(** What the iterator of [fetchLastEventPerAuthor] yields; [event] is
    [undefined] ([None]) when [events] is empty. *)
Record AuthorEvent := {
  author : string;
  event : option NostrEvent;
}.

(** The generator [mapped]. *)
Definition mapped (latest1Iter : list PerAuthor.AuthorEvents) : list AuthorEvent :=
  (λ r, {| author := PerAuthor.author r; event := head (PerAuthor.events r) |})
    <$> latest1Iter.
End LastPerAuthor.

(** [fetchLastEventPerAuthor]: the iterator of [fetchLatestEventsPerAuthor]
    with limit 1; the caller reads [LastPerAuthor.mapped] of what it
    delivers. *)
Definition fetchLastEventPerAuthor (env : Env) (authorsAndRelays : AuthorsAndRelays)
  (otherFilter : FetchFilter) (options : FetchLatestOptions)
  : M PerAuthor.Iterator :=
  let finalOpts :=
    spreadFetchLatestOptions defaultFetchLatestOptions (lastEventOptions options) in
  fetchLatestEventsPerAuthor env authorsAndRelays otherFilter 1
    (asFetchLatestOptions finalOpts).

(* ===================================================================== *)
(** * A small relay, for running the fetcher on concrete inputs *)
(* ===================================================================== *)

Definition mkEvent (i pk : string) (t : Z) : NostrEvent :=
  {| id := i; pubkey := pk; created_at := t; kind := 1; tags := [];
     content := EmptyString; sig := EmptyString |}.

(** Whether a stored event matches a REQ filter ([until] and [since] are
    inclusive, as in NIP-01). *)
Definition matchesFilter (fil : Filter) (e : NostrEvent) : bool :=
  match until fil with Some u => (created_at e <=? u)%Z | None => true end
  && match since fil with Some s => (s <=? created_at e)%Z | None => true end
  && match authors (f_rest fil) with
     | Some pks => bool_decide (pubkey e ∈ pks)
     | None => true
     end.

(** A relay over a fixed store, kept latest first: it answers a REQ with the
    latest [limit] matching events, then EOSE. *)
Definition storeRelay (store : list NostrEvent) (fil : Filter) : Subscription :=
  let found := List.filter (matchesFilter fil) store in
  {| sub_events := match limit fil with
                   | Some n => take (Z.to_nat n) found
                   | None => found
                   end;
     sub_throws := false |}.

(** An environment in which every relay is connected and supports every NIP,
    the relay at URL [u] serves [stores u], every signature verifies unless
    the event's [sig] is ["invalid"], the clock shows [now] and nobody
    aborts. *)
Definition storeEnv (stores : string → list NostrEvent) (now : Z) : Env :=
  {| ensureRelays := λ urls _, urls;
     relaySupportsNips := λ _ _, true;
     fetchTillEose := λ url fil _ _, storeRelay (stores url) fil;
     verifyEventSig := λ e, negb (String.eqb (sig e) "invalid");
     currUnixtimeSec := now;
     aborted := λ _ _ _, false;
     normalizeRelayUrls := λ urls, urls |}.

Definition noOptions : FetchOptions :=
  {| skipVerification_opt := None; connectTimeoutMs_opt := None;
     abortSignal_opt := None; abortSubBeforeEoseTimeoutMs_opt := None;
     limitPerReq_opt := None |}.

(* ===================================================================== *)
(** * Properties of sorting and of the final selection *)
(* ===================================================================== *)

Section sortBy.
Context {A : Type} (compareFn : A → A → Z).

Lemma insertBy_Permutation x l : insertBy compareFn x l ≡ₚ x :: l.
Proof.
  induction l as [|y l IH]; simpl; [done|].
  destruct (compareFn x y <=? 0)%Z; [done|].
  rewrite IH. apply Permutation_swap.
Qed.

Lemma sortBy_Permutation l : sortBy compareFn l ≡ₚ l.
Proof.
  induction l as [|x l IH]; simpl; [done|].
  by rewrite insertBy_Permutation, IH.
Qed.

Lemma sortBy_length l : length (sortBy compareFn l) = length l.
Proof. by rewrite sortBy_Permutation. Qed.
End sortBy.

(** [a] may stand before [b] in a list ordered newest first. *)
Definition notOlder (a b : NostrEvent) : Prop := (created_at b <= created_at a)%Z.

(** Sorted by [created_at] descending. *)
Definition sortedDesc (l : list NostrEvent) : Prop := StronglySorted notOlder l.



Lemma insertBy_createdAtDesc_sorted x l :
  sortedDesc l → sortedDesc (insertBy createdAtDesc x l).
Proof.
  unfold sortedDesc. induction 1 as [|y l Hl IH Hy]; simpl.
  - repeat constructor.
  - unfold createdAtDesc at 1. case_match eqn:Hc.
    + apply Z.leb_le in Hc. constructor; [by constructor|].
      constructor; [unfold notOlder; lia|].
      eapply Forall_impl; [exact Hy|]. unfold notOlder. intros z ?; lia.
    + apply Z.leb_gt in Hc. constructor; [done|].
      rewrite insertBy_Permutation. constructor; [unfold notOlder; lia|done].
Qed.

Lemma sortBy_createdAtDesc_sorted l : sortedDesc (sortBy createdAtDesc l).
Proof.
  induction l as [|x l IH]; simpl; [constructor|].
  by apply insertBy_createdAtDesc_sorted.
Qed.



Lemma sortedDesc_sublist l k : k `sublist_of` l → sortedDesc l → sortedDesc k.
Proof.
  unfold sortedDesc. induction 1 as [|x k l Hs IH|x k l Hs IH]; intros Hl.
  - constructor.
  - apply StronglySorted_inv in Hl as [Hl Hx]. constructor; [by apply IH|].
    eapply Forall_forall. intros y Hy. eapply Forall_forall in Hx; [done|].
    by eapply sublist_subseteq.
  - apply StronglySorted_inv in Hl as [Hl _]. by apply IH.
Qed.


Lemma collectVerified_spec verify lim evs verified :
  (Z.of_nat (length verified) < lim)%Z →
  collectVerified verify lim evs verified
  = verified ++ take (Z.to_nat lim - length verified) (List.filter verify evs).
Proof.
  revert verified. induction evs as [|ev evs IH]; intros verified Hlt; simpl.
  - by rewrite take_nil, app_nil_r.
  - destruct (verify ev) eqn:Hv; [|by apply IH].
    rewrite length_app. simpl.
    destruct (Z.to_nat lim - length verified) as [|n] eqn:Hn; [lia|].
    case_match eqn:Hc.
    + apply Z.leb_le in Hc. assert (n = 0) as -> by lia.
      simpl. by rewrite take_0.
    + apply Z.leb_gt in Hc. rewrite IH by (rewrite length_app; simpl; lia).
      rewrite length_app. simpl. rewrite <-app_assoc. simpl.
      do 3 f_equal. lia.
Qed.

(** For a positive [limit], the final selection is the first [limit] events
    (of those whose signature verifies, in reduced verification mode). *)
Lemma latestOf_spec env finalOpts lim evs :
  (0 < lim)%Z →
  latestOf env finalOpts lim evs
  = if skipVerification finalOpts || negb (reduceVerification finalOpts)
    then take (Z.to_nat lim) evs
    else take (Z.to_nat lim) (List.filter (verifyEventSig env) evs).
Proof.
  intros Hlim. unfold latestOf, slice0. case_match; [|].
  - assert ((0 <=? lim)%Z = true) as -> by (apply Z.leb_le; lia). done.
  - rewrite collectVerified_spec by (simpl; lia). simpl. f_equal. lia.
Qed.

Lemma List_filter_sublist {A} (f : A → bool) l : List.filter f l `sublist_of` l.
Proof.
  induction l as [|x l IH]; simpl; [done|].
  destruct (f x); by constructor.
Qed.

Lemma latestOf_sublist env finalOpts lim evs :
  (0 < lim)%Z → latestOf env finalOpts lim evs `sublist_of` evs.
Proof.
  intros Hlim. rewrite latestOf_spec by done. case_match.
  - apply sublist_take.
  - etrans; [apply sublist_take|apply List_filter_sublist].
Qed.

Lemma latestOf_length env finalOpts lim evs :
  (0 < lim)%Z → (Z.of_nat (length (latestOf env finalOpts lim evs)) <= lim)%Z.
Proof.
  intros Hlim. rewrite latestOf_spec by done.
  case_match; rewrite length_take; lia.
Qed.

Lemma NoDup_ids_sublist (l k : list NostrEvent) :
  k `sublist_of` l → NoDup (id <$> l) → NoDup (id <$> k).
Proof.
  intros Hs HN. eapply sublist_NoDup; [exact HN|by apply fmap_sublist].
Qed.

Lemma NoDup_ids_sortBy (l : list NostrEvent) :
  NoDup (id <$> l) → NoDup (id <$> sortBy createdAtDesc l).
Proof. by rewrite sortBy_Permutation. Qed.

(* ===================================================================== *)
(** * The event-bucket table *)
(* ===================================================================== *)

Section EventBuckets_facts.
Import EventBuckets.

(** What holds of every table built from [keys] with cap [cap]. *)
Definition bucketsInv (keys : list string) (cap : Z) (b : t) : Prop :=
  limitPerKey b = cap
  ∧ (∀ k, is_Some (buckets b !! k) ↔ k ∈ keys)
  ∧ (∀ k bucket, buckets b !! k = Some bucket → (Z.of_nat (length bucket) <= cap)%Z).

Lemma new_lookup keys cap k :
  buckets (new keys cap) !! k = if decide (k ∈ keys) then Some [] else None.
Proof.
  unfold new. cbn [buckets]. induction keys as [|x keys IH].
  - rewrite fmap_nil, list_to_map_nil, lookup_empty.
    case_decide as Hin; [by apply elem_of_nil in Hin|done].
  - rewrite fmap_cons, list_to_map_cons. cbn [fst snd].
    destruct (decide (x = k)) as [->|Hne].
    + rewrite lookup_insert_eq. rewrite decide_True; [done|]. apply list_elem_of_here.
    + rewrite lookup_insert_ne by done. rewrite IH.
      destruct (decide (k ∈ keys)) as [Hin|Hin].
      * rewrite decide_True; [done|]. by apply list_elem_of_further.
      * rewrite decide_False; [done|].
        intros [?|?]%elem_of_cons; congruence.
Qed.

Lemma bucketsInv_new keys cap : (0 <= cap)%Z → bucketsInv keys cap (new keys cap).
Proof.
  intros Hcap. split; [done|]. split.
  - intros k. rewrite new_lookup. case_decide; split; try done; by intros [? ?].
  - intros k bucket. rewrite new_lookup. case_decide; [|done].
    intros [= <-]. simpl. lia.
Qed.

Lemma bucketsInv_add keys cap b key ev :
  bucketsInv keys cap b → bucketsInv keys cap (add b key ev).1.
Proof.
  intros (Hlim & Hdom & Hlen). unfold add.
  destruct (buckets b !! key) as [bucket|] eqn:Hk; [|done].
  case_match eqn:Hfull; [done|]. apply Z.leb_gt in Hfull.
  assert (bucketsInv keys cap
            {| buckets := <[key := bucket ++ [ev]]> (buckets b);
               limitPerKey := limitPerKey b |}) as Hnew.
  { split; [done|]. simpl. split.
    - intros k. rewrite <-Hdom. destruct (decide (key = k)) as [->|Hne].
      + rewrite lookup_insert_eq, Hk. split; eauto.
      + by rewrite lookup_insert_ne.
    - intros k bk. destruct (decide (key = k)) as [->|Hne].
      + rewrite lookup_insert_eq. intros [= <-]. rewrite length_app. simpl. lia.
      + rewrite lookup_insert_ne by done. apply Hlen. }
  by case_match.
Qed.

Lemma reachable_bucketsInv keys cap b :
  (0 <= cap)%Z → reachable keys cap b → bucketsInv keys cap b.
Proof.
  intros Hcap. induction 1; [by apply bucketsInv_new|by apply bucketsInv_add].
Qed.

Lemma openEntries_lookup b k bucket :
  (k, bucket) ∈ openEntries b
  ↔ buckets b !! k = Some bucket ∧ (Z.of_nat (length bucket) < limitPerKey b)%Z.
Proof.
  unfold openEntries. rewrite list_elem_of_filter, elem_of_map_to_list. simpl. tauto.
Qed.

Lemma openEntries_NoDup b : NoDup (fst <$> openEntries b).
Proof.
  eapply sublist_NoDup; [apply (NoDup_fst_map_to_list (buckets b))|].
  apply fmap_sublist, sublist_filter.
Qed.

Lemma calc_keys b k :
  k ∈ (calcKeysAndLimitForNextReq b).1
  ↔ ∃ bucket, getBucket b k = Some bucket
              ∧ (Z.of_nat (length bucket) < limitPerKey b)%Z.
Proof.
  unfold calcKeysAndLimitForNextReq, getBucket. simpl.
  rewrite list_elem_of_fmap. split.
  - intros [[k' bucket] [-> Hin]]. apply openEntries_lookup in Hin. eauto.
  - intros [bucket Hb]. exists (k, bucket). split; [done|]. by apply openEntries_lookup.
Qed.

Lemma calc_limit b :
  (calcKeysAndLimitForNextReq b).2
  = foldr Z.add 0%Z
      ((λ k, remaining b (default [] (getBucket b k)))
         <$> (calcKeysAndLimitForNextReq b).1).
Proof.
  unfold calcKeysAndLimitForNextReq, getBucket. simpl.
  rewrite <-list_fmap_compose. f_equal.
  apply list_fmap_ext. intros i [k bucket] Hi. simpl.
  apply list_elem_of_lookup_2, openEntries_lookup in Hi as [-> _]. done.
Qed.
End EventBuckets_facts.

(** The expectations of [fetcherHelper.spec.ts] hold of the model. *)
Example EventBuckets_test_add :
  let e1 := dummyEvent "1" in
  let e2 := dummyEvent "2" in
  let b0 := EventBuckets.new ["alice"; "bob"] 2 in
  let r1 := EventBuckets.add b0 "alice" e1 in
  let r2 := EventBuckets.add r1.1 "alice" e2 in
  let r3 := EventBuckets.add r2.1 "alice" e1 in
  let r4 := EventBuckets.add r3.1 "bob" e1 in
  let r5 := EventBuckets.add r4.1 "bob" e2 in
  let r6 := EventBuckets.add r5.1 "unknown" e1 in
  EventBuckets.state r1.2 = EventBuckets.open
  ∧ r2.2 = {| EventBuckets.state := EventBuckets.fulfilled;
              EventBuckets.events := Some [e1; e2] |}
  ∧ EventBuckets.state r3.2 = EventBuckets.dropped
  ∧ r5.2 = {| EventBuckets.state := EventBuckets.fulfilled;
              EventBuckets.events := Some [e1; e2] |}
  ∧ EventBuckets.state r6.2 = EventBuckets.dropped.
Proof. vm_compute. done. Qed.

Example EventBuckets_test_calc :
  let e := dummyEvent "1" in
  let b0 := EventBuckets.new ["alice"; "bob"] 2 in
  let b1 := (EventBuckets.add b0 "alice" e).1 in
  let b2 := (EventBuckets.add b1 "bob" e).1 in
  let b3 := (EventBuckets.add b2 "bob" e).1 in
  let b4 := (EventBuckets.add b3 "alice" e).1 in
  EventBuckets.calcKeysAndLimitForNextReq b0 = (["alice"; "bob"], 4%Z)
  ∧ EventBuckets.calcKeysAndLimitForNextReq b1 = (["alice"; "bob"], 3%Z)
  ∧ EventBuckets.calcKeysAndLimitForNextReq b2 = (["alice"; "bob"], 2%Z)
  ∧ EventBuckets.calcKeysAndLimitForNextReq b3 = (["alice"], 1%Z)
  ∧ EventBuckets.calcKeysAndLimitForNextReq b4 = ([], 0%Z).
Proof. vm_compute. done. Qed.

(** C8. For a table built from the keys [keys] with cap [cap], in any state
    it can be in: [add key ev] answers [dropped] exactly when [key] is not
    one of [keys] or its bucket already holds [cap] events (and then changes
    nothing); it answers [fulfilled], with the events of the bucket, exactly
    when this insert makes the bucket reach [cap]; it answers [open]
    otherwise, having pushed the event.  [calcKeysAndLimitForNextReq] returns
    each key whose bucket holds fewer than [cap] events once and no other
    key, and as limit the sum of [cap - length bucket] over these keys. *)
Theorem EventBuckets_add_calc (keys : list string) (cap : Z) (b : EventBuckets.t)
    (key : string) (ev : NostrEvent) :
  (0 <= cap)%Z →
  EventBuckets.reachable keys cap b →
  let b' := (EventBuckets.add b key ev).1 in
  let res := (EventBuckets.add b key ev).2 in
  let holds (n : Z) :=
    ∃ bucket, EventBuckets.getBucket b key = Some bucket ∧ Z.of_nat (length bucket) = n in
  (EventBuckets.state res = EventBuckets.dropped ↔ key ∉ keys ∨ holds cap)
  ∧ (EventBuckets.state res = EventBuckets.dropped →
       b' = b ∧ EventBuckets.events res = None)
  ∧ (EventBuckets.state res = EventBuckets.fulfilled ↔ holds (cap - 1)%Z)
  ∧ (EventBuckets.state res = EventBuckets.fulfilled →
       ∃ bucket, EventBuckets.getBucket b key = Some bucket
                 ∧ EventBuckets.getBucket b' key = Some (bucket ++ [ev])
                 ∧ EventBuckets.events res = Some (bucket ++ [ev])
                 ∧ Z.of_nat (length (bucket ++ [ev])) = cap)
  ∧ (EventBuckets.state res = EventBuckets.open →
       ∃ bucket, EventBuckets.getBucket b key = Some bucket
                 ∧ EventBuckets.getBucket b' key = Some (bucket ++ [ev])
                 ∧ (Z.of_nat (length (bucket ++ [ev])) < cap)%Z)
  ∧ NoDup (EventBuckets.calcKeysAndLimitForNextReq b).1
  ∧ (∀ k, k ∈ (EventBuckets.calcKeysAndLimitForNextReq b).1
          ↔ ∃ bucket, EventBuckets.getBucket b k = Some bucket
                      ∧ (Z.of_nat (length bucket) < cap)%Z)
  ∧ (EventBuckets.calcKeysAndLimitForNextReq b).2
    = foldr Z.add 0%Z
        ((λ k, (cap - Z.of_nat (length (default [] (EventBuckets.getBucket b k))))%Z)
           <$> (EventBuckets.calcKeysAndLimitForNextReq b).1).
Proof.
  intros Hcap Hreach.
  destruct (reachable_bucketsInv _ _ _ Hcap Hreach) as (Hlim & Hdom & Hlen).
  cbv zeta. unfold EventBuckets.getBucket.
  assert (∀ k, k ∈ (EventBuckets.calcKeysAndLimitForNextReq b).1
          ↔ ∃ bucket, EventBuckets.buckets b !! k = Some bucket
                      ∧ (Z.of_nat (length bucket) < cap)%Z) as Hkeys.
  { intros k. rewrite calc_keys, Hlim. done. }
  assert ((EventBuckets.calcKeysAndLimitForNextReq b).2
    = foldr Z.add 0%Z
        ((λ k, (cap - Z.of_nat (length (default [] (EventBuckets.buckets b !! k))))%Z)
           <$> (EventBuckets.calcKeysAndLimitForNextReq b).1)) as Hsum.
  { rewrite calc_limit at 1. unfold EventBuckets.remaining, EventBuckets.getBucket.
    by rewrite Hlim. }
  unfold EventBuckets.add.
  destruct (EventBuckets.buckets b !! key) as [bucket|] eqn:Hk.
  - assert (key ∈ keys) as Hin by (apply Hdom; eauto).
    specialize (Hlen _ _ Hk). rewrite Hlim.
    destruct (cap <=? Z.of_nat (length bucket))%Z eqn:Hfull.
    + apply Z.leb_le in Hfull. simpl.
      split_and!; try done; try apply openEntries_NoDup.
      * split; [|done]. intros _. right. exists bucket. split; [done|lia].
      * split; [done|]. intros (bk & [= <-] & ?). lia.
    + apply Z.leb_gt in Hfull.
      destruct (Z.of_nat (length (bucket ++ [ev])) =? cap)%Z eqn:Hreach'.
      * apply Z.eqb_eq in Hreach'. simpl. rewrite lookup_insert_eq.
        split_and!; try done; try apply openEntries_NoDup.
        -- split; [done|]. intros [?|(bk & [= <-] & ?)]; [done|lia].
        -- split; [|done]. intros _. exists bucket. split; [done|].
           rewrite length_app in Hreach'. simpl in Hreach'. lia.
        -- intros _. by exists bucket.
      * apply Z.eqb_neq in Hreach'. simpl. rewrite lookup_insert_eq.
        split_and!; try done; try apply openEntries_NoDup.
        -- split; [done|]. intros [?|(bk & [= <-] & ?)]; [done|lia].
        -- split; [done|]. intros (bk & [= <-] & ?).
           rewrite length_app in Hreach'. simpl in Hreach'. lia.
        -- intros _. exists bucket. split_and!; try done.
           rewrite length_app in *. simpl in *. lia.
  - assert (key ∉ keys) as Hnin.
    { intros Hin. apply Hdom in Hin as [? ?]. congruence. }
    simpl. split_and!; try done; try apply openEntries_NoDup.
    + split; [by left|done].
    + split; [done|]. by intros (? & ? & ?).
Qed.

Lemma EventBuckets_add_calc_witness :
  EventBuckets.state
    (EventBuckets.add (EventBuckets.add (EventBuckets.new ["alice"; "bob"] 2)
                         "alice" (dummyEvent "1")).1 "alice" (dummyEvent "2")).2
  = EventBuckets.fulfilled
  ↔ ∃ bucket,
      EventBuckets.getBucket
        (EventBuckets.add (EventBuckets.new ["alice"; "bob"] 2) "alice" (dummyEvent "1")).1
        "alice" = Some bucket
      ∧ Z.of_nat (length bucket) = (2 - 1)%Z.
Proof.
  refine (proj1 (proj2 (proj2
    (EventBuckets_add_calc ["alice"; "bob"] 2
       (EventBuckets.add (EventBuckets.new ["alice"; "bob"] 2) "alice" (dummyEvent "1")).1
       "alice" (dummyEvent "2") _ _)))).
  - lia.
  - apply EventBuckets.reach_add, EventBuckets.reach_new.
Defined.

(* ===================================================================== *)
(** * What the calls do before the fetch starts *)
(* ===================================================================== *)

(** The eligible relays: connected, and supporting the required NIPs. *)
Definition eligibleRelayUrlsOf (env : Env) (relayUrls : list string)
  (opts : Required_FetchOptions) (requiredNips : list Z) : list string :=
  let connectedRelays := ensureRelays env relayUrls (connectTimeoutMs opts) in
  match requiredNips with
  | [] => connectedRelays
  | _ => filter (λ rurl, relaySupportsNips env rurl requiredNips) connectedRelays
  end.

Lemma ensureRelaysWithCapCheck_Ok env relayUrls opts requiredNips :
  (ensureRelaysWithCapCheck env relayUrls opts requiredNips).2
  = Ok (eligibleRelayUrlsOf env relayUrls opts requiredNips).
Proof.
  unfold ensureRelaysWithCapCheck, eligibleRelayUrlsOf. by destruct requiredNips.
Qed.

Definition invalidTimeRange (timeRangeFilter : FetchTimeRangeFilter) : bool :=
  match tr_since timeRangeFilter, tr_until timeRangeFilter with
  | Some s, Some u => (u <? s)%Z
  | _, _ => false
  end.

(** The warning for an empty array. *)
Definition warnIfEmpty {E} (l : list E) (msg : string) : list Effect :=
  match l with
  | [] => [Log warn msg]
  | _ => []
  end.

Lemma bind_Ok {A B} (m : M A) (k : A → M B) es b :
  bind m k = (es, Ok b) →
  ∃ es1 a, m = (es1, Ok a) ∧ es = es1 ++ (k a).1 ∧ (k a).2 = Ok b.
Proof.
  unfold bind. destruct m as [es1 [a|e]]; [|done].
  intros [= <- Hb]. by exists es1, a.
Qed.

Lemma bind_Throw {A B} (m : M A) (k : A → M B) es e :
  bind m k = (es, Throw e) →
  m = (es, Throw e)
  ∨ ∃ es1 a, m = (es1, Ok a) ∧ es = es1 ++ (k a).1 ∧ (k a).2 = Throw e.
Proof.
  unfold bind. destruct m as [es1 [a|e']].
  - intros [= <- Hb]. right. by exists es1, a.
  - intros [= <- <-]. by left.
Qed.

(** [assertReq] only logs. *)
Lemma assertReq_noIO {T} (req : T) checks :
  Forall (λ e, isIO e = false) (assertReq req checks).1.
Proof.
  induction checks as [|check checks IH]; simpl; [constructor|].
  destruct (check req) as [[[] msg]|]; simpl; [|constructor|done].
  unfold bind. simpl. destruct (assertReq req checks) as [es [[]|e]]; simpl in *;
    by constructor.
Qed.

Lemma Ok_pair_inv {A} (es es' : list Effect) (a a' : A) :
  (es, Ok a) = (es', Ok a') → es = es' ∧ a = a'.
Proof. by intros [= -> ->]. Qed.

Lemma bind_Ok_eq {A B} es (a : A) (k : A → M B) :
  bind (es, Ok a) k = (es ++ (k a).1, (k a).2).
Proof. done. Qed.

Lemma bind_Throw_eq {A B} es e (k : A → M B) : bind (es, Throw e) k = (es, Throw e).
Proof. done. Qed.

Lemma ensureRelaysWithCapCheck_pair env relayUrls opts requiredNips :
  ensureRelaysWithCapCheck env relayUrls opts requiredNips
  = ((ensureRelaysWithCapCheck env relayUrls opts requiredNips).1,
     Ok (eligibleRelayUrlsOf env relayUrls opts requiredNips)).
Proof.
  rewrite <-ensureRelaysWithCapCheck_Ok. by destruct (ensureRelaysWithCapCheck _ _ _ _).
Qed.

Lemma assertReq_timeRange_eq (relayUrls : list string) timeRangeFilter :
  assertReq (relayUrls, timeRangeFilter)
    [checkIfNonEmpty fst sev_warn "Specify at least 1 relay URL";
     checkIfTimeRangeIsValid snd sev_error "Invalid time range (since > until)"]
  = (warnIfEmpty relayUrls "Specify at least 1 relay URL",
     if invalidTimeRange timeRangeFilter
     then Throw (NostrFetchError "Invalid time range (since > until)")
     else Ok tt).
Proof.
  unfold invalidTimeRange.
  destruct relayUrls as [|u us], timeRangeFilter as [[s|] [u'|]]; simpl;
    unfold checkIfNonEmpty, checkIfTimeRangeIsValid, bind; simpl;
    try destruct (u' <? s)%Z; reflexivity.
Qed.

Lemma assertReq_limit_eq (relayUrls : list string) lim :
  assertReq (relayUrls, lim)
    [checkIfNonEmpty fst sev_warn "Specify at least 1 relay URL";
     checkIfTrue (λ r, (0 <? r.2)%Z) sev_error limitShouldBePositive]
  = (warnIfEmpty relayUrls "Specify at least 1 relay URL",
     if (0 <? lim)%Z then Ok tt else Throw (NostrFetchError limitShouldBePositive)).
Proof.
  destruct relayUrls as [|u us]; simpl;
    unfold checkIfNonEmpty, checkIfTrue, bind; simpl;
    destruct (0 <? lim)%Z; reflexivity.
Qed.

Lemma allEventsIterator_eq env relayUrls fil timeRangeFilter options :
  allEventsIterator env relayUrls fil timeRangeFilter options
  = if invalidTimeRange timeRangeFilter
    then (warnIfEmpty relayUrls "Specify at least 1 relay URL",
          Throw (NostrFetchError "Invalid time range (since > until)"))
    else
      let eligibleRelayUrls :=
        eligibleRelayUrlsOf env relayUrls (filledOptsOf options) (calcRequiredNips fil) in
      (warnIfEmpty relayUrls "Specify at least 1 relay URL"
         ++ (ensureRelaysWithCapCheck env relayUrls (filledOptsOf options)
               (calcRequiredNips fil)).1,
       Ok {| AllEvents.it_filter := fil;
             AllEvents.it_timeRangeFilter := timeRangeFilter;
             AllEvents.it_finalOpts := finalOptsOf options;
             AllEvents.highWaterMark :=
               highWaterMarkOf (finalOptsOf options) eligibleRelayUrls;
             AllEvents.state :=
               AllEvents.init (default (currUnixtimeSec env) (tr_until timeRangeFilter))
                 eligibleRelayUrls |}).
Proof.
  unfold allEventsIterator. rewrite assertReq_timeRange_eq.
  destruct (invalidTimeRange timeRangeFilter); [done|].
  rewrite bind_Ok_eq. cbv zeta. rewrite ensureRelaysWithCapCheck_pair.
  rewrite bind_Ok_eq. unfold ret. cbn [fst snd]. by rewrite app_nil_r.
Qed.

(** The options [fetchAllEvents] passes to [allEventsIterator]:
    [{ ...finalOpts, enableBackpressure: false }]. *)
Definition fetchAllIterOptions (options : FetchAllOptions) : AllEventsIterOptions :=
  {| aio_fetch_opt := asFetchOptions (spreadFetchAllOptions defaultFetchAllOptions options);
     enableBackpressure_opt := Some false |}.

(** The state of the relay workers of [fetchAllEvents] under a schedule. *)
Definition fetchAllState (env : Env) (sched : list nat) (relayUrls : list string)
  (fil : FetchFilter) (timeRangeFilter : FetchTimeRangeFilter) (options : FetchAllOptions)
  : list AllEvents.Worker * FanIn :=
  let aio := fetchAllIterOptions options in
  run (AllEvents.step env fil timeRangeFilter (finalOptsOf aio)) sched
      (AllEvents.init (default (currUnixtimeSec env) (tr_until timeRangeFilter))
         (eligibleRelayUrlsOf env relayUrls (filledOptsOf aio) (calcRequiredNips fil))).

Lemma fetchAllEvents_eq env sched relayUrls fil timeRangeFilter options :
  fetchAllEvents env sched relayUrls fil timeRangeFilter options
  = if invalidTimeRange timeRangeFilter
    then (warnIfEmpty relayUrls "Specify at least 1 relay URL",
          Throw (NostrFetchError "Invalid time range (since > until)"))
    else
      let st := fetchAllState env sched relayUrls fil timeRangeFilter options in
      (warnIfEmpty relayUrls "Specify at least 1 relay URL"
         ++ (warnIfEmpty relayUrls "Specify at least 1 relay URL"
               ++ (ensureRelaysWithCapCheck env relayUrls
                     (filledOptsOf (fetchAllIterOptions options))
                     (calcRequiredNips fil)).1)
         ++ effects st.2,
       Ok (if forallb (λ w, isFinished (AllEvents.phase w)) st.1
           then Some (if sort (spreadFetchAllOptions defaultFetchAllOptions options)
                      then sortBy createdAtDesc (tx st.2) else tx st.2)
           else None)).
Proof.
  unfold fetchAllEvents. fold (fetchAllIterOptions options).
  rewrite assertReq_timeRange_eq, allEventsIterator_eq. unfold fetchAllState.
  destruct (invalidTimeRange timeRangeFilter); [done|].
  rewrite bind_Ok_eq. cbv zeta. rewrite bind_Ok_eq. unfold tell. rewrite bind_Ok_eq.
  unfold AllEvents.advance, AllEvents.closed, AllEvents.delivered.
  cbn [fst snd AllEvents.state AllEvents.it_filter AllEvents.it_timeRangeFilter
       AllEvents.it_finalOpts].
  set (st := run _ sched _).
  destruct (forallb _ st.1); unfold ret; cbn [fst snd]; by rewrite app_nil_r.
Qed.

(** The state of the relay workers of [fetchLatestEvents] under a schedule. *)
Definition fetchLatestState (env : Env) (sched : list nat) (relayUrls : list string)
  (fil : FetchFilter) (lim : Z) (options : FetchLatestOptions)
  : list Latest.Worker * FanIn :=
  let finalOpts := spreadFetchLatestOptions defaultFetchLatestOptions options in
  run (Latest.step env fil finalOpts) sched
      (Latest.init (currUnixtimeSec env) lim
         (eligibleRelayUrlsOf env relayUrls finalOpts (calcRequiredNips fil))).

Lemma fetchLatestEvents_eq env sched relayUrls fil lim options :
  fetchLatestEvents env sched relayUrls fil lim options
  = if (0 <? lim)%Z
    then
      let finalOpts := spreadFetchLatestOptions defaultFetchLatestOptions options in
      let st := fetchLatestState env sched relayUrls fil lim options in
      (warnIfEmpty relayUrls "Specify at least 1 relay URL"
         ++ (ensureRelaysWithCapCheck env relayUrls finalOpts (calcRequiredNips fil)).1
         ++ effects st.2,
       Ok (if Latest.closed st
           then Some (latestOf env finalOpts lim (sortBy createdAtDesc (tx st.2)))
           else None))
    else (warnIfEmpty relayUrls "Specify at least 1 relay URL",
          Throw (NostrFetchError limitShouldBePositive)).
Proof.
  unfold fetchLatestEvents, fetchLatestState. rewrite assertReq_limit_eq.
  destruct (0 <? lim)%Z; [|done].
  rewrite bind_Ok_eq. cbv zeta. rewrite ensureRelaysWithCapCheck_pair.
  rewrite bind_Ok_eq. unfold tell. rewrite bind_Ok_eq. cbn [fst snd].
  set (st := run _ sched _).
  destruct (Latest.closed st); unfold ret; cbn [fst snd]; by rewrite app_nil_r.
Qed.

Lemma fetchLatestEventsPerAuthor_eq env authorsAndRelays otherFilter lim options :
  fetchLatestEventsPerAuthor env authorsAndRelays otherFilter lim options
  = if (0 <? lim)%Z
    then
      let finalOpts := spreadFetchLatestOptions defaultFetchLatestOptions options in
      match mapAvailableRelayToAuthors env authorsAndRelays finalOpts
              (calcRequiredNips otherFilter) with
      | (es, Ok ra) =>
          (es, Ok {| PerAuthor.it_otherFilter := otherFilter;
                     PerAuthor.it_limit := lim;
                     PerAuthor.it_finalOpts := finalOpts;
                     PerAuthor.state :=
                       PerAuthor.init (currUnixtimeSec env) lim ra.1 ra.2 |})
      | (es, Throw e) => (es, Throw e)
      end
    else ([], Throw (NostrFetchError limitShouldBePositive)).
Proof.
  unfold fetchLatestEventsPerAuthor. simpl. unfold checkIfTrue, bind. simpl.
  destruct (0 <? lim)%Z; simpl; [|done].
  destruct (mapAvailableRelayToAuthors _ _ _ _) as [es [ra|e]]; simpl; [|done].
  by rewrite app_nil_r.
Qed.

(* ===================================================================== *)
(** * Invariants of the relay workers *)
(* ===================================================================== *)

(** The channel holds no id twice, and every id on it is in
    [globalSeenEventIds]. *)
Definition fanInOk (g : FanIn) : Prop :=
  NoDup (id <$> tx g) ∧ ∀ e, e ∈ tx g → id e ∈ globalSeenEventIds g.

Lemma fanInOk_init : fanInOk {| globalSeenEventIds := ∅; tx := []; effects := [] |}.
Proof. split; simpl; [constructor|]. by intros e ?%elem_of_nil. Qed.

Lemma fanInOk_effects g es :
  fanInOk g →
  fanInOk {| globalSeenEventIds := globalSeenEventIds g; tx := tx g; effects := es |}.
Proof. done. Qed.

Lemma fanInOk_send g e :
  fanInOk g → id e ∉ globalSeenEventIds g →
  fanInOk {| globalSeenEventIds := {[id e]} ∪ globalSeenEventIds g;
             tx := tx g ++ [e]; effects := effects g |}.
Proof.
  intros [Hnd Hseen] Hnew. split; simpl.
  - rewrite fmap_app. apply NoDup_app. split_and!; [done| |apply NoDup_singleton].
    intros i Hi Hi'. apply list_elem_of_singleton in Hi'. subst i.
    apply list_elem_of_fmap in Hi as (e' & Heq & He').
    apply Hnew. rewrite Heq. by apply Hseen.
  - intros e' [He'| ->%list_elem_of_singleton]%elem_of_app.
    + apply elem_of_union_r. by apply Hseen.
    + apply elem_of_union_l. by apply elem_of_singleton.
Qed.

Lemma AllEvents_step_fanInOk env fil timeRangeFilter finalOpts w g :
  fanInOk g → fanInOk (AllEvents.step env fil timeRangeFilter finalOpts w g).2.
Proof.
  intros Hg. unfold AllEvents.step.
  destruct (AllEvents.phase w) as [|[|e pending] throws vars|]; simpl; try done.
  - repeat case_match; done.
  - repeat case_decide; simpl; try done. by apply fanInOk_send.
Qed.

Lemma Latest_step_fanInOk env fil finalOpts w g :
  fanInOk g → fanInOk (Latest.step env fil finalOpts w g).2.
Proof.
  intros Hg. unfold Latest.step.
  destruct (Latest.phase w) as [|[|e pending] throws vars|]; simpl; try done.
  - repeat case_match; done.
  - repeat case_decide; simpl; try done. by apply fanInOk_send.
Qed.

(** Every sub-request of the trace was made with [skipVerification = b]. *)
Definition subRequestsSkip (b : bool) (es : list Effect) : Prop :=
  Forall (λ eff, match eff with
                 | FetchTillEose _ _ o => sub_skipVerification o = b
                 | _ => True
                 end) es.

Lemma Latest_step_subRequestsSkip env fil (finalOpts : Required_FetchLatestOptions) w g :
  subRequestsSkip (skipVerification finalOpts || reduceVerification finalOpts) (effects g) →
  subRequestsSkip (skipVerification finalOpts || reduceVerification finalOpts)
    (effects (Latest.step env fil finalOpts w g).2).
Proof.
  intros Hg. unfold Latest.step.
  destruct (Latest.phase w) as [|[|e pending] throws vars|]; simpl; try done.
  - apply Forall_app. split; [done|]. by repeat constructor.
  - repeat case_match; done.
  - repeat case_decide; simpl; done.
Qed.

(** The oldest [created_at] among events, [MAX_SAFE_INTEGER] at most. *)
Definition oldestOf (evs : list NostrEvent) : Z :=
  foldr (λ e m, Z.min (created_at e) m) MAX_SAFE_INTEGER evs.

Lemma oldestOf_le evs e : e ∈ evs → (oldestOf evs <= created_at e)%Z.
Proof.
  induction 1 as [e evs|e e' evs _ IH]; simpl; lia.
Qed.

Lemma oldestOf_max evs : (oldestOf evs <= MAX_SAFE_INTEGER)%Z.
Proof. induction evs; simpl; lia. Qed.

(** The variables of the running iteration agree with its history. *)
Definition pageOk {V} (gotNew : V → bool) (oldest : V → Z) (fresh : V → list NostrEvent)
  (p : Phase V) : Prop :=
  match p with
  | InForAwait _ _ vars =>
      oldest vars = oldestOf (fresh vars) ∧ (gotNew vars = true ↔ fresh vars ≠ [])
  | _ => True
  end.

Definition AllEvents_workerOk (w : AllEvents.Worker) : Prop :=
  pageOk AllEvents.gotNewEvent AllEvents.oldestCreatedAt AllEvents.fresh (AllEvents.phase w).

Definition Latest_workerOk (w : Latest.Worker) : Prop :=
  pageOk (λ v, negb (Latest.numNewEvents v =? 0)%Z) Latest.oldestCreatedAt Latest.fresh
         (Latest.phase w)
  ∧ match Latest.phase w with
    | InForAwait _ _ vars => Latest.numNewEvents vars = Z.of_nat (length (Latest.fresh vars))
    | _ => True
    end.

Definition PerAuthor_workerOk (w : PerAuthor.Worker) : Prop :=
  pageOk PerAuthor.gotNewEvent PerAuthor.oldestCreatedAt PerAuthor.fresh (PerAuthor.phase w).

Lemma AllEvents_step_workerOk env fil timeRangeFilter finalOpts w g :
  AllEvents_workerOk w →
  AllEvents_workerOk (AllEvents.step env fil timeRangeFilter finalOpts w g).1.
Proof.
  unfold AllEvents_workerOk, AllEvents.step.
  destruct (AllEvents.phase w) as [|[|e pending] throws vars|] eqn:Hph;
    simpl; rewrite ?Hph; try done.
  - repeat case_match; done.
  - intros [Hold Hgot]. repeat case_decide; simpl; try done;
      (split; [rewrite Hold; case_match eqn:Hc;
               [apply Z.ltb_lt in Hc|apply Z.ltb_ge in Hc]; lia|done]).
Qed.

Lemma Latest_step_workerOk env fil finalOpts w g :
  Latest_workerOk w → Latest_workerOk (Latest.step env fil finalOpts w g).1.
Proof.
  unfold Latest_workerOk, Latest.step.
  destruct (Latest.phase w) as [|[|e pending] throws vars|] eqn:Hph;
    simpl; rewrite ?Hph; try done.
  - repeat case_match; done.
  - intros [[Hold Hgot] Hnum]. repeat case_decide; simpl; try done.
    all: split; [split|]; simpl.
    all: try (rewrite Hold; case_match eqn:Hc;
              [apply Z.ltb_lt in Hc|apply Z.ltb_ge in Hc]; lia).
    all: try lia.
    all: split; [done|intros _]; apply negb_true_iff, Z.eqb_neq; lia.
Qed.

Lemma PerAuthor_step_workerOk env otherFilter finalOpts w g :
  PerAuthor_workerOk w →
  PerAuthor_workerOk (PerAuthor.stepFetcher env otherFilter finalOpts w g).1.
Proof.
  unfold PerAuthor_workerOk, PerAuthor.stepFetcher.
  destruct (PerAuthor.phase w) as [|[|e pending] throws vars|] eqn:Hph;
    simpl; rewrite ?Hph; try done.
  - repeat case_match; done.
  - repeat case_match; done.
  - intros [Hold Hgot]. case_decide; [done|].
    destruct (EventBuckets.state _); simpl;
      (split; [rewrite Hold; case_match eqn:Hc;
               [apply Z.ltb_lt in Hc|apply Z.ltb_ge in Hc]; lia|done]).
Qed.

Lemma evsDeduped_NoDup evsPerRelay : NoDup (id <$> PerAuthor.evsDeduped evsPerRelay).
Proof.
  unfold PerAuthor.evsDeduped.
  set (f := λ (acc : list NostrEvent * gset string) ev, _).
  assert (∀ evs acc,
            (NoDup (id <$> acc.1) ∧ ∀ e, e ∈ acc.1 → id e ∈ acc.2) →
            NoDup (id <$> (foldl f acc evs).1)
            ∧ ∀ e, e ∈ (foldl f acc evs).1 → id e ∈ (foldl f acc evs).2) as Hfold.
  { induction evs as [|ev evs IH]; intros acc Hacc; [done|].
    simpl. apply IH. unfold f. case_decide as Hin; [done|]. simpl.
    destruct Hacc as [Hnd Hseen]. split.
    - rewrite fmap_app. apply NoDup_app. split_and!; [done| |apply NoDup_singleton].
      intros i Hi Hi'. apply list_elem_of_singleton in Hi'. subst i.
      apply list_elem_of_fmap in Hi as (e' & Heq & He').
      apply Hin. rewrite Heq. by apply Hseen.
    - intros e' [He'| ->%list_elem_of_singleton]%elem_of_app.
      + apply elem_of_union_r. by apply Hseen.
      + apply elem_of_union_l. by apply elem_of_singleton. }
  apply Hfold. split; simpl; [constructor|]. by intros e ?%elem_of_nil.
Qed.

(** Every record on the channel of the per-author fetch holds no id twice,
    holds at most [lim] events, and is sorted. *)
Definition recordsOk (lim : Z) (g : PerAuthor.Shared) : Prop :=
  ∀ r, r ∈ PerAuthor.tx g →
       NoDup (id <$> PerAuthor.events r)
       ∧ (Z.of_nat (length (PerAuthor.events r)) <= lim)%Z
       ∧ sortedDesc (PerAuthor.events r).

Lemma recordOf_ok env lim finalOpts pk evsPerRelay :
  (0 < lim)%Z →
  let r := PerAuthor.recordOf env lim finalOpts pk evsPerRelay in
  NoDup (id <$> PerAuthor.events r)
  ∧ (Z.of_nat (length (PerAuthor.events r)) <= lim)%Z
  ∧ sortedDesc (PerAuthor.events r).
Proof.
  intros Hlim. simpl. split_and!.
  - eapply NoDup_ids_sublist; [by apply latestOf_sublist|].
    apply NoDup_ids_sortBy, evsDeduped_NoDup.
  - by apply latestOf_length.
  - eapply sortedDesc_sublist; [by apply latestOf_sublist|].
    apply sortBy_createdAtDesc_sorted.
Qed.

Lemma PerAuthor_step_recordsOk env otherFilter lim finalOpts t g :
  (0 < lim)%Z →
  recordsOk lim g → recordsOk lim (PerAuthor.step env otherFilter lim finalOpts t g).2.
Proof.
  intros Hlim Hg. destruct t as [w|pk [|]]; simpl; [| done |].
  - unfold PerAuthor.stepFetcher.
    destruct (PerAuthor.phase w) as [|[|e pending] throws vars|]; simpl; try done.
    + repeat case_match; done.
    + repeat case_match; done.
    + case_decide; [done|]. by destruct (EventBuckets.state _).
  - unfold PerAuthor.stepMerger. case_match; [|done].
    intros r [Hr| ->%list_elem_of_singleton]%elem_of_app; [by apply Hg|].
    by apply recordOf_ok.
Qed.

(** C1. No event id is delivered twice: not on the channel of
    [allEventsIterator], whatever the relays answer and however the relay
    workers interleave; not in the array [fetchAllEvents] or
    [fetchLatestEvents] resolves to; and not within the [events] of a record
    of [fetchLatestEventsPerAuthor]. *)
Theorem delivered_ids_NoDup (env : Env) (sched : list nat) :
  (∀ relayUrls fil timeRangeFilter options es it,
     allEventsIterator env relayUrls fil timeRangeFilter options = (es, Ok it) →
     NoDup (id <$> AllEvents.delivered (AllEvents.advance env sched it)))
  ∧ (∀ relayUrls fil timeRangeFilter options es res,
       fetchAllEvents env sched relayUrls fil timeRangeFilter options = (es, Ok (Some res)) →
       NoDup (id <$> res))
  ∧ (∀ relayUrls fil lim options es res,
       fetchLatestEvents env sched relayUrls fil lim options = (es, Ok (Some res)) →
       NoDup (id <$> res))
  ∧ (∀ authorsAndRelays otherFilter lim options es it r,
       fetchLatestEventsPerAuthor env authorsAndRelays otherFilter lim options
       = (es, Ok it) →
       r ∈ PerAuthor.delivered (PerAuthor.advance env sched it) →
       NoDup (id <$> PerAuthor.events r)).
Proof.
  split_and!.
  - intros relayUrls fil timeRangeFilter options es it.
    rewrite allEventsIterator_eq. case_match; [done|]. intros [= _ <-].
    unfold AllEvents.delivered, AllEvents.advance. simpl.
    apply (run_shared _ fanInOk); [intros; by apply AllEvents_step_fanInOk|].
    apply fanInOk_init.
  - intros relayUrls fil timeRangeFilter options es res.
    rewrite fetchAllEvents_eq. case_match; [done|]. cbv zeta.
    assert (fanInOk (fetchAllState env sched relayUrls fil timeRangeFilter options).2)
      as [Hnd _].
    { apply (run_shared _ fanInOk); [intros; by apply AllEvents_step_fanInOk|].
      apply fanInOk_init. }
    case_match; [|done]. intros [= _ <-].
    case_match; [by apply NoDup_ids_sortBy|done].
  - intros relayUrls fil lim options es res.
    rewrite fetchLatestEvents_eq. case_match eqn:Hlim; [|done].
    apply Z.ltb_lt in Hlim. cbv zeta.
    assert (fanInOk (fetchLatestState env sched relayUrls fil lim options).2)
      as [Hnd _].
    { apply (run_shared _ fanInOk); [intros; by apply Latest_step_fanInOk|].
      apply fanInOk_init. }
    case_match; [|done]. intros [= _ <-].
    eapply NoDup_ids_sublist; [by apply latestOf_sublist|]. by apply NoDup_ids_sortBy.
  - intros authorsAndRelays otherFilter lim options es it r.
    rewrite fetchLatestEventsPerAuthor_eq. case_match eqn:Hlim; [|done].
    apply Z.ltb_lt in Hlim. cbv zeta.
    destruct (mapAvailableRelayToAuthors _ _ _ _) as [es' [ra|e]]; [|done].
    intros [= _ <-]. unfold PerAuthor.delivered, PerAuthor.advance. simpl.
    intros Hr. eapply (run_shared _ (recordsOk lim)); [| |exact Hr].
    + intros; by apply PerAuthor_step_recordsOk.
    + by intros r' ?%elem_of_nil.
Qed.

(* ===================================================================== *)
(** * A concrete fetch, used to exercise the theorems *)
(* ===================================================================== *)

(** Two relays that share the event ["c"]. *)
Definition demoStores (url : string) : list NostrEvent :=
  if String.eqb url "wss://r1" then [mkEvent "c" "alice" 100; mkEvent "b" "alice" 90]
  else if String.eqb url "wss://r2" then [mkEvent "c" "alice" 100; mkEvent "a" "bob" 80]
  else [].

Definition demoEnv : Env := storeEnv demoStores 1000.
Definition demoRelays : list string := ["wss://r1"; "wss://r2"].
Definition demoSched : list nat :=
  [0; 1; 0; 1; 0; 1; 0; 1; 0; 1; 0; 1; 0; 1; 0; 1; 0; 1; 2; 3].
Definition noTimeRange : FetchTimeRangeFilter := {| tr_since := None; tr_until := None |}.
Definition noAllEventsIterOptions : AllEventsIterOptions :=
  {| aio_fetch_opt := noOptions; enableBackpressure_opt := None |}.
Definition noFetchAllOptions : FetchAllOptions :=
  {| fao_fetch_opt := noOptions; sort_opt := None |}.
Definition noFetchLatestOptions : FetchLatestOptions :=
  {| flo_fetch_opt := noOptions; reduceVerification_opt := None |}.

Lemma delivered_ids_NoDup_witness :
  (∃ es it,
     allEventsIterator demoEnv demoRelays emptyFetchFilter noTimeRange
       noAllEventsIterOptions = (es, Ok it)
     ∧ NoDup (id <$> AllEvents.delivered (AllEvents.advance demoEnv demoSched it)))
  ∧ (∃ es res,
       fetchLatestEvents demoEnv demoSched demoRelays emptyFetchFilter 2
         noFetchLatestOptions = (es, Ok (Some res))
       ∧ NoDup (id <$> res)).
Proof.
  destruct (delivered_ids_NoDup demoEnv demoSched) as (Ha & _ & Hc & _).
  split.
  - eexists _, _. split; [vm_compute; reflexivity|].
    eapply (Ha demoRelays emptyFetchFilter noTimeRange noAllEventsIterOptions).
    vm_compute; reflexivity.
  - eexists _, _. split; [vm_compute; reflexivity|].
    eapply (Hc demoRelays emptyFetchFilter 2%Z noFetchLatestOptions).
    vm_compute; reflexivity.
Defined.

(* ===================================================================== *)
(** * Pagination: how [nextUntil] moves *)
(* ===================================================================== *)

(** The locally-new events of the iteration that a step from phase [p] to
    phase [p'] ends in order to start the next one; [[]] for every other
    step. *)
Definition iterationEnded {V} (fresh : V → list NostrEvent) (p p' : Phase V)
  : list NostrEvent :=
  match p, p' with
  | InForAwait [] _ vars, AtLoopHead => fresh vars
  | _, _ => []
  end.

(** How a step moves [nextUntil] from [u] to [u'], where [fr] are the
    locally-new events of the iteration the step ends. *)
Definition nextUntilLaw (u u' : Z) (fr : list NostrEvent) : Prop :=
  (fr = [] → u' = u)
  ∧ (fr ≠ [] → u' = (oldestOf fr + 1)%Z)
  ∧ ((∃ e, e ∈ fr ∧ (created_at e < u)%Z) → (u' <= u)%Z)
  ∧ ((∃ e, e ∈ fr ∧ (created_at e < u - 1)%Z) → (u' < u)%Z).

Lemma nextUntilLaw_same u : nextUntilLaw u u [].
Proof.
  split_and!; try done; by intros (e & ?%elem_of_nil & _).
Qed.

Lemma nextUntilLaw_next u fr : fr ≠ [] → nextUntilLaw u (oldestOf fr + 1) fr.
Proof.
  intros Hne. split_and!; try done.
  - intros (e & He & Hlt). pose proof (oldestOf_le _ _ He). lia.
  - intros (e & He & Hlt). pose proof (oldestOf_le _ _ He). lia.
Qed.

Lemma AllEvents_step_nextUntil env fil timeRangeFilter finalOpts w g :
  AllEvents_workerOk w →
  let w' := (AllEvents.step env fil timeRangeFilter finalOpts w g).1 in
  nextUntilLaw (AllEvents.nextUntil w) (AllEvents.nextUntil w')
    (iterationEnded AllEvents.fresh (AllEvents.phase w) (AllEvents.phase w')).
Proof.
  unfold AllEvents_workerOk, AllEvents.step.
  destruct (AllEvents.phase w) as [|[|e pending] throws vars|] eqn:Hph;
    simpl; rewrite ?Hph; intros Hok; try apply nextUntilLaw_same.
  - destruct Hok as [Hold Hgot].
    destruct throws; simpl; [apply nextUntilLaw_same|].
    destruct (AllEvents.gotNewEvent vars) eqn:Hg; simpl; [|apply nextUntilLaw_same].
    destruct (signalAborted _ _ _ _); simpl; [apply nextUntilLaw_same|].
    rewrite Hold. apply nextUntilLaw_next. by apply Hgot.
  - repeat case_decide; simpl; apply nextUntilLaw_same.
Qed.

Lemma Latest_step_nextUntil env fil finalOpts w g :
  Latest_workerOk w →
  let w' := (Latest.step env fil finalOpts w g).1 in
  nextUntilLaw (Latest.nextUntil w) (Latest.nextUntil w')
    (iterationEnded Latest.fresh (Latest.phase w) (Latest.phase w')).
Proof.
  unfold Latest_workerOk, Latest.step.
  destruct (Latest.phase w) as [|[|e pending] throws vars|] eqn:Hph;
    simpl; rewrite ?Hph; intros Hok; try apply nextUntilLaw_same.
  - destruct Hok as [[Hold Hgot] Hnum].
    destruct throws; simpl; [apply nextUntilLaw_same|].
    destruct (Latest.numNewEvents vars =? 0)%Z eqn:Hn; simpl; [apply nextUntilLaw_same|].
    destruct (_ <=? 0)%Z; simpl; [apply nextUntilLaw_same|].
    destruct (signalAborted _ _ _ _); simpl; [apply nextUntilLaw_same|].
    rewrite Hold. apply nextUntilLaw_next. by apply Hgot.
  - repeat case_decide; simpl; apply nextUntilLaw_same.
Qed.

Lemma PerAuthor_step_nextUntil env otherFilter finalOpts w g :
  PerAuthor_workerOk w →
  let w' := (PerAuthor.stepFetcher env otherFilter finalOpts w g).1 in
  nextUntilLaw (PerAuthor.nextUntil w) (PerAuthor.nextUntil w')
    (iterationEnded PerAuthor.fresh (PerAuthor.phase w) (PerAuthor.phase w')).
Proof.
  unfold PerAuthor_workerOk, PerAuthor.stepFetcher.
  destruct (PerAuthor.phase w) as [|[|e pending] throws vars|] eqn:Hph;
    simpl; rewrite ?Hph; intros Hok; try apply nextUntilLaw_same.
  - repeat case_match; simpl; apply nextUntilLaw_same.
  - destruct Hok as [Hold Hgot].
    destruct throws; simpl; [apply nextUntilLaw_same|].
    destruct (PerAuthor.gotNewEvent vars) eqn:Hg; simpl; [|apply nextUntilLaw_same].
    destruct (signalAborted _ _ _ _); simpl; [apply nextUntilLaw_same|].
    rewrite Hold. apply nextUntilLaw_next. by apply Hgot.
  - case_decide; simpl; [apply nextUntilLaw_same|].
    destruct (EventBuckets.state _); simpl; apply nextUntilLaw_same.
Qed.

Section Scheduler_steps.
Context {W G : Type} (step : W → G → W * G).

Lemma stepTask_self i st w :
  st.1 !! i = Some w → (stepTask step i st).1 !! i = Some (step w st.2).1.
Proof.
  intros Hi. unfold stepTask. rewrite Hi. simpl.
  apply list_lookup_insert_eq. by eapply lookup_lt_Some.
Qed.

Lemma stepTask_other i j st : i ≠ j → (stepTask step i st).1 !! j = st.1 !! j.
Proof.
  intros Hne. unfold stepTask. destruct (st.1 !! i); simpl; [|done].
  by apply list_lookup_insert_ne.
Qed.
End Scheduler_steps.

Lemma AllEvents_init_workerOk initialUntil eligibleRelayUrls :
  Forall AllEvents_workerOk (AllEvents.init initialUntil eligibleRelayUrls).1.
Proof. apply Forall_fmap, Forall_true. by intros rurl. Qed.

Lemma Latest_init_workerOk initialUntil lim eligibleRelayUrls :
  Forall Latest_workerOk (Latest.init initialUntil lim eligibleRelayUrls).1.
Proof. apply Forall_fmap, Forall_true. by intros rurl. Qed.

Definition PerAuthor_taskOk (t : PerAuthor.Task) : Prop :=
  match t with
  | PerAuthor.Fetcher w => PerAuthor_workerOk w
  | PerAuthor.Merger _ _ => True
  end.

Lemma PerAuthor_init_taskOk initialUntil lim relayToAuthors allAuthors :
  Forall PerAuthor_taskOk (PerAuthor.init initialUntil lim relayToAuthors allAuthors).1.
Proof.
  apply Forall_app. split; apply Forall_fmap, Forall_true; by intros x.
Qed.

Lemma PerAuthor_step_taskOk env otherFilter lim finalOpts t g :
  PerAuthor_taskOk t → PerAuthor_taskOk (PerAuthor.step env otherFilter lim finalOpts t g).1.
Proof.
  destruct t as [w|pk [|]]; simpl; [|done|].
  - apply PerAuthor_step_workerOk.
  - intros _. unfold PerAuthor.stepMerger. by case_match.
Qed.

(** The clock shows a safe integer, and the relays answer with events whose
    [created_at] is a safe integer. *)
Definition safeTimestamps (env : Env) : Prop :=
  isSafeInteger (currUnixtimeSec env)
  ∧ ∀ url fil opts n e,
      e ∈ sub_events (fetchTillEose env url fil opts n) → isSafeInteger (created_at e).

(** The caller's [until], if there is one, is a safe integer. *)
Definition safeUntil (timeRangeFilter : FetchTimeRangeFilter) : Prop :=
  ∀ u, tr_until timeRangeFilter = Some u → isSafeInteger u.

(** The events of the running iteration: those still to come and the
    locally-new ones seen so far. *)
Definition pageEvents {V} (fresh : V → list NostrEvent) (p : Phase V) : list NostrEvent :=
  match p with
  | InForAwait pending _ vars => pending ++ fresh vars
  | _ => []
  end.

Section answered_events.
Context (env : Env) (P : NostrEvent → Prop).
Hypothesis answers : ∀ url fil opts n e,
  e ∈ sub_events (fetchTillEose env url fil opts n) → P e.

Lemma pageEvents_next {V} (fresh : V → list NostrEvent) e pending throws vars vars' :
  Forall P (pageEvents fresh (InForAwait (e :: pending) throws vars)) →
  fresh vars' = fresh vars ∨ fresh vars' = e :: fresh vars →
  Forall P (pageEvents fresh (InForAwait pending throws vars')).
Proof.
  simpl. intros [He [Hp Hf]%Forall_app]%Forall_cons Hfresh. apply Forall_app.
  destruct Hfresh as [->| ->]; split; try done. by apply Forall_cons.
Qed.

Lemma AllEvents_step_page fil timeRangeFilter finalOpts w g :
  Forall P (pageEvents AllEvents.fresh (AllEvents.phase w)) →
  Forall P (pageEvents AllEvents.fresh
              (AllEvents.phase (AllEvents.step env fil timeRangeFilter finalOpts w g).1)).
Proof using answers.
  unfold AllEvents.step.
  destruct (AllEvents.phase w) as [|[|e pending] throws vars|] eqn:Hph; intros Hw.
  - simpl. rewrite app_nil_r. apply Forall_forall. intros e He. by eapply answers.
  - destruct throws; [|destruct (negb _); [|destruct (signalAborted _ _ _ _)]];
      simpl; constructor.
  - case_decide; [|case_decide]; cbn [fst AllEvents.phase];
      (eapply pageEvents_next; [exact Hw|]); simpl; auto.
  - simpl. rewrite Hph. constructor.
Qed.

Lemma Latest_step_page fil finalOpts w g :
  Forall P (pageEvents Latest.fresh (Latest.phase w)) →
  Forall P (pageEvents Latest.fresh (Latest.phase (Latest.step env fil finalOpts w g).1)).
Proof using answers.
  unfold Latest.step.
  destruct (Latest.phase w) as [|[|e pending] throws vars|] eqn:Hph; intros Hw.
  - simpl. rewrite app_nil_r. apply Forall_forall. intros e He. by eapply answers.
  - destruct throws; [|destruct (_ || _); [|destruct (signalAborted _ _ _ _)]];
      simpl; constructor.
  - case_decide; [|case_decide]; cbn [fst Latest.phase];
      (eapply pageEvents_next; [exact Hw|]); simpl; auto.
  - simpl. rewrite Hph. constructor.
Qed.

Definition PerAuthor_taskPage (t : PerAuthor.Task) : Prop :=
  match t with
  | PerAuthor.Fetcher w => Forall P (pageEvents PerAuthor.fresh (PerAuthor.phase w))
  | PerAuthor.Merger _ _ => True
  end.

Lemma PerAuthor_step_page otherFilter lim finalOpts t g :
  PerAuthor_taskPage t →
  PerAuthor_taskPage (PerAuthor.step env otherFilter lim finalOpts t g).1.
Proof using answers.
  destruct t as [w|pk [|]]; [|done|].
  - cbn [PerAuthor.step fst PerAuthor_taskPage]. unfold PerAuthor.stepFetcher.
    destruct (PerAuthor.phase w) as [|[|e pending] throws vars|] eqn:Hph; intros Hw.
    + destruct (EventBuckets.calcKeysAndLimitForNextReq (PerAuthor.evBucketsPerAuthor w))
        as [[|a nextAuthors] nextLimit]; simpl; [constructor|].
      rewrite app_nil_r. apply Forall_forall. intros e He. by eapply answers.
    + destruct throws; [|destruct (negb _); [|destruct (signalAborted _ _ _ _)]];
        simpl; constructor.
    + case_decide; [|destruct (EventBuckets.state _)]; cbn [fst PerAuthor.phase];
        (eapply pageEvents_next; [exact Hw|]); simpl; auto.
    + simpl. rewrite Hph. constructor.
  - intros _. cbn [PerAuthor.step]. unfold PerAuthor.stepMerger. by destruct (mapM _ _).
Qed.
End answered_events.

Lemma iterationEnded_page {V} (P : NostrEvent → Prop) (fresh : V → list NostrEvent) p p' :
  Forall P (pageEvents fresh p) → Forall P (iterationEnded fresh p p').
Proof.
  destruct p as [|[|e pending] throws vars|]; simpl; try constructor.
  intros Hf. destruct p'; [done|constructor..].
Qed.

(** C2, as amended.  Let the timestamps be safe integers: the clock, the
    caller's [until], and the [created_at] of every event that a relay
    answers with.  In the pagination loop of every relay worker (of
    [allEventsIterator], [fetchLatestEvents] and
    [fetchLatestEventsPerAuthor]), [nextUntil] changes only in the step that
    ends an iteration with at least one locally-new event and goes on to the
    next iteration, and it becomes the smaller of [MAX_SAFE_INTEGER] and the
    oldest [created_at] among the locally-new events of that iteration, plus
    one; these events have safe integers as [created_at], on which the
    addition is exact.  So [nextUntil] does not increase if one of these
    events has [created_at < nextUntil], and it decreases strictly if one of
    them has [created_at < nextUntil - 1]. *)
Theorem nextUntil_moves (env : Env) (sched : list nat) (i : nat) :
  safeTimestamps env →
  (∀ relayUrls fil timeRangeFilter options es it w,
     safeUntil timeRangeFilter →
     allEventsIterator env relayUrls fil timeRangeFilter options = (es, Ok it) →
     (AllEvents.state (AllEvents.advance env sched it)).1 !! i = Some w →
     ∃ w', (AllEvents.state (AllEvents.advance env (sched ++ [i]) it)).1 !! i = Some w'
           ∧ let fr := iterationEnded AllEvents.fresh (AllEvents.phase w)
                         (AllEvents.phase w') in
             nextUntilLaw (AllEvents.nextUntil w) (AllEvents.nextUntil w') fr
             ∧ Forall (λ e, isSafeInteger (created_at e)) fr)
  ∧ (∀ relayUrls fil lim options w,
       (fetchLatestState env sched relayUrls fil lim options).1 !! i = Some w →
       ∃ w', (fetchLatestState env (sched ++ [i]) relayUrls fil lim options).1 !! i
             = Some w'
             ∧ let fr := iterationEnded Latest.fresh (Latest.phase w) (Latest.phase w') in
               nextUntilLaw (Latest.nextUntil w) (Latest.nextUntil w') fr
               ∧ Forall (λ e, isSafeInteger (created_at e)) fr)
  ∧ (∀ authorsAndRelays otherFilter lim options es it w,
       fetchLatestEventsPerAuthor env authorsAndRelays otherFilter lim options
       = (es, Ok it) →
       (PerAuthor.state (PerAuthor.advance env sched it)).1 !! i
       = Some (PerAuthor.Fetcher w) →
       ∃ w', (PerAuthor.state (PerAuthor.advance env (sched ++ [i]) it)).1 !! i
             = Some (PerAuthor.Fetcher w')
             ∧ let fr := iterationEnded PerAuthor.fresh (PerAuthor.phase w)
                           (PerAuthor.phase w') in
               nextUntilLaw (PerAuthor.nextUntil w) (PerAuthor.nextUntil w') fr
               ∧ Forall (λ e, isSafeInteger (created_at e)) fr).
Proof.
  intros [_ Hsafe]. split_and!.
  - intros relayUrls fil timeRangeFilter options es it w _.
    rewrite allEventsIterator_eq. case_match; [done|]. intros [= _ <-].
    unfold AllEvents.advance. simpl. intros Hw.
    rewrite run_snoc. eexists. split; [by apply stepTask_self|]. split.
    + apply AllEvents_step_nextUntil.
      eapply Forall_lookup_1; [|exact Hw].
      apply run_tasks; [intros; by apply AllEvents_step_workerOk|].
      apply AllEvents_init_workerOk.
    + apply iterationEnded_page.
      eapply (Forall_lookup_1 (λ w, Forall _ (pageEvents AllEvents.fresh (AllEvents.phase w))));
        [|exact Hw].
      apply run_tasks; [intros w0 g; by apply AllEvents_step_page|].
      apply Forall_fmap, Forall_true. intros rurl. constructor.
  - intros relayUrls fil lim options w. unfold fetchLatestState. intros Hw.
    rewrite run_snoc. eexists. split; [by apply stepTask_self|]. split.
    + apply Latest_step_nextUntil.
      eapply Forall_lookup_1; [|exact Hw].
      apply run_tasks; [intros; by apply Latest_step_workerOk|].
      apply Latest_init_workerOk.
    + apply iterationEnded_page.
      eapply (Forall_lookup_1 (λ w, Forall _ (pageEvents Latest.fresh (Latest.phase w))));
        [|exact Hw].
      apply run_tasks; [intros w0 g; by apply Latest_step_page|].
      apply Forall_fmap, Forall_true. intros rurl. constructor.
  - intros authorsAndRelays otherFilter lim options es it w.
    rewrite fetchLatestEventsPerAuthor_eq. case_match; [|done]. cbv zeta.
    destruct (mapAvailableRelayToAuthors _ _ _ _) as [es' [ra|e]]; [|done].
    intros [= _ <-]. unfold PerAuthor.advance. simpl. intros Hw.
    rewrite run_snoc, (stepTask_self _ _ _ _ Hw). simpl.
    eexists. split; [reflexivity|]. split.
    + apply PerAuthor_step_nextUntil.
      change (PerAuthor_taskOk (PerAuthor.Fetcher w)).
      eapply Forall_lookup_1; [|exact Hw].
      apply run_tasks; [intros; by apply PerAuthor_step_taskOk|].
      apply PerAuthor_init_taskOk.
    + apply iterationEnded_page.
      change (PerAuthor_taskPage (λ e, isSafeInteger (created_at e)) (PerAuthor.Fetcher w)).
      eapply Forall_lookup_1; [|exact Hw].
      apply run_tasks; [intros t g; by apply PerAuthor_step_page|].
      apply Forall_app. split; apply Forall_fmap, Forall_true; intros x; [constructor|done].
Qed.

(** A relay that holds one event, created at second 100. *)
Definition boundaryEnv : Env := storeEnv (λ _, [mkEvent "e" "alice" 100]) 1000.

Definition until100 : FetchTimeRangeFilter := {| tr_since := None; tr_until := Some 100%Z |}.

(** A store relay answers with events of its store. *)
Lemma storeRelay_events store fil e : e ∈ sub_events (storeRelay store fil) → e ∈ store.
Proof.
  unfold storeRelay. simpl. intros He.
  assert (e ∈ List.filter (matchesFilter fil) store) as Hin.
  { destruct (limit fil); [by eapply subseteq_take|done]. }
  apply list_elem_of_In, filter_In in Hin as [Hin _]. by apply list_elem_of_In.
Qed.

Lemma boundaryEnv_safeTimestamps : safeTimestamps boundaryEnv.
Proof.
  split; [unfold isSafeInteger, MAX_SAFE_INTEGER; simpl; lia|].
  intros url fil opts n e He. apply storeRelay_events in He.
  apply list_elem_of_singleton in He as ->. unfold isSafeInteger, MAX_SAFE_INTEGER. simpl. lia.
Qed.

Lemma until100_safeUntil : safeUntil until100.
Proof. intros u [= <-]. unfold isSafeInteger, MAX_SAFE_INTEGER. lia. Qed.

Lemma nextUntil_moves_witness :
  ∃ es it w w',
    allEventsIterator boundaryEnv ["wss://r"] emptyFetchFilter until100
      noAllEventsIterOptions = (es, Ok it)
    ∧ (AllEvents.state (AllEvents.advance boundaryEnv [0; 0] it)).1 !! 0 = Some w
    ∧ (AllEvents.state (AllEvents.advance boundaryEnv ([0; 0] ++ [0]) it)).1 !! 0 = Some w'
    ∧ nextUntilLaw (AllEvents.nextUntil w) (AllEvents.nextUntil w')
        (iterationEnded AllEvents.fresh (AllEvents.phase w) (AllEvents.phase w')).
Proof.
  edestruct (proj1 (nextUntil_moves boundaryEnv [0; 0] 0 boundaryEnv_safeTimestamps)
               ["wss://r"] emptyFetchFilter until100 noAllEventsIterOptions)
    as (w' & Hw' & Hlaw & _); [exact until100_safeUntil|vm_compute; reflexivity..|].
  eexists _, _, _, w'. split_and!; [| |exact Hw'|exact Hlaw]; vm_compute; reflexivity.
Defined.

(** C2 as the specification words it, for [allEventsIterator]: [nextUntil]
    never increases, and it decreases strictly over an iteration that received
    a locally-new event. *)
Definition nextUntilDecreases (env : Env) (relayUrls : list string) (fil : FetchFilter)
  (timeRangeFilter : FetchTimeRangeFilter) (options : AllEventsIterOptions) : Prop :=
  ∀ es it sched i w w',
    allEventsIterator env relayUrls fil timeRangeFilter options = (es, Ok it) →
    (AllEvents.state (AllEvents.advance env sched it)).1 !! i = Some w →
    (AllEvents.state (AllEvents.advance env (sched ++ [i]) it)).1 !! i = Some w' →
    (AllEvents.nextUntil w' <= AllEvents.nextUntil w)%Z
    ∧ (iterationEnded AllEvents.fresh (AllEvents.phase w) (AllEvents.phase w') ≠ [] →
       (AllEvents.nextUntil w' < AllEvents.nextUntil w)%Z).

(** The relay answers the first REQ, [until: 100], with its event created at
    100; the iteration ends with [nextUntil = 101]. *)
Lemma nextUntil_rises :
  ¬ nextUntilDecreases boundaryEnv ["wss://r"] emptyFetchFilter until100
      noAllEventsIterOptions.
Proof.
  intros Hclaim. unfold nextUntilDecreases in Hclaim.
  edestruct Hclaim with (sched := [0; 0]) (i := 0) as [Hle _];
    [vm_compute; reflexivity..|].
  vm_compute in Hle. by apply Hle.
Qed.

(* ===================================================================== *)
(** * Latches of the per-author fetch *)
(* ===================================================================== *)

Lemma matrix_lookup {V} (m : KeyRelayMatrix.t V) k : m !! k = KeyRelayMatrix.cells m !! k.
Proof. done. Qed.

Lemma resolve_lookup latches pk rurl evs k :
  PerAuthor.resolve latches pk rurl evs !! k
  = match latches !! k with
    | Some None => if decide (k = (pk, rurl)) then Some (Some evs) else Some None
    | o => o
    end.
Proof.
  unfold PerAuthor.resolve, KeyRelayMatrix.get.
  destruct (decide (k = (pk, rurl))) as [->|Hne].
  - destruct (KeyRelayMatrix.cells latches !! (pk, rurl)) as [[v|]|] eqn:Hl;
      rewrite ?matrix_lookup; cbn [KeyRelayMatrix.withItem KeyRelayMatrix.cells];
      rewrite ?Hl; try done.
    by rewrite lookup_insert_eq.
  - destruct (KeyRelayMatrix.cells latches !! (pk, rurl)) as [[v|]|] eqn:Hl;
      rewrite ?matrix_lookup; cbn [KeyRelayMatrix.withItem KeyRelayMatrix.cells];
      rewrite ?lookup_insert_ne by done; by repeat case_match.
Qed.

Lemma resolve_relays latches pk rurl evs :
  KeyRelayMatrix.relays (PerAuthor.resolve latches pk rurl evs)
  = KeyRelayMatrix.relays latches.
Proof. unfold PerAuthor.resolve. by repeat case_match. Qed.

(** Resolving keeps the keys of the matrix, and never makes a latch pending. *)
Definition latchesGrow (l l' : KeyRelayMatrix.t (option (list NostrEvent))) : Prop :=
  ∀ k, (l' !! k = None ↔ l !! k = None) ∧ (l' !! k = Some None → l !! k = Some None).

Lemma latchesGrow_refl l : latchesGrow l l.
Proof. by intros k. Qed.

Lemma latchesGrow_trans l1 l2 l3 : latchesGrow l1 l2 → latchesGrow l2 l3 → latchesGrow l1 l3.
Proof.
  intros H12 H23 k. destruct (H12 k) as [Hn Hp], (H23 k) as [Hn' Hp']. split.
  - by rewrite Hn'.
  - intros ?. by apply Hp, Hp'.
Qed.

Lemma resolve_grow latches pk rurl evs :
  latchesGrow latches (PerAuthor.resolve latches pk rurl evs).
Proof.
  intros k. rewrite resolve_lookup.
  destruct (latches !! k) as [[v|]|]; try case_decide; by split.
Qed.


Lemma resolveAll_fold_grow (f : string → list NostrEvent) rurl pks latches :
  latchesGrow latches
    (foldl (λ latches pk, PerAuthor.resolve latches pk rurl (f pk)) latches pks).
Proof.
  revert latches. induction pks as [|pk pks IH]; intros latches; simpl.
  - apply latchesGrow_refl.
  - eapply latchesGrow_trans; [apply resolve_grow|apply IH].
Qed.


Lemma resolveAllOnEarlyBreak_grow w latches :
  latchesGrow latches (PerAuthor.resolveAllOnEarlyBreak w latches).
Proof. apply resolveAll_fold_grow. Qed.


Lemma PerAuthor_step_latchesGrow env otherFilter lim finalOpts t g :
  latchesGrow (PerAuthor.latches g)
    (PerAuthor.latches (PerAuthor.step env otherFilter lim finalOpts t g).2).
Proof.
  destruct t as [w|pk [|]]; simpl; [|apply latchesGrow_refl|].
  - unfold PerAuthor.stepFetcher.
    destruct (PerAuthor.phase w) as [|[|e pending] throws vars|]; simpl;
      try apply latchesGrow_refl.
    + repeat case_match; simpl; apply latchesGrow_refl.
    + repeat case_match; simpl;
        try apply latchesGrow_refl; apply resolveAllOnEarlyBreak_grow.
    + case_decide; [apply latchesGrow_refl|].
      destruct (EventBuckets.state _); simpl;
        try apply latchesGrow_refl; apply resolve_grow.
  - unfold PerAuthor.stepMerger. case_match; apply latchesGrow_refl.
Qed.

(** The items of a key: none at all, when the key has no latch. *)
Lemma itemsByKey_None {V} (m : KeyRelayMatrix.t V) key :
  (∀ rurl, m !! (key, rurl) = None) → KeyRelayMatrix.itemsByKey m key = None.
Proof.
  intros Hnone. unfold KeyRelayMatrix.itemsByKey.
  destruct (omap _ (KeyRelayMatrix.relays m)) as [|v items] eqn:Hf; [done|].
  assert (v ∈ omap (λ rurl, KeyRelayMatrix.cells m !! (key, rurl)) (KeyRelayMatrix.relays m))
    as Hin by (rewrite Hf; apply list_elem_of_here).
  apply list_elem_of_omap in Hin as (rurl & _ & Hin).
  specialize (Hnone rurl). unfold lookup, KeyRelayMatrix_lookup in Hnone. congruence.
Qed.

(** The items of a key are values of the matrix at that key. *)
Lemma itemsByKey_elem {V} (m : KeyRelayMatrix.t V) key v :
  v ∈ default [] (KeyRelayMatrix.itemsByKey m key) → ∃ rurl, m !! (key, rurl) = Some v.
Proof.
  unfold KeyRelayMatrix.itemsByKey.
  destruct (omap _ (KeyRelayMatrix.relays m)) as [|v' items] eqn:Hf; simpl.
  - by intros ?%elem_of_nil.
  - rewrite <-Hf. intros (rurl & _ & Hin)%list_elem_of_omap. by exists rurl.
Qed.

(** The arrays that the merger of [pk] awaits: the values of the latches of
    [pk], in the order of the relays, once all of them are resolved
    ([Promise.all] over [latches.itemsByKey(pubkey)]). *)
Definition latchValues (latches : KeyRelayMatrix.t (option (list NostrEvent)))
  (pk : string) : option (list (list NostrEvent)) :=
  mapM (λ d : option (list NostrEvent), d)
       (default [] (KeyRelayMatrix.itemsByKey latches pk)).

(** Resolving keeps the order of the relays and the value of a latch that
    is resolved. *)
Definition latchesKeep (l l' : KeyRelayMatrix.t (option (list NostrEvent))) : Prop :=
  KeyRelayMatrix.relays l' = KeyRelayMatrix.relays l
  ∧ ∀ k, match l !! k with
         | Some None => True
         | o => l' !! k = o
         end.

Lemma latchesKeep_refl l : latchesKeep l l.
Proof. split; [done|]. intros k. by destruct (l !! k) as [[v|]|]. Qed.

Lemma latchesKeep_trans l1 l2 l3 : latchesKeep l1 l2 → latchesKeep l2 l3 → latchesKeep l1 l3.
Proof.
  intros [Hr12 H12] [Hr23 H23]. split; [congruence|]. intros k.
  specialize (H12 k). specialize (H23 k).
  destruct (l1 !! k) as [[v|]|]; [|done|]; by rewrite H12 in H23.
Qed.

Lemma resolve_keep latches pk rurl evs :
  latchesKeep latches (PerAuthor.resolve latches pk rurl evs).
Proof.
  split; [apply resolve_relays|]. intros k. rewrite resolve_lookup.
  by destruct (latches !! k) as [[v|]|].
Qed.

Lemma resolveAllOnEarlyBreak_keep w latches :
  latchesKeep latches (PerAuthor.resolveAllOnEarlyBreak w latches).
Proof.
  unfold PerAuthor.resolveAllOnEarlyBreak. revert latches.
  induction (PerAuthor.authors w) as [|pk pks IH]; intros latches; simpl.
  - apply latchesKeep_refl.
  - eapply latchesKeep_trans; [apply resolve_keep|apply IH].
Qed.

Lemma PerAuthor_step_latchesKeep env otherFilter lim finalOpts t g :
  latchesKeep (PerAuthor.latches g)
    (PerAuthor.latches (PerAuthor.step env otherFilter lim finalOpts t g).2).
Proof.
  destruct t as [w|pk [|]]; simpl; [|apply latchesKeep_refl|].
  - unfold PerAuthor.stepFetcher.
    destruct (PerAuthor.phase w) as [|[|e pending] throws vars|]; simpl;
      try apply latchesKeep_refl.
    + repeat case_match; simpl; apply latchesKeep_refl.
    + repeat case_match; simpl;
        try apply latchesKeep_refl; apply resolveAllOnEarlyBreak_keep.
    + case_decide; [apply latchesKeep_refl|].
      destruct (EventBuckets.state _); simpl;
        try apply latchesKeep_refl; apply resolve_keep.
  - unfold PerAuthor.stepMerger. case_match; apply latchesKeep_refl.
Qed.

(** What a merger has read from its latches, it would read again later. *)
Lemma latchValues_keep l l' pk evsPerRelay :
  latchesKeep l l' → latchValues l pk = Some evsPerRelay →
  latchValues l' pk = Some evsPerRelay.
Proof.
  intros [Hrel Hkeep]. unfold latchValues, KeyRelayMatrix.itemsByKey. rewrite Hrel.
  assert (∀ rs evs,
            mapM (λ d : option (list NostrEvent), d)
                 (omap (λ rurl, KeyRelayMatrix.cells l !! (pk, rurl)) rs) = Some evs →
            omap (λ rurl, KeyRelayMatrix.cells l' !! (pk, rurl)) rs
            = omap (λ rurl, KeyRelayMatrix.cells l !! (pk, rurl)) rs) as Hsame.
  { induction rs as [|r rs IH]; intros evs; [done|]. simpl.
    specialize (Hkeep (pk, r)). rewrite !matrix_lookup in Hkeep.
    destruct (KeyRelayMatrix.cells l !! (pk, r)) as [[v|]|] eqn:Hl; rewrite ?Hkeep.
    - simpl. destruct (mapM _ _) as [evs'|] eqn:Hm; [|done]. intros _.
      f_equal. by eapply IH.
    - done.
    - apply IH. }
  intros Hm.
  assert (mapM (λ d : option (list NostrEvent), d)
            (omap (λ rurl, KeyRelayMatrix.cells l !! (pk, rurl)) (KeyRelayMatrix.relays l))
          = Some evsPerRelay) as Hm'.
  { by destruct (omap _ (KeyRelayMatrix.relays l)). }
  rewrite (Hsame _ _ Hm'). exact Hm.
Qed.

(* ===================================================================== *)
(** * The latest-N selection *)
(* ===================================================================== *)

Lemma subRequestsSkip_prologue b env relayUrls opts requiredNips msg :
  subRequestsSkip b
    (warnIfEmpty relayUrls msg
       ++ (ensureRelaysWithCapCheck env relayUrls opts requiredNips).1).
Proof.
  apply Forall_app. split.
  - destruct relayUrls; simpl; by repeat constructor.
  - unfold ensureRelaysWithCapCheck. destruct requiredNips as [|nip nips]; simpl.
    + by repeat constructor.
    + constructor; [done|]. rewrite app_nil_r. apply Forall_fmap, Forall_true. by intros x.
Qed.

Lemma PerAuthor_step_subRequestsSkip env otherFilter lim
    (finalOpts : Required_FetchLatestOptions) t g :
  subRequestsSkip (skipVerification finalOpts || reduceVerification finalOpts)
    (PerAuthor.effects g) →
  subRequestsSkip (skipVerification finalOpts || reduceVerification finalOpts)
    (PerAuthor.effects (PerAuthor.step env otherFilter lim finalOpts t g).2).
Proof.
  intros Hg. destruct t as [w|pk [|]]; simpl; [|done|].
  - unfold PerAuthor.stepFetcher.
    destruct (PerAuthor.phase w) as [|[|e pending] throws vars|]; simpl; try done.
    + repeat case_match; simpl; try done.
      apply Forall_app. split; [done|]. by repeat constructor.
    + repeat case_match; done.
    + case_decide; [done|]. by destruct (EventBuckets.state _).
  - unfold PerAuthor.stepMerger. by case_match.
Qed.

(** A record comes onto the channel only by the step of a merger that finds
    its latches resolved. *)
Lemma PerAuthor_step_tx env otherFilter lim finalOpts t g r :
  r ∈ PerAuthor.tx (PerAuthor.step env otherFilter lim finalOpts t g).2 →
  r ∈ PerAuthor.tx g
  ∨ ∃ pk evsPerRelay,
      t = PerAuthor.Merger pk false
      ∧ latchValues (PerAuthor.latches g) pk = Some evsPerRelay
      ∧ r = PerAuthor.recordOf env lim finalOpts pk evsPerRelay.
Proof.
  destruct t as [w|pk [|]]; simpl; [|by left|].
  - unfold PerAuthor.stepFetcher.
    destruct (PerAuthor.phase w) as [|[|e pending] throws vars|]; simpl; try by left.
    + repeat case_match; by left.
    + repeat case_match; by left.
    + case_decide; [by left|]. destruct (EventBuckets.state _); by left.
  - unfold PerAuthor.stepMerger. case_match eqn:Hm; simpl; [|by left].
    intros [Hr| ->%list_elem_of_singleton]%elem_of_app; [by left|].
    right. by eexists _, _.
Qed.

(** Every record on the channel is what the merger of its author makes of
    the arrays that the latches of the author hold. *)
Definition recordsMerged (env : Env) (lim : Z) (finalOpts : Required_FetchLatestOptions)
  (g : PerAuthor.Shared) : Prop :=
  ∀ r, r ∈ PerAuthor.tx g →
       ∃ evsPerRelay,
         latchValues (PerAuthor.latches g) (PerAuthor.author r) = Some evsPerRelay
         ∧ r = PerAuthor.recordOf env lim finalOpts (PerAuthor.author r) evsPerRelay.

Lemma PerAuthor_step_recordsMerged env otherFilter lim finalOpts t g :
  recordsMerged env lim finalOpts g →
  recordsMerged env lim finalOpts (PerAuthor.step env otherFilter lim finalOpts t g).2.
Proof.
  intros Hg r Hr.
  pose proof (PerAuthor_step_latchesKeep env otherFilter lim finalOpts t g) as Hkeep.
  apply PerAuthor_step_tx in Hr as [Hr|(pk & evsPerRelay & -> & Hm & ->)].
  - destruct (Hg r Hr) as (evsPerRelay & Hv & Hrec). exists evsPerRelay.
    split; [by eapply latchValues_keep|done].
  - exists evsPerRelay. split; [by eapply latchValues_keep|done].
Qed.

(** The latest-N selection, for a [limit] that is a safe integer.
    [fetchLatestEvents] collects the events of the channel, which hold no id
    twice, and sorts them.  With [reduceVerification] and without
    [skipVerification], every sub-request is made with
    [skipVerification = true], and the result is the first [limit] events of
    the sorted collection whose signature verifies.  With [skipVerification]
    or without [reduceVerification], the result is the first [limit] events
    of the sorted collection.  The merger of [fetchLatestEventsPerAuthor]
    selects the events of a record in the same way from the merged events of
    the author: the events that the latches of the author hold when the run
    stops, concatenated in the order of the relays and with later copies of
    an id dropped. *)
Theorem latest_selection (env : Env) (sched : list nat) :
  (∀ relayUrls fil lim options es res,
     isSafeInteger lim →
     fetchLatestEvents env sched relayUrls fil lim options = (es, Ok (Some res)) →
     let finalOpts := spreadFetchLatestOptions defaultFetchLatestOptions options in
     let collected := tx (fetchLatestState env sched relayUrls fil lim options).2 in
     NoDup (id <$> collected)
     ∧ (reduceVerification finalOpts = true → skipVerification finalOpts = false →
        subRequestsSkip true es
        ∧ res = take (Z.to_nat lim)
                  (List.filter (verifyEventSig env) (sortBy createdAtDesc collected)))
     ∧ (skipVerification finalOpts = true ∨ reduceVerification finalOpts = false →
        res = take (Z.to_nat lim) (sortBy createdAtDesc collected)))
  ∧ (∀ authorsAndRelays otherFilter lim options es it r,
       isSafeInteger lim →
       fetchLatestEventsPerAuthor env authorsAndRelays otherFilter lim options
       = (es, Ok it) →
       r ∈ PerAuthor.delivered (PerAuthor.advance env sched it) →
       let finalOpts := spreadFetchLatestOptions defaultFetchLatestOptions options in
       ∃ evsPerRelay,
         latchValues (PerAuthor.latches (PerAuthor.state (PerAuthor.advance env sched it)).2)
           (PerAuthor.author r) = Some evsPerRelay
         ∧ let merged := PerAuthor.evsDeduped evsPerRelay in
         NoDup (id <$> merged)
         ∧ (reduceVerification finalOpts = true → skipVerification finalOpts = false →
            subRequestsSkip true
              (PerAuthor.effects (PerAuthor.state (PerAuthor.advance env sched it)).2)
            ∧ PerAuthor.events r
              = take (Z.to_nat lim)
                  (List.filter (verifyEventSig env) (sortBy createdAtDesc merged)))
         ∧ (skipVerification finalOpts = true ∨ reduceVerification finalOpts = false →
            PerAuthor.events r = take (Z.to_nat lim) (sortBy createdAtDesc merged))).
Proof.
  split.
  - intros relayUrls fil lim options es res _.
    rewrite fetchLatestEvents_eq. case_match eqn:Hlim; [|done].
    apply Z.ltb_lt in Hlim. cbv zeta.
    set (finalOpts := spreadFetchLatestOptions defaultFetchLatestOptions options).
    set (st := fetchLatestState env sched relayUrls fil lim options).
    case_match; [|done]. intros [<- [= <-]]%Ok_pair_inv.
    assert (fanInOk st.2) as [Hnd _].
    { apply (run_shared _ fanInOk); [intros; by apply Latest_step_fanInOk|].
      apply fanInOk_init. }
    assert (subRequestsSkip (skipVerification finalOpts || reduceVerification finalOpts)
              (effects st.2)) as Hskip.
    { apply (run_shared _ (λ g, subRequestsSkip _ (effects g)));
        [intros; by apply Latest_step_subRequestsSkip|]. constructor. }
    split; [done|]. rewrite latestOf_spec by done. rewrite app_assoc. split.
    + intros Hred Hsk. rewrite Hred, Hsk in Hskip. split.
      * apply Forall_app. split; [apply subRequestsSkip_prologue|exact Hskip].
      * by rewrite Hred, Hsk.
    + intros [Hsk|Hred]; [rewrite Hsk|rewrite Hred]; simpl; [done|].
      by rewrite orb_true_r.
  - intros authorsAndRelays otherFilter lim options es it r _.
    rewrite fetchLatestEventsPerAuthor_eq. case_match eqn:Hlim; [|done].
    apply Z.ltb_lt in Hlim. cbv zeta.
    set (finalOpts := spreadFetchLatestOptions defaultFetchLatestOptions options).
    destruct (mapAvailableRelayToAuthors _ _ _ _) as [es' [ra|e]]; [|done].
    intros [_ <-]%Ok_pair_inv. unfold PerAuthor.delivered, PerAuthor.advance.
    cbn [PerAuthor.state PerAuthor.it_otherFilter PerAuthor.it_limit
         PerAuthor.it_finalOpts]. fold finalOpts.
    intros Hr.
    eapply (run_shared _ (recordsMerged env lim finalOpts)) in Hr
      as (evsPerRelay & Hvalues & Hrec).
    + exists evsPerRelay. split; [exact Hvalues|]. split; [apply evsDeduped_NoDup|].
      assert (PerAuthor.events r
              = latestOf env finalOpts lim
                  (sortBy createdAtDesc (PerAuthor.evsDeduped evsPerRelay))) as ->
        by (by rewrite Hrec).
      rewrite latestOf_spec by done. split.
      * intros Hred Hsk. split; [|by rewrite Hred, Hsk].
        apply (run_shared _ (λ g, subRequestsSkip true (PerAuthor.effects g))).
        -- intros t g Hg.
           pose proof (PerAuthor_step_subRequestsSkip env otherFilter lim finalOpts t g)
             as Hstep.
           rewrite Hred, Hsk in Hstep. by apply Hstep.
        -- constructor.
      * intros [Hsk|Hred]; [rewrite Hsk|rewrite Hred]; simpl; [done|].
        by rewrite orb_true_r.
    + intros; by apply PerAuthor_step_recordsMerged.
    + by intros r' ?%elem_of_nil.
Qed.

(** A relay whose latest event carries an invalid signature. *)
Definition invalidSigEvent (i pk : string) (t : Z) : NostrEvent :=
  {| id := i; pubkey := pk; created_at := t; kind := 1; tags := [];
     content := EmptyString; sig := "invalid" |}.

Definition invalidSigEnv : Env :=
  storeEnv (λ _, [invalidSigEvent "x" "alice" 200; mkEvent "c" "alice" 100;
                  mkEvent "b" "alice" 90]) 1000.

(** One relay for one author. *)
Definition aliceOnFirstRelay : AuthorsAndRelays :=
  RelaySetForAllAuthors ["alice"] ["wss://r1"].

Lemma latest_selection_witness :
  (∃ es res,
    fetchLatestEvents invalidSigEnv [0; 0; 0; 0; 0; 0; 0; 0; 0] ["wss://r1"]
      emptyFetchFilter 2 noFetchLatestOptions = (es, Ok (Some res))
    ∧ subRequestsSkip true es
    ∧ res = take (Z.to_nat 2)
              (List.filter (verifyEventSig invalidSigEnv)
                 (sortBy createdAtDesc
                    (tx (fetchLatestState invalidSigEnv [0; 0; 0; 0; 0; 0; 0; 0; 0]
                           ["wss://r1"] emptyFetchFilter 2 noFetchLatestOptions).2)))
    ∧ res = [mkEvent "c" "alice" 100])
  ∧ (∃ es it,
      fetchLatestEventsPerAuthor invalidSigEnv aliceOnFirstRelay emptyFetchFilter 2
        noFetchLatestOptions = (es, Ok it)
      ∧ let sched := [0; 0; 0; 0; 0; 0; 1; 1] in
        let r := {| PerAuthor.author := "alice";
                    PerAuthor.events := [mkEvent "c" "alice" 100] |} in
        let latches :=
          PerAuthor.latches (PerAuthor.state (PerAuthor.advance invalidSigEnv sched it)).2 in
        PerAuthor.delivered (PerAuthor.advance invalidSigEnv sched it) = [r]
        ∧ latchValues latches "alice"
          = Some [[invalidSigEvent "x" "alice" 200; mkEvent "c" "alice" 100]]
        ∧ ∃ evsPerRelay,
            latchValues latches (PerAuthor.author r) = Some evsPerRelay
            ∧ PerAuthor.events r
              = take (Z.to_nat 2)
                  (List.filter (verifyEventSig invalidSigEnv)
                     (sortBy createdAtDesc (PerAuthor.evsDeduped evsPerRelay)))).
Proof.
  split.
  - eexists _, _. split; [vm_compute; reflexivity|].
    edestruct (proj1 (latest_selection invalidSigEnv [0; 0; 0; 0; 0; 0; 0; 0; 0])
                 ["wss://r1"] emptyFetchFilter 2%Z noFetchLatestOptions)
      as (_ & Hreduced & _);
      [unfold isSafeInteger, MAX_SAFE_INTEGER; lia|vm_compute; reflexivity|].
    destruct Hreduced as [Hskip Hres]; [reflexivity..|].
    split_and!; [exact Hskip|exact Hres|reflexivity].
  - eexists _, _. split; [vm_compute; reflexivity|]. cbv zeta.
    split; [vm_compute; reflexivity|]. split; [vm_compute; reflexivity|].
    edestruct (proj2 (latest_selection invalidSigEnv [0; 0; 0; 0; 0; 0; 1; 1])
                 aliceOnFirstRelay emptyFetchFilter 2%Z noFetchLatestOptions)
      with (r := {| PerAuthor.author := "alice";
                    PerAuthor.events := [mkEvent "c" "alice" 100] |})
      as (evsPerRelay & Hvalues & _ & Hreduced & _).
    + unfold isSafeInteger, MAX_SAFE_INTEGER. lia.
    + vm_compute; reflexivity.
    + vm_compute. apply list_elem_of_here.
    + exists evsPerRelay. split; [exact Hvalues|]. by apply Hreduced.
Defined.

(* ===================================================================== *)
(** * The final selection when [limit] is not an integer *)
(* ===================================================================== *)

(** [limit] is a JavaScript number, and the check [limit > 0] lets every
    number above zero through.  The final selection only compares [limit]
    with a length and cuts an array at it, and there the value of the number
    decides: a rational, an infinity, or NaN. *)
Inductive JsNumber :=
| Finite (q : QArith_base.Q)
| Infinity (negative : bool)
| NaN.

(** The number [z]. *)
Definition ofInteger (z : Z) : JsNumber := Finite (QArith_base.inject_Z z).

(** [n >= limit], for the length [n] of an array. *)
Definition lengthReaches (n : nat) (limit : JsNumber) : bool :=
  match limit with
  | Finite q => QArith_base.Qle_bool q (QArith_base.inject_Z (Z.of_nat n))
  | Infinity negative => negative
  | NaN => false
  end.

(** [arr.slice(0, limit)]: the end index is [limit] truncated to an integer
    ([ToIntegerOrInfinity], which takes NaN to 0). *)
Definition sliceTo {A} (l : list A) (limit : JsNumber) : list A :=
  match limit with
  | Finite q => slice0 l (QArith_base.Qnum q ÷ Z.pos (QArith_base.Qden q))
  | Infinity negative => if negative then [] else l
  | NaN => []
  end.

(** The reduced-verification loop, as [collectVerified], for any number. *)
Fixpoint collectVerifiedNumber (verify : NostrEvent → bool) (limit : JsNumber)
  (evs verified : list NostrEvent) : list NostrEvent :=
  match evs with
  | [] => verified
  | ev :: evs' =>
      if verify ev then
        let verified' := verified ++ [ev] in
        if lengthReaches (length verified') limit then verified'
        else collectVerifiedNumber verify limit evs' verified'
      else collectVerifiedNumber verify limit evs' verified
  end.

(** The last lines of [fetchLatestEvents] and of the merger, as [latestOf],
    for any number. *)
Definition latestOfNumber (env : Env) (finalOpts : Required_FetchLatestOptions)
  (limit : JsNumber) (evs : list NostrEvent) : list NostrEvent :=
  if skipVerification finalOpts || negb (reduceVerification finalOpts)
  then sliceTo evs limit
  else collectVerifiedNumber (verifyEventSig env) limit evs [].

Lemma lengthReaches_integer n z : lengthReaches n (ofInteger z) = (z <=? Z.of_nat n)%Z.
Proof.
  unfold lengthReaches, ofInteger, QArith_base.Qle_bool, QArith_base.inject_Z. simpl.
  by rewrite !Z.mul_1_r.
Qed.

Lemma collectVerifiedNumber_integer verify z evs verified :
  collectVerifiedNumber verify (ofInteger z) evs verified
  = collectVerified verify z evs verified.
Proof.
  revert verified. induction evs as [|ev evs IH]; intros verified;
    cbn [collectVerifiedNumber collectVerified]; [done|].
  destruct (verify ev); [|apply IH]. cbv zeta. rewrite lengthReaches_integer.
  destruct (z <=? _)%Z; [done|apply IH].
Qed.

(** On an integer the selection for numbers is the selection of the
    model. *)
Lemma latestOfNumber_integer env finalOpts z evs :
  latestOfNumber env finalOpts (ofInteger z) evs = latestOf env finalOpts z evs.
Proof.
  unfold latestOfNumber, latestOf. case_match.
  - unfold sliceTo, ofInteger, QArith_base.inject_Z. simpl. by rewrite Z.quot_1_r.
  - apply collectVerifiedNumber_integer.
Qed.

(** The number 1.5. *)
Definition oneAndAHalf : JsNumber := Finite (QArith_base.Qmake 3 2).

(** [skipVerification: true] over the defaults. *)
Definition skippingOptions : Required_FetchLatestOptions :=
  {| flo_fetch :=
       {| skipVerification := true;
          connectTimeoutMs := connectTimeoutMs defaultFetchOptions;
          abortSignal := abortSignal defaultFetchOptions;
          abortSubBeforeEoseTimeoutMs := abortSubBeforeEoseTimeoutMs defaultFetchOptions;
          limitPerReq := limitPerReq defaultFetchOptions |};
     reduceVerification := true |}.

(** C3, at a limit that is no integer.  From two collected events with a
    valid signature, already sorted, and [limit = 1.5], the loop of the
    reduced verification mode (the default) returns both events, while
    [slice(0, limit)], which the same lines take with [skipVerification],
    returns one: the two paths do not return the same first [limit]
    events. *)
Theorem fractional_limit_selection :
  let c := mkEvent "c" "alice" 100 in
  let b := mkEvent "b" "alice" 90 in
  verifyEventSig demoEnv c = true ∧ verifyEventSig demoEnv b = true
  ∧ latestOfNumber demoEnv defaultFetchLatestOptions oneAndAHalf [c; b] = [c; b]
  ∧ latestOfNumber demoEnv skippingOptions oneAndAHalf [c; b] = [c].
Proof. by vm_compute. Qed.

(** C7, at a limit that is no integer.  The merger of
    [fetchLatestEventsPerAuthor] with [limit = 1.5], in the default reduced
    verification mode, makes a record of two events out of two merged events
    of the author: more than [limit]. *)
Theorem fractional_limit_exceeds_cap :
  let merged := [mkEvent "c" "alice" 100; mkEvent "b" "alice" 90] in
  let events := latestOfNumber demoEnv defaultFetchLatestOptions oneAndAHalf merged in
  length events = 2
  ∧ QArith_base.Qlt (QArith_base.Qmake 3 2)
      (QArith_base.inject_Z (Z.of_nat (length events))).
Proof. split; [reflexivity|]. by vm_compute. Qed.

(* ===================================================================== *)
(** * Sorted output *)
(* ===================================================================== *)







(* ===================================================================== *)
(** * [fetchLastEvent] *)
(* ===================================================================== *)

Lemma spreadFetchOptions_filled d r :
  spreadFetchOptions d (asFetchOptions r)
  = {| skipVerification := skipVerification r; connectTimeoutMs := connectTimeoutMs r;
       abortSignal := abortSignal r ∪ abortSignal d;
       abortSubBeforeEoseTimeoutMs := abortSubBeforeEoseTimeoutMs r;
       limitPerReq := limitPerReq r |}.
Proof. done. Qed.

(** Spreading the defaults under an object that already has them changes
    nothing. *)
Lemma spreadFetchLatestOptions_idem options :
  spreadFetchLatestOptions defaultFetchLatestOptions
    (asFetchLatestOptions (spreadFetchLatestOptions defaultFetchLatestOptions options))
  = spreadFetchLatestOptions defaultFetchLatestOptions options.
Proof.
  unfold spreadFetchLatestOptions, asFetchLatestOptions. cbn [flo_fetch_opt
    reduceVerification_opt flo_fetch reduceVerification default].
  rewrite spreadFetchOptions_filled. f_equal.
  unfold spreadFetchOptions. cbn. f_equal.
  by destruct (abortSignal_opt (flo_fetch_opt options)).
Qed.

(** C5. [fetchLastEvent relays filter opts] is the first element ([undefined]
    for the empty list) of [fetchLatestEvents relays filter 1 opts'], where
    [opts'] is [opts] with the key [abortSubBeforeEoseTimeoutMs] set to 1000
    unless the caller has set it; so the sub-requests of [fetchLastEvent] run
    with the caller's timeout, or 1000, where those of [fetchLatestEvents] run
    with the caller's timeout, or 10000. *)
Theorem fetchLastEvent_first_of_latest (env : Env) (sched : list nat)
    (relayUrls : list string) (fil : FetchFilter) (options : FetchLatestOptions) :
  let o := flo_fetch_opt options in
  let options' :=
    {| flo_fetch_opt :=
         {| skipVerification_opt := skipVerification_opt o;
            connectTimeoutMs_opt := connectTimeoutMs_opt o;
            abortSignal_opt := abortSignal_opt o;
            abortSubBeforeEoseTimeoutMs_opt :=
              Some (default 1000%Z (abortSubBeforeEoseTimeoutMs_opt o));
            limitPerReq_opt := limitPerReq_opt o |};
       reduceVerification_opt := reduceVerification_opt options |} in
  fetchLastEvent env sched relayUrls fil options
  = (do latest1 <- fetchLatestEvents env sched relayUrls fil 1 options' ;
     ret (head <$> latest1))
  ∧ abortSubBeforeEoseTimeoutMs
      (spreadFetchLatestOptions defaultFetchLatestOptions options')
    = default 1000%Z (abortSubBeforeEoseTimeoutMs_opt o)
  ∧ abortSubBeforeEoseTimeoutMs
      (spreadFetchLatestOptions defaultFetchLatestOptions options)
    = default 10000%Z (abortSubBeforeEoseTimeoutMs_opt o).
Proof.
  cbv zeta. split_and!; [|done..].
  unfold fetchLastEvent.
  assert (lastEventOptions options
          = {| flo_fetch_opt :=
                 {| skipVerification_opt := skipVerification_opt (flo_fetch_opt options);
                    connectTimeoutMs_opt := connectTimeoutMs_opt (flo_fetch_opt options);
                    abortSignal_opt := abortSignal_opt (flo_fetch_opt options);
                    abortSubBeforeEoseTimeoutMs_opt :=
                      Some (default 1000%Z
                              (abortSubBeforeEoseTimeoutMs_opt (flo_fetch_opt options)));
                    limitPerReq_opt := limitPerReq_opt (flo_fetch_opt options) |};
               reduceVerification_opt := reduceVerification_opt options |}) as Hopts.
  { unfold lastEventOptions, overrideFetchOptions. cbn. f_equal.
    destruct (flo_fetch_opt options) as [[] [] [] [] []]; reflexivity. }
  rewrite <-Hopts.
  rewrite !fetchLatestEvents_eq. cbv zeta. unfold fetchLatestState.
  by rewrite spreadFetchLatestOptions_idem.
Qed.

(* ===================================================================== *)
(** * The per-author cap *)
(* ===================================================================== *)

(** The per-author cap, for a [limit] that is a safe integer.  Every record that
    [fetchLatestEventsPerAuthor authorsAndRelays filter N opts] yields holds
    at most [N] events. *)
Theorem perAuthor_cap (env : Env) (sched : list nat) (authorsAndRelays : AuthorsAndRelays)
    (otherFilter : FetchFilter) (lim : Z) (options : FetchLatestOptions)
    (es : list Effect) (it : PerAuthor.Iterator) (r : PerAuthor.AuthorEvents) :
  isSafeInteger lim →
  fetchLatestEventsPerAuthor env authorsAndRelays otherFilter lim options = (es, Ok it) →
  r ∈ PerAuthor.delivered (PerAuthor.advance env sched it) →
  (0 < lim)%Z ∧ (Z.of_nat (length (PerAuthor.events r)) <= lim)%Z.
Proof.
  intros _. rewrite fetchLatestEventsPerAuthor_eq. case_match eqn:Hlim; [|done].
  apply Z.ltb_lt in Hlim. cbv zeta.
  destruct (mapAvailableRelayToAuthors _ _ _ _) as [es' [ra|e]]; [|done].
  intros [_ <-]%Ok_pair_inv. unfold PerAuthor.delivered, PerAuthor.advance.
  cbn [PerAuthor.state PerAuthor.it_otherFilter PerAuthor.it_limit
       PerAuthor.it_finalOpts].
  intros Hr. split; [done|].
  eapply (run_shared _ (recordsOk lim)); [| |exact Hr].
  - intros; by apply PerAuthor_step_recordsOk.
  - by intros r' ?%elem_of_nil.
Qed.

Definition demoAuthors : AuthorsAndRelays :=
  RelaySetForAllAuthors ["alice"; "bob"] demoRelays.

Lemma perAuthor_cap_witness :
  ∃ es it,
    fetchLatestEventsPerAuthor demoEnv demoAuthors emptyFetchFilter 1 noFetchLatestOptions
    = (es, Ok it)
    ∧ PerAuthor.delivered (PerAuthor.advance demoEnv demoSched it)
      = [ {| PerAuthor.author := "alice"; PerAuthor.events := [mkEvent "c" "alice" 100] |};
          {| PerAuthor.author := "bob"; PerAuthor.events := [mkEvent "a" "bob" 80] |} ]
    ∧ (Z.of_nat (length [mkEvent "c" "alice" 100]) <= 1)%Z.
Proof.
  eexists _, _. split; [vm_compute; reflexivity|].
  split; [vm_compute; reflexivity|].
  refine (proj2 (perAuthor_cap demoEnv demoSched demoAuthors emptyFetchFilter 1
                   noFetchLatestOptions _ _
                   {| PerAuthor.author := "alice";
                      PerAuthor.events := [mkEvent "c" "alice" 100] |} _ _ _)).
  - unfold isSafeInteger, MAX_SAFE_INTEGER. lia.
  - vm_compute; reflexivity.
  - vm_compute. apply list_elem_of_here.
Defined.

(* ===================================================================== *)
(** * Backpressure: the request limit and the high-water mark *)
(* ===================================================================== *)

(** Every sub-request of the trace asks for at most [l] events. *)
Definition requestsLimit (l : Z) (es : list Effect) : Prop :=
  Forall (λ eff, match eff with
                 | FetchTillEose _ fil _ => limit fil = Some l
                 | _ => True
                 end) es.

Lemma AllEvents_step_requestsLimit env fil timeRangeFilter
    (finalOpts : Required_AllEventsIterOptions) w g :
  requestsLimit (Z.min (limitPerReq finalOpts) MAX_LIMIT_PER_REQ) (effects g) →
  requestsLimit (Z.min (limitPerReq finalOpts) MAX_LIMIT_PER_REQ)
    (effects (AllEvents.step env fil timeRangeFilter finalOpts w g).2).
Proof.
  intros Hg. unfold AllEvents.step.
  destruct (AllEvents.phase w) as [|[|e pending] throws vars|]; simpl; try done.
  - apply Forall_app. split; [done|]. by repeat constructor.
  - repeat case_match; done.
  - repeat case_decide; simpl; done.
Qed.

Lemma finalOptsOf_enableBackpressure options :
  enableBackpressure (finalOptsOf options) = default false (enableBackpressure_opt options).
Proof. done. Qed.

Lemma finalOptsOf_limitPerReq options :
  limitPerReq (finalOptsOf options)
  = if default false (enableBackpressure_opt options)
    then Z.min (default 5000%Z (limitPerReq_opt (aio_fetch_opt options))) 500
    else default 5000%Z (limitPerReq_opt (aio_fetch_opt options)).
Proof. done. Qed.

(** C9, as amended.  In [allEventsIterator] with [enableBackpressure], the
    limit of every REQ is the smaller of the caller's [limitPerReq] (5000 if
    not given) and 500, and the high-water mark of the channel is the larger
    of 5000 and that limit times the number of eligible relays (those that
    are connected and pass the capability check).  Without
    [enableBackpressure] there is no high-water mark and the limit of every
    REQ is the smaller of the caller's [limitPerReq] and 5000. *)
Theorem backpressure_limits (env : Env) (sched : list nat) (relayUrls : list string)
    (fil : FetchFilter) (timeRangeFilter : FetchTimeRangeFilter)
    (options : AllEventsIterOptions) (es : list Effect) (it : AllEvents.Iterator) :
  allEventsIterator env relayUrls fil timeRangeFilter options = (es, Ok it) →
  let callerLimit := default 5000%Z (limitPerReq_opt (aio_fetch_opt options)) in
  let eligible :=
    eligibleRelayUrlsOf env relayUrls (filledOptsOf options) (calcRequiredNips fil) in
  let requests := effects (AllEvents.state (AllEvents.advance env sched it)).2 in
  (default false (enableBackpressure_opt options) = true →
   limitPerReq (AllEvents.it_finalOpts it) = Z.min callerLimit 500
   ∧ requestsLimit (Z.min callerLimit 500) requests
   ∧ AllEvents.highWaterMark it
     = Some (Z.max (Z.min callerLimit 500 * Z.of_nat (length eligible)) 5000))
  ∧ (default false (enableBackpressure_opt options) = false →
     AllEvents.highWaterMark it = None
     ∧ requestsLimit (Z.min callerLimit 5000) requests).
Proof.
  rewrite allEventsIterator_eq. case_match; [done|]. cbv zeta.
  intros [_ <-]%Ok_pair_inv. unfold AllEvents.advance.
  cbn [AllEvents.state AllEvents.it_filter AllEvents.it_timeRangeFilter
       AllEvents.it_finalOpts AllEvents.highWaterMark].
  set (st := run _ sched _).
  assert (requestsLimit (Z.min (limitPerReq (finalOptsOf options)) MAX_LIMIT_PER_REQ)
            (effects st.2)) as Hreq.
  { apply (run_shared _ (λ g, requestsLimit _ (effects g)));
      [intros; by apply AllEvents_step_requestsLimit|]. constructor. }
  clearbody st. unfold highWaterMarkOf.
  rewrite finalOptsOf_enableBackpressure, finalOptsOf_limitPerReq in *.
  unfold MAX_LIMIT_PER_REQ, MIN_HIGH_WATER_MARK in *.
  split; intros Hbp; rewrite Hbp in *.
  - split_and!; [done| |done].
    replace (Z.min (default 5000%Z (limitPerReq_opt (aio_fetch_opt options))) 500)
      with (Z.min (Z.min (default 5000%Z (limitPerReq_opt (aio_fetch_opt options))) 500)
              5000) by lia.
    exact Hreq.
  - by split.
Qed.

Definition backpressureOptions (lim : Z) : AllEventsIterOptions :=
  {| aio_fetch_opt :=
       {| skipVerification_opt := None; connectTimeoutMs_opt := None;
          abortSignal_opt := None; abortSubBeforeEoseTimeoutMs_opt := None;
          limitPerReq_opt := Some lim |};
     enableBackpressure_opt := Some true |}.

(** A pool that can only connect to ["wss://up"]. *)
Definition oneUpEnv : Env :=
  {| ensureRelays := λ urls _, List.filter (String.eqb "wss://up") urls;
     relaySupportsNips := λ _ _, true;
     fetchTillEose := λ url fil _ _, storeRelay [mkEvent "e" "alice" 100] fil;
     verifyEventSig := λ _, true;
     currUnixtimeSec := 1000;
     aborted := λ _ _ _, false;
     normalizeRelayUrls := λ urls, urls |}.

Definition elevenRelays : list string :=
  ["wss://up"; "wss://down0"; "wss://down1"; "wss://down2"; "wss://down3";
   "wss://down4"; "wss://down5"; "wss://down6"; "wss://down7"; "wss://down8";
   "wss://down9"].

Lemma backpressure_limits_witness :
  ∃ es it,
    allEventsIterator oneUpEnv elevenRelays emptyFetchFilter noTimeRange
      (backpressureOptions 2000) = (es, Ok it)
    ∧ limitPerReq (AllEvents.it_finalOpts it) = Z.min 2000 500
    ∧ requestsLimit 500
        (effects (AllEvents.state (AllEvents.advance oneUpEnv [0; 0; 0; 0] it)).2)
    ∧ AllEvents.highWaterMark it = Some 5000%Z.
Proof.
  eexists _, _. split; [vm_compute; reflexivity|].
  edestruct (backpressure_limits oneUpEnv [0; 0; 0; 0] elevenRelays emptyFetchFilter
               noTimeRange (backpressureOptions 2000))
    as [Hon _]; [vm_compute; reflexivity|].
  destruct Hon as (Hlim & Hreq & Hhwm); [reflexivity|].
  split_and!; [exact Hlim|exact Hreq|exact Hhwm].
Defined.

(** C9 as the specification words it: with backpressure, the high-water mark
    is [max(limitPerReq × |relays|, 5000)] over the relays of the call,
    whether [limitPerReq] is read as the caller's or as the capped one. *)
Definition highWaterMarkOverAllRelays (env : Env) (relayUrls : list string)
  (fil : FetchFilter) (timeRangeFilter : FetchTimeRangeFilter)
  (options : AllEventsIterOptions) : Prop :=
  ∀ es it,
    allEventsIterator env relayUrls fil timeRangeFilter options = (es, Ok it) →
    enableBackpressure_opt options = Some true →
    let callerLimit := default 5000%Z (limitPerReq_opt (aio_fetch_opt options)) in
    let n := Z.of_nat (length relayUrls) in
    limitPerReq (AllEvents.it_finalOpts it) = Z.min callerLimit 500
    ∧ (AllEvents.highWaterMark it = Some (Z.max (callerLimit * n) 5000)
       ∨ AllEvents.highWaterMark it = Some (Z.max (Z.min callerLimit 500 * n) 5000)).

(** Eleven relays of which one connects, [limitPerReq: 500]: the mark is
    5000, not [max(500 × 11, 5000) = 5500]. *)
Lemma highWaterMark_counts_eligible_relays :
  ¬ highWaterMarkOverAllRelays oneUpEnv elevenRelays emptyFetchFilter noTimeRange
      (backpressureOptions 500).
Proof.
  intros Hclaim. unfold highWaterMarkOverAllRelays in Hclaim.
  edestruct Hclaim as [_ [Hhwm|Hhwm]]; [vm_compute; reflexivity|reflexivity|..];
    vm_compute in Hhwm; discriminate Hhwm.
Qed.

Lemma latestOf_nil env finalOpts lim : (0 < lim)%Z → latestOf env finalOpts lim [] = [].
Proof.
  intros Hlim. rewrite latestOf_spec by done. case_match; simpl; by rewrite take_nil.
Qed.

Lemma recordOf_nil env lim finalOpts pk :
  (0 < lim)%Z → PerAuthor.events (PerAuthor.recordOf env lim finalOpts pk []) = [].
Proof. intros Hlim. simpl. by apply latestOf_nil. Qed.

(* ===================================================================== *)
(** * One record per author *)
(* ===================================================================== *)

Section Scheduler_shape.
Context {W G K : Type} (step : W → G → W * G) (key : W → K).
Hypothesis step_key : ∀ w g, key (step w g).1 = key w.

(** What a step never changes about a task stays as it was at the start. *)
Lemma run_keys s st : key <$> (run step s st).1 = key <$> st.1.
Proof using step_key.
  apply (run_invariant step (λ st', key <$> st'.1 = key <$> st.1)); [|done].
  intros i st' Hst'. rewrite <-Hst'. unfold stepTask.
  destruct (st'.1 !! i) as [w|] eqn:Hi; simpl; [|done].
  rewrite list_fmap_insert, step_key. apply list_insert_id.
  by rewrite list_lookup_fmap, Hi.
Qed.
End Scheduler_shape.

(** Which task a task is: the fetcher of a relay for some authors, or the
    merger of an author. *)
Definition taskKey (t : PerAuthor.Task) : (string * list string) + string :=
  match t with
  | PerAuthor.Fetcher w => inl (PerAuthor.rurl w, PerAuthor.authors w)
  | PerAuthor.Merger pk _ => inr pk
  end.

Lemma PerAuthor_step_taskKey env otherFilter lim finalOpts t g :
  taskKey (PerAuthor.step env otherFilter lim finalOpts t g).1 = taskKey t.
Proof.
  destruct t as [w|pk [|]]; simpl; [|done|].
  - unfold PerAuthor.stepFetcher.
    destruct (PerAuthor.phase w) as [|[|e pending] throws vars|]; simpl; try done.
    + by repeat case_match.
    + by repeat case_match.
    + case_decide; [done|]. by destruct (EventBuckets.state _).
  - unfold PerAuthor.stepMerger. by case_match.
Qed.

(** The authors whose merger has sent its record, and the authors of all
    mergers. *)
Definition sentAuthors (tasks : list PerAuthor.Task) : list string :=
  omap (λ t, match t with PerAuthor.Merger pk true => Some pk | _ => None end) tasks.

Definition mergerAuthors (keys : list ((string * list string) + string)) : list string :=
  omap (λ k, match k with inr pk => Some pk | inl _ => None end) keys.


Lemma sentAuthors_submseteq tasks : sentAuthors tasks ⊆+ mergerAuthors (taskKey <$> tasks).
Proof.
  induction tasks as [|[w|pk [|]] tasks IH]; simpl; try done.
  - unfold sentAuthors, mergerAuthors in *. simpl. by apply submseteq_skip.
  - unfold sentAuthors, mergerAuthors in *. simpl. by apply submseteq_cons.
Qed.

Lemma mergerAuthors_app ks1 ks2 :
  mergerAuthors (ks1 ++ ks2) = mergerAuthors ks1 ++ mergerAuthors ks2.
Proof. apply omap_app. Qed.

Lemma mergerAuthors_fetchers (f : string * list string → PerAuthor.Worker) ras :
  mergerAuthors (taskKey <$> ((λ ra, PerAuthor.Fetcher (f ra)) <$> ras)) = [].
Proof. induction ras as [|ra ras IH]; [done|]. exact IH. Qed.

Lemma mergerAuthors_mergers pks :
  mergerAuthors (taskKey <$> ((λ pk, PerAuthor.Merger pk false) <$> pks)) = pks.
Proof.
  induction pks as [|pk pks IH]; [done|].
  rewrite !fmap_cons. unfold mergerAuthors in *. cbn [omap list_omap taskKey].
  by f_equal.
Qed.

Lemma mergerAuthors_init initialUntil lim relayToAuthors allAuthors :
  mergerAuthors
    (taskKey <$> (PerAuthor.init initialUntil lim relayToAuthors allAuthors).1)
  = allAuthors.
Proof.
  unfold PerAuthor.init. cbn [fst]. rewrite fmap_app, mergerAuthors_app.
  by rewrite mergerAuthors_fetchers, mergerAuthors_mergers.
Qed.

Lemma sentAuthors_insert_same tasks i t t' :
  tasks !! i = Some t →
  match t' with PerAuthor.Merger pk true => Some pk | _ => None end
  = match t with PerAuthor.Merger pk true => Some pk | _ => None end →
  sentAuthors (<[i := t']> tasks) = sentAuthors tasks.
Proof.
  intros Hi Hsame. unfold sentAuthors.
  rewrite <-(take_drop_middle tasks i t Hi) at 2.
  rewrite insert_take_drop by (by eapply lookup_lt_Some).
  rewrite !omap_app. simpl. by rewrite Hsame.
Qed.

Lemma sentAuthors_insert_sent tasks i pk :
  tasks !! i = Some (PerAuthor.Merger pk false) →
  sentAuthors (<[i := PerAuthor.Merger pk true]> tasks) ≡ₚ sentAuthors tasks ++ [pk].
Proof.
  intros Hi. unfold sentAuthors.
  rewrite <-(take_drop_middle tasks i _ Hi) at 2.
  rewrite insert_take_drop by (by eapply lookup_lt_Some).
  rewrite !omap_app. simpl.
  rewrite <-Permutation_middle. apply Permutation_cons_append.
Qed.

(** The records on the channel are those of the mergers that have sent. *)
Definition recordsOfSent (st : list PerAuthor.Task * PerAuthor.Shared) : Prop :=
  PerAuthor.author <$> PerAuthor.tx st.2 ≡ₚ sentAuthors st.1.

Lemma PerAuthor_stepTask_recordsOfSent env otherFilter lim finalOpts i st :
  recordsOfSent st →
  recordsOfSent (stepTask (PerAuthor.step env otherFilter lim finalOpts) i st).
Proof.
  unfold recordsOfSent, stepTask. intros Hst.
  destruct (st.1 !! i) as [t|] eqn:Hi; simpl; [|done].
  destruct t as [w|pk [|]]; simpl.
  - rewrite (sentAuthors_insert_same _ _ _ _ Hi) by done.
    assert (PerAuthor.tx (PerAuthor.stepFetcher env otherFilter finalOpts w st.2).2
            = PerAuthor.tx st.2) as ->; [|done].
    unfold PerAuthor.stepFetcher.
    destruct (PerAuthor.phase w) as [|[|e pending] throws vars|]; simpl; try done.
    + by repeat case_match.
    + by repeat case_match.
    + case_decide; [done|]. by destruct (EventBuckets.state _).
  - by rewrite list_insert_id.
  - unfold PerAuthor.stepMerger. case_match; simpl.
    + rewrite sentAuthors_insert_sent by done. rewrite fmap_app. simpl. by rewrite Hst.
    + by rewrite list_insert_id.
Qed.

(** The record of an author without any latch holds no event. *)
Definition lonelyRecordsEmpty (g : PerAuthor.Shared) : Prop :=
  ∀ r, r ∈ PerAuthor.tx g →
       (∀ rurl, PerAuthor.latches g !! (PerAuthor.author r, rurl) = None) →
       PerAuthor.events r = [].

Lemma PerAuthor_step_lonelyRecordsEmpty env otherFilter lim finalOpts t g :
  (0 < lim)%Z →
  lonelyRecordsEmpty g →
  lonelyRecordsEmpty (PerAuthor.step env otherFilter lim finalOpts t g).2.
Proof.
  intros Hlim Hg r Hr Hnone.
  pose proof (PerAuthor_step_latchesGrow env otherFilter lim finalOpts t g) as Hgrow.
  assert (∀ rurl, PerAuthor.latches g !! (PerAuthor.author r, rurl) = None) as Hnone'.
  { intros rurl. by apply Hgrow. }
  apply PerAuthor_step_tx in Hr as [Hr|(pk & evsPerRelay & -> & Hm & ->)]; [by apply Hg|].
  simpl in Hnone'. unfold latchValues in Hm.
  rewrite itemsByKey_None in Hm by done. simpl in Hm.
  injection Hm as <-. by apply recordOf_nil.
Qed.














(** A task that has nothing left to send. *)
Definition taskDone (t : PerAuthor.Task) : Prop :=
  match t with
  | PerAuthor.Merger _ sent => sent = true
  | PerAuthor.Fetcher _ => True
  end.


Lemma PerAuthor_step_done_stays env otherFilter lim finalOpts t g :
  taskDone t → taskDone (PerAuthor.step env otherFilter lim finalOpts t g).1.
Proof. destruct t as [w|pk [|]]; simpl; done. Qed.



Lemma PerAuthor_run_latchesGrow env otherFilter lim finalOpts sched st :
  latchesGrow (PerAuthor.latches st.2)
    (PerAuthor.latches (run (PerAuthor.step env otherFilter lim finalOpts) sched st).2).
Proof.
  apply (run_invariant _ (λ st', latchesGrow (PerAuthor.latches st.2)
                                   (PerAuthor.latches st'.2)));
    [|apply latchesGrow_refl].
  intros i st' Hst'. eapply latchesGrow_trans; [exact Hst'|].
  unfold stepTask. destruct (st'.1 !! i); simpl; [|apply latchesGrow_refl].
  apply PerAuthor_step_latchesGrow.
Qed.


Lemma sentAuthors_init initialUntil lim relayToAuthors allAuthors :
  sentAuthors (PerAuthor.init initialUntil lim relayToAuthors allAuthors).1 = [].
Proof.
  unfold PerAuthor.init, sentAuthors. cbn [fst]. rewrite omap_app.
  apply app_nil. split.
  - induction relayToAuthors as [|ra ras IH]; [done|]. exact IH.
  - induction allAuthors as [|pk pks IH]; [done|]. exact IH.
Qed.







(* ===================================================================== *)
(** * Input validation *)
(* ===================================================================== *)

Section Scheduler_idle.
Context {W G : Type} (step : W → G → W * G).

(** Without tasks nothing happens. *)
Lemma run_no_tasks s g : run step s ([], g) = ([], g).
Proof. induction s as [|i s IH]; [done|]. exact IH. Qed.
End Scheduler_idle.

Definition noIO (es : list Effect) : Prop := Forall (λ e, isIO e = false) es.

(** Whatever is logged is logged at warn severity. *)
Definition logsOnlyWarn (es : list Effect) : Prop :=
  Forall (λ e, match e with Log level _ => level = warn | _ => True end) es.

Lemma noIO_warnIfEmpty {E} (l : list E) msg : noIO (warnIfEmpty l msg).
Proof. destruct l; by repeat constructor. Qed.

Lemma logsOnlyWarn_warnIfEmpty {E} (l : list E) msg : logsOnlyWarn (warnIfEmpty l msg).
Proof. destruct l; by repeat constructor. Qed.

Lemma logsOnlyWarn_ensure env relayUrls opts requiredNips :
  logsOnlyWarn (ensureRelaysWithCapCheck env relayUrls opts requiredNips).1.
Proof.
  unfold ensureRelaysWithCapCheck. destruct requiredNips as [|nip nips]; simpl.
  - by repeat constructor.
  - constructor; [done|]. rewrite app_nil_r. apply Forall_fmap, Forall_true. by intros x.
Qed.

Lemma logsOnlyWarn_app es1 es2 :
  logsOnlyWarn es1 → logsOnlyWarn es2 → logsOnlyWarn (es1 ++ es2).
Proof. intros. by apply Forall_app. Qed.

Ltac solve_logsOnlyWarn :=
  repeat lazymatch goal with
         | |- logsOnlyWarn (_ ++ _) => apply logsOnlyWarn_app
         | |- logsOnlyWarn (warnIfEmpty _ _) => apply logsOnlyWarn_warnIfEmpty
         | |- logsOnlyWarn (fst (ensureRelaysWithCapCheck _ _ _ _)) =>
             apply logsOnlyWarn_ensure
         | |- logsOnlyWarn [] => apply Forall_nil_2
         | |- logsOnlyWarn (_ :: ?l) =>
             apply Forall_cons_2; [done|change (logsOnlyWarn l)]
         end.

Lemma eligibleRelayUrlsOf_nil env opts requiredNips :
  (∀ t, ensureRelays env [] t = []) → eligibleRelayUrlsOf env [] opts requiredNips = [].
Proof.
  intros Hpool. unfold eligibleRelayUrlsOf. rewrite Hpool. by destruct requiredNips.
Qed.

Lemma PerAuthor_run_lonely env otherFilter lim finalOpts sched st r :
  (0 < lim)%Z →
  PerAuthor.tx st.2 = [] →
  r ∈ PerAuthor.tx (run (PerAuthor.step env otherFilter lim finalOpts) sched st).2 →
  (∀ rurl, PerAuthor.latches st.2 !! (PerAuthor.author r, rurl) = None) →
  PerAuthor.events r = [].
Proof.
  intros Hlim Htx Hr Hnone.
  eapply (run_shared _ lonelyRecordsEmpty); [| |exact Hr|].
  - intros; by apply PerAuthor_step_lonelyRecordsEmpty.
  - unfold lonelyRecordsEmpty. rewrite Htx. by intros r' ?%elem_of_nil.
  - intros rurl. by apply PerAuthor_run_latchesGrow.
Qed.

Lemma PerAuthor_run_no_authors env otherFilter lim finalOpts sched initialUntil
    relayToAuthors :
  PerAuthor.tx (run (PerAuthor.step env otherFilter lim finalOpts) sched
                  (PerAuthor.init initialUntil lim relayToAuthors [])).2 = [].
Proof.
  set (st := run _ sched _).
  assert (recordsOfSent st) as Hsent.
  { apply run_invariant; [intros; by apply PerAuthor_stepTask_recordsOfSent|].
    unfold recordsOfSent. by rewrite sentAuthors_init. }
  assert (mergerAuthors (taskKey <$> st.1) = []) as Hkeys.
  { unfold st. rewrite run_keys by apply PerAuthor_step_taskKey.
    apply mergerAuthors_init. }
  pose proof (sentAuthors_submseteq st.1) as Hsub. rewrite Hkeys in Hsub.
  apply submseteq_nil_r in Hsub. unfold recordsOfSent in Hsent. rewrite Hsub in Hsent.
  apply Permutation_nil_r in Hsent. by apply fmap_nil_inv in Hsent.
Qed.

(** C6, as amended.  Validation runs before any input/output: with
    [since > until], [allEventsIterator] and [fetchAllEvents] throw a
    [NostrFetchError] and have made no call on the relay pool; with
    [limit <= 0], so do [fetchLatestEvents] and [fetchLatestEventsPerAuthor].
    An empty relay list is logged, at warn severity only, and the call goes
    on, the pool connecting to no relay when asked for none:
    [allEventsIterator] then delivers nothing and its channel is closed,
    [fetchAllEvents] and [fetchLatestEvents] resolve to the empty array, and
    every record that [fetchLatestEventsPerAuthor] yields (one per author)
    holds no event.  An empty author list is logged at warn severity and
    [fetchLatestEventsPerAuthor] yields no record. *)
Theorem input_validation (env : Env) (sched : list nat) :
  (∀ relayUrls fil timeRangeFilter s u,
     tr_since timeRangeFilter = Some s → tr_until timeRangeFilter = Some u → (u < s)%Z →
     (∀ options, ∃ es,
        allEventsIterator env relayUrls fil timeRangeFilter options
        = (es, Throw (NostrFetchError "Invalid time range (since > until)")) ∧ noIO es)
     ∧ (∀ options, ∃ es,
          fetchAllEvents env sched relayUrls fil timeRangeFilter options
          = (es, Throw (NostrFetchError "Invalid time range (since > until)")) ∧ noIO es))
  ∧ (∀ fil lim options, (lim <= 0)%Z →
     (∀ relayUrls, ∃ es,
        fetchLatestEvents env sched relayUrls fil lim options
        = (es, Throw (NostrFetchError limitShouldBePositive)) ∧ noIO es)
     ∧ (∀ authorsAndRelays, ∃ es,
          fetchLatestEventsPerAuthor env authorsAndRelays fil lim options
          = (es, Throw (NostrFetchError limitShouldBePositive)) ∧ noIO es))
  ∧ ((∀ t, ensureRelays env [] t = []) →
     (∀ fil timeRangeFilter options, invalidTimeRange timeRangeFilter = false →
        ∃ es it,
          allEventsIterator env [] fil timeRangeFilter options = (es, Ok it)
          ∧ Log warn "Specify at least 1 relay URL" ∈ es ∧ logsOnlyWarn es
          ∧ AllEvents.delivered (AllEvents.advance env sched it) = []
          ∧ AllEvents.closed (AllEvents.advance env sched it) = true)
     ∧ (∀ fil timeRangeFilter options, invalidTimeRange timeRangeFilter = false →
          ∃ es,
            fetchAllEvents env sched [] fil timeRangeFilter options = (es, Ok (Some []))
            ∧ Log warn "Specify at least 1 relay URL" ∈ es ∧ logsOnlyWarn es)
     ∧ (∀ fil lim options, (0 < lim)%Z →
          ∃ es,
            fetchLatestEvents env sched [] fil lim options = (es, Ok (Some []))
            ∧ Log warn "Specify at least 1 relay URL" ∈ es ∧ logsOnlyWarn es)
     ∧ (∀ authors otherFilter lim options, (0 < lim)%Z →
          ∃ es it,
            fetchLatestEventsPerAuthor env (RelaySetForAllAuthors authors []) otherFilter
              lim options = (es, Ok it)
            ∧ Log warn "Specify at least 1 relay URL" ∈ es ∧ logsOnlyWarn es
            ∧ ∀ r, r ∈ PerAuthor.delivered (PerAuthor.advance env sched it) →
                   PerAuthor.events r = [])
     ∧ (∀ otherFilter lim options, (0 < lim)%Z →
          ∃ es it,
            fetchLatestEventsPerAuthor env (RelaySetsPerAuthor []) otherFilter lim options
            = (es, Ok it)
            ∧ Log warn "Specify at least 1 author" ∈ es ∧ logsOnlyWarn es
            ∧ PerAuthor.delivered (PerAuthor.advance env sched it) = []))
  ∧ (∀ relayUrls otherFilter lim options, (0 < lim)%Z →
     ∃ es it,
       fetchLatestEventsPerAuthor env (RelaySetForAllAuthors [] relayUrls) otherFilter
         lim options = (es, Ok it)
       ∧ Log warn "Specify at least 1 author (pubkey)" ∈ es ∧ logsOnlyWarn es
       ∧ PerAuthor.delivered (PerAuthor.advance env sched it) = []).
Proof.
  split_and!.
  - intros relayUrls fil timeRangeFilter s u Hs Hu Hlt.
    assert (invalidTimeRange timeRangeFilter = true) as Hinv.
    { unfold invalidTimeRange. rewrite Hs, Hu. by apply Z.ltb_lt. }
    split; intros options; eexists.
    + rewrite allEventsIterator_eq, Hinv. split; [done|apply noIO_warnIfEmpty].
    + rewrite fetchAllEvents_eq, Hinv. split; [done|apply noIO_warnIfEmpty].
  - intros fil lim options Hlim.
    assert ((0 <? lim)%Z = false) as Hneg by (by apply Z.ltb_ge).
    split.
    + intros relayUrls. eexists. rewrite fetchLatestEvents_eq, Hneg.
      split; [done|apply noIO_warnIfEmpty].
    + intros authorsAndRelays. eexists. rewrite fetchLatestEventsPerAuthor_eq, Hneg.
      split; [done|constructor].
  - intros Hpool. split_and!.
    + intros fil timeRangeFilter options Hvalid. eexists _, _.
      rewrite allEventsIterator_eq, Hvalid. cbv zeta. split; [done|].
      rewrite eligibleRelayUrlsOf_nil by done. split_and!.
      * apply elem_of_app. left. apply list_elem_of_here.
      * solve_logsOnlyWarn.
      * unfold AllEvents.delivered, AllEvents.advance, AllEvents.init. simpl.
        by rewrite run_no_tasks.
      * unfold AllEvents.closed, AllEvents.advance, AllEvents.init. simpl.
        by rewrite run_no_tasks.
    + intros fil timeRangeFilter options Hvalid. eexists.
      rewrite fetchAllEvents_eq, Hvalid. cbv zeta. unfold fetchAllState.
      rewrite eligibleRelayUrlsOf_nil by done.
      unfold AllEvents.init. simpl fmap. rewrite run_no_tasks. cbn [fst snd tx effects forallb].
      split_and!.
      * by destruct (sort _).
      * apply elem_of_app. left. apply list_elem_of_here.
      * solve_logsOnlyWarn.
    + intros fil lim options Hlim. eexists.
      rewrite fetchLatestEvents_eq.
      assert ((0 <? lim)%Z = true) as -> by (by apply Z.ltb_lt).
      cbv zeta. unfold fetchLatestState. rewrite eligibleRelayUrlsOf_nil by done.
      unfold Latest.init, Latest.closed. simpl fmap. rewrite run_no_tasks.
      cbn [fst snd tx effects forallb sortBy foldr]. rewrite latestOf_nil by done.
      split_and!.
      * reflexivity.
      * apply elem_of_app. left. apply list_elem_of_here.
      * solve_logsOnlyWarn.
    + intros authors otherFilter lim options Hlim. eexists _, _.
      rewrite fetchLatestEventsPerAuthor_eq.
      assert ((0 <? lim)%Z = true) as -> by (by apply Z.ltb_lt).
      cbv zeta. unfold mapAvailableRelayToAuthors.
      replace (assertReq (authors, [])
                 [checkIfNonEmpty snd sev_warn "Specify at least 1 relay URL";
                  checkIfNonEmpty fst sev_warn "Specify at least 1 author (pubkey)"])
        with (Log warn "Specify at least 1 relay URL"
                :: warnIfEmpty authors "Specify at least 1 author (pubkey)", Ok ())
        by (by destruct authors).
      rewrite bind_Ok_eq, ensureRelaysWithCapCheck_pair, bind_Ok_eq.
      rewrite eligibleRelayUrlsOf_nil by done. unfold ret. cbn [fst snd].
      split; [done|]. split_and!.
      * apply list_elem_of_here.
      * solve_logsOnlyWarn.
      * unfold PerAuthor.delivered, PerAuthor.advance.
        cbn [PerAuthor.state PerAuthor.it_otherFilter PerAuthor.it_limit
             PerAuthor.it_finalOpts].
        intros r Hr. eapply PerAuthor_run_lonely; [exact Hlim| |exact Hr|]; [done|].
        intros rurl. rewrite matrix_lookup. apply lookup_empty.
    + intros otherFilter lim options Hlim. eexists _, _.
      rewrite fetchLatestEventsPerAuthor_eq.
      assert ((0 <? lim)%Z = true) as -> by (by apply Z.ltb_lt).
      cbv zeta. unfold mapAvailableRelayToAuthors.
      replace (assertReq (@nil (string * list string))
                 [checkIfNonEmpty (λ a2rs, a2rs) sev_warn "Specify at least 1 author";
                  checkIfTrue (forallb (λ ar : string * list string, (0 <? length ar.2)%nat))
                    sev_warn "Specify at least 1 relay URL for all authors"])
        with ([Log warn "Specify at least 1 author"], Ok ()) by done.
      rewrite bind_Ok_eq. cbv zeta. rewrite ensureRelaysWithCapCheck_pair, bind_Ok_eq.
      cbn [foldl JsMap.keys fmap list_fmap fst snd].
      rewrite eligibleRelayUrlsOf_nil by done.
      unfold ret. cbn [fst snd mapM mret option_ret]. split; [done|]. split_and!.
      * apply list_elem_of_here.
      * solve_logsOnlyWarn.
      * unfold PerAuthor.delivered, PerAuthor.advance.
        cbn [PerAuthor.state PerAuthor.it_otherFilter PerAuthor.it_limit
             PerAuthor.it_finalOpts fmap list_fmap].
        apply PerAuthor_run_no_authors.
  - intros relayUrls otherFilter lim options Hlim.
    assert ((0 <? lim)%Z = true) as Hpos by (by apply Z.ltb_lt).
    eexists _, _.
    rewrite fetchLatestEventsPerAuthor_eq, Hpos.
    cbv zeta. unfold mapAvailableRelayToAuthors.
    replace (assertReq (@nil string, relayUrls)
               [checkIfNonEmpty snd sev_warn "Specify at least 1 relay URL";
                checkIfNonEmpty fst sev_warn "Specify at least 1 author (pubkey)"])
      with (warnIfEmpty relayUrls "Specify at least 1 relay URL"
              ++ [Log warn "Specify at least 1 author (pubkey)"], Ok ())
      by (by destruct relayUrls).
    rewrite bind_Ok_eq, ensureRelaysWithCapCheck_pair, bind_Ok_eq.
    unfold ret. cbn [fst snd]. split; [done|]. split_and!.
    + apply elem_of_app. left. apply elem_of_app. right. apply list_elem_of_here.
    + solve_logsOnlyWarn.
    + unfold PerAuthor.delivered, PerAuthor.advance.
      cbn [PerAuthor.state PerAuthor.it_otherFilter PerAuthor.it_limit
           PerAuthor.it_finalOpts].
      apply PerAuthor_run_no_authors.
Qed.

Definition sinceAfterUntil : FetchTimeRangeFilter :=
  {| tr_since := Some 5%Z; tr_until := Some 3%Z |}.

Definition aliceNoRelays : AuthorsAndRelays := RelaySetForAllAuthors ["alice"] [].

Lemma input_validation_witness :
  (∃ es,
     fetchAllEvents demoEnv demoSched demoRelays emptyFetchFilter sinceAfterUntil
       noFetchAllOptions
     = (es, Throw (NostrFetchError "Invalid time range (since > until)")) ∧ noIO es)
  ∧ (∃ es,
       fetchLatestEvents demoEnv demoSched demoRelays emptyFetchFilter 0
         noFetchLatestOptions
       = (es, Throw (NostrFetchError limitShouldBePositive)) ∧ noIO es)
  ∧ (∃ es,
       fetchLatestEvents demoEnv demoSched [] emptyFetchFilter 1 noFetchLatestOptions
       = (es, Ok (Some []))
       ∧ Log warn "Specify at least 1 relay URL" ∈ es ∧ logsOnlyWarn es)
  ∧ (∃ es it,
       fetchLatestEventsPerAuthor demoEnv aliceNoRelays emptyFetchFilter 1
         noFetchLatestOptions = (es, Ok it)
       ∧ Log warn "Specify at least 1 relay URL" ∈ es ∧ logsOnlyWarn es
       ∧ ∀ r, r ∈ PerAuthor.delivered (PerAuthor.advance demoEnv demoSched it) →
              PerAuthor.events r = [])
  ∧ (∃ es it,
       fetchLatestEventsPerAuthor demoEnv (RelaySetForAllAuthors [] demoRelays)
         emptyFetchFilter 1 noFetchLatestOptions = (es, Ok it)
       ∧ Log warn "Specify at least 1 author (pubkey)" ∈ es ∧ logsOnlyWarn es
       ∧ PerAuthor.delivered (PerAuthor.advance demoEnv demoSched it) = []).
Proof.
  destruct (input_validation demoEnv demoSched) as (Hrange & Hlimit & Hrelays & Hauthors).
  split_and!.
  - destruct (Hrange demoRelays emptyFetchFilter sinceAfterUntil 5%Z 3%Z) as [_ Hall];
      [reflexivity|reflexivity|lia|].
    exact (Hall noFetchAllOptions).
  - destruct (Hlimit emptyFetchFilter 0%Z noFetchLatestOptions) as [Hlatest _]; [lia|].
    exact (Hlatest demoRelays).
  - destruct Hrelays as (_ & _ & Hlatest & _); [intros t; reflexivity|].
    apply (Hlatest emptyFetchFilter 1%Z noFetchLatestOptions). lia.
  - destruct Hrelays as (_ & _ & _ & Hper & _); [intros t; reflexivity|].
    apply (Hper ["alice"] emptyFetchFilter 1%Z noFetchLatestOptions). lia.
  - apply (Hauthors demoRelays emptyFetchFilter 1%Z noFetchLatestOptions). lia.
Defined.

(** C6 as the specification words it: a call with an empty relay list
    completes and yields an empty result. *)
Definition emptyRelayListYieldsNothing (env : Env) (authors : list string)
  (otherFilter : FetchFilter) (lim : Z) (options : FetchLatestOptions) : Prop :=
  ∀ sched es it,
    fetchLatestEventsPerAuthor env (RelaySetForAllAuthors authors []) otherFilter lim options
    = (es, Ok it) →
    PerAuthor.delivered (PerAuthor.advance env sched it) = [].

(** Counterexample to C6 as worded: [fetchLatestEventsPerAuthor] called for
    the author alice with an empty relay list logs the warning, starts no
    relay worker, and its merger for alice, awaiting no latch, sends the
    record [{author: alice, events: []}]: the iterator yields one record, not
    nothing. *)
Lemma empty_relay_list_yields_records :
  (∃ es it,
     fetchLatestEventsPerAuthor demoEnv aliceNoRelays emptyFetchFilter 1
       noFetchLatestOptions = (es, Ok it)
     ∧ PerAuthor.delivered (PerAuthor.advance demoEnv [0] it)
       = [ {| PerAuthor.author := "alice"; PerAuthor.events := [] |} ])
  ∧ ¬ emptyRelayListYieldsNothing demoEnv ["alice"] emptyFetchFilter 1
        noFetchLatestOptions.
Proof.
  split.
  - eexists _, _. split; vm_compute; reflexivity.
  - intros Hclaim.
    specialize (Hclaim [0] _ _ eq_refl). vm_compute in Hclaim. discriminate.
Qed.

(* ===================================================================== *)
(** * Further properties of the latest-N family *)
(* ===================================================================== *)

(** For a [limit] [N] that is a safe integer, [fetchLatestEvents relays
    filter N opts] resolves to at most [N] events, however many the relays
    deliver. *)
Theorem fetchLatestEvents_cap (env : Env) (sched : list nat) (relayUrls : list string)
    (fil : FetchFilter) (lim : Z) (options : FetchLatestOptions)
    (es : list Effect) (res : list NostrEvent) :
  isSafeInteger lim →
  fetchLatestEvents env sched relayUrls fil lim options = (es, Ok (Some res)) →
  (0 < lim)%Z ∧ (Z.of_nat (length res) <= lim)%Z.
Proof.
  intros _. rewrite fetchLatestEvents_eq. case_match eqn:Hlim; [|done].
  apply Z.ltb_lt in Hlim. cbv zeta. case_match; [|done]. intros [= _ <-].
  split; [done|]. by apply latestOf_length.
Qed.

Lemma fetchLatestEvents_cap_witness :
  ∃ es res,
    fetchLatestEvents demoEnv demoSched demoRelays emptyFetchFilter 2 noFetchLatestOptions
    = (es, Ok (Some res))
    ∧ (0 < 2)%Z ∧ (Z.of_nat (length res) <= 2)%Z.
Proof.
  eexists _, _. split; [vm_compute; reflexivity|].
  eapply (fetchLatestEvents_cap demoEnv demoSched demoRelays emptyFetchFilter 2%Z
            noFetchLatestOptions).
  - unfold isSafeInteger, MAX_SAFE_INTEGER. lia.
  - vm_compute; reflexivity.
Defined.

(** In reduced verification mode the final selection holds only events whose
    signature verifies. *)
Lemma latestOf_verified env finalOpts lim evs e :
  (0 < lim)%Z →
  reduceVerification finalOpts = true → skipVerification finalOpts = false →
  e ∈ latestOf env finalOpts lim evs → verifyEventSig env e = true.
Proof.
  intros Hlim Hr Hs. rewrite latestOf_spec by done. rewrite Hr, Hs. simpl.
  intros He%subseteq_take. apply list_elem_of_In, filter_In in He. tauto.
Qed.

(** With [reduceVerification] (the default) and without [skipVerification],
    the relays are asked not to verify, and the fetcher verifies at the end:
    every event [fetchLatestEvents] resolves to, and every event of a record
    of [fetchLatestEventsPerAuthor], has a signature that [verifyEventSig]
    accepts. *)
Theorem reduced_verification_valid (env : Env) (sched : list nat) :
  (∀ relayUrls fil lim options es res e,
     fetchLatestEvents env sched relayUrls fil lim options = (es, Ok (Some res)) →
     let finalOpts := spreadFetchLatestOptions defaultFetchLatestOptions options in
     reduceVerification finalOpts = true → skipVerification finalOpts = false →
     e ∈ res → verifyEventSig env e = true)
  ∧ (∀ authorsAndRelays otherFilter lim options es it r e,
       fetchLatestEventsPerAuthor env authorsAndRelays otherFilter lim options
       = (es, Ok it) →
       let finalOpts := spreadFetchLatestOptions defaultFetchLatestOptions options in
       reduceVerification finalOpts = true → skipVerification finalOpts = false →
       r ∈ PerAuthor.delivered (PerAuthor.advance env sched it) →
       e ∈ PerAuthor.events r → verifyEventSig env e = true).
Proof.
  split.
  - intros relayUrls fil lim options es res e.
    rewrite fetchLatestEvents_eq. case_match eqn:Hlim; [|done].
    apply Z.ltb_lt in Hlim. cbv zeta. case_match; [|done]. intros [= _ <-] Hr Hs.
    by apply latestOf_verified.
  - intros authorsAndRelays otherFilter lim options es it r e.
    rewrite fetchLatestEventsPerAuthor_eq. case_match eqn:Hlim; [|done].
    apply Z.ltb_lt in Hlim. cbv zeta.
    destruct (mapAvailableRelayToAuthors _ _ _ _) as [es' [ra|err]]; [|done].
    intros [= _ <-] Hr Hs. unfold PerAuthor.delivered, PerAuthor.advance. simpl.
    intros Hin.
    eapply (run_shared _ (recordsMerged env lim _)) in Hin as (evsPerRelay & _ & ->).
    + simpl. by apply latestOf_verified.
    + intros; by apply PerAuthor_step_recordsMerged.
    + by intros r' ?%elem_of_nil.
Qed.

Lemma reduced_verification_valid_witness :
  ∃ es res,
    fetchLatestEvents invalidSigEnv demoSched demoRelays emptyFetchFilter 2
      noFetchLatestOptions = (es, Ok (Some res))
    ∧ res ≠ []
    ∧ ∀ e, e ∈ res → verifyEventSig invalidSigEnv e = true.
Proof.
  eexists _, _. split; [vm_compute; reflexivity|]. split; [done|].
  intros e He.
  eapply (proj1 (reduced_verification_valid invalidSigEnv demoSched) demoRelays
            emptyFetchFilter 2%Z noFetchLatestOptions);
    [vm_compute; reflexivity|reflexivity|reflexivity|exact He].
Defined.

(** The events among which the final selection of the latest-N family
    chooses: all of them, or in reduced verification mode those whose
    signature verifies. *)
Definition candidatesOf (env : Env) (finalOpts : Required_FetchLatestOptions)
  (evs : list NostrEvent) : list NostrEvent :=
  if skipVerification finalOpts || negb (reduceVerification finalOpts) then evs
  else List.filter (verifyEventSig env) evs.

Lemma candidatesOf_sublist env finalOpts evs : candidatesOf env finalOpts evs `sublist_of` evs.
Proof. unfold candidatesOf. case_match; [done|apply List_filter_sublist]. Qed.

Lemma candidatesOf_elem env finalOpts evs evs' e :
  evs ≡ₚ evs' → e ∈ candidatesOf env finalOpts evs → e ∈ candidatesOf env finalOpts evs'.
Proof.
  intros Hp. unfold candidatesOf. case_match; [by rewrite Hp|].
  rewrite !list_elem_of_In, !filter_In, <-!list_elem_of_In. by rewrite Hp.
Qed.

Lemma latestOf_candidates env finalOpts lim evs :
  (0 < lim)%Z →
  latestOf env finalOpts lim evs = take (Z.to_nat lim) (candidatesOf env finalOpts evs).
Proof. intros Hlim. rewrite latestOf_spec by done. unfold candidatesOf. by case_match. Qed.

(** The first element of a list sorted newest first is a newest one. *)
Lemma sortedDesc_head l e e' :
  sortedDesc l → head l = Some e → e' ∈ l → (created_at e' <= created_at e)%Z.
Proof.
  destruct l as [|x l]; [done|]. intros [Hl Hx]%StronglySorted_inv [= ->].
  intros [->|He']%elem_of_cons; [lia|].
  eapply Forall_forall in Hx; [exact Hx|done].
Qed.

(** [fetchLastEvent] resolves to a newest event among those collected from
    the relays (among those of them whose signature verifies, in reduced
    verification mode), and to [undefined] only if there is none. *)
Theorem fetchLastEvent_newest (env : Env) (sched : list nat) (relayUrls : list string)
    (fil : FetchFilter) (options : FetchLatestOptions) (es : list Effect)
    (last : option NostrEvent) :
  fetchLastEvent env sched relayUrls fil options = (es, Ok (Some last)) →
  let finalOpts :=
    spreadFetchLatestOptions defaultFetchLatestOptions (lastEventOptions options) in
  let collected :=
    tx (fetchLatestState env sched relayUrls fil 1 (asFetchLatestOptions finalOpts)).2 in
  let candidates := candidatesOf env finalOpts collected in
  match last with
  | None => candidates = []
  | Some e => e ∈ candidates ∧ ∀ e', e' ∈ candidates → (created_at e' <= created_at e)%Z
  end.
Proof.
  unfold fetchLastEvent. rewrite fetchLatestEvents_eq. cbv zeta.
  change (0 <? 1)%Z with true. cbv iota. rewrite bind_Ok_eq. unfold ret. cbn [fst snd].
  rewrite spreadFetchLatestOptions_idem.
  set (finalOpts := spreadFetchLatestOptions _ (lastEventOptions options)).
  set (collected := tx _).
  case_match; [|done]. intros [= _ <-]. simpl.
  rewrite latestOf_candidates by done.
  set (sorted := candidatesOf env finalOpts (sortBy createdAtDesc collected)).
  assert (sortedDesc sorted) as Hsorted.
  { eapply sortedDesc_sublist; [apply candidatesOf_sublist|].
    apply sortBy_createdAtDesc_sorted. }
  assert (∀ x, x ∈ sorted ↔ x ∈ candidatesOf env finalOpts collected) as Hmem.
  { intros x. split; apply candidatesOf_elem;
      [apply sortBy_Permutation|symmetry; apply sortBy_Permutation]. }
  clearbody sorted.
  assert (head (take (Z.to_nat 1) sorted) = head sorted) as -> by (by destruct sorted).
  destruct (head sorted) as [e|] eqn:Hhead.
  - split.
    + apply Hmem. destruct sorted; [done|]. injection Hhead as ->. apply list_elem_of_here.
    + intros e' He'. eapply sortedDesc_head; [exact Hsorted|exact Hhead|by apply Hmem].
  - destruct (candidatesOf env finalOpts collected) as [|e' l]; [done|].
    assert (e' ∈ sorted) as He' by (apply Hmem, list_elem_of_here).
    destruct sorted; [by apply elem_of_nil in He'|done].
Qed.

Lemma fetchLastEvent_newest_witness :
  ∃ es e,
    fetchLastEvent demoEnv demoSched demoRelays emptyFetchFilter noFetchLatestOptions
    = (es, Ok (Some (Some e)))
    ∧ e = mkEvent "c" "alice" 100
    ∧ ∀ e',
        e' ∈ candidatesOf demoEnv
               (spreadFetchLatestOptions defaultFetchLatestOptions
                  (lastEventOptions noFetchLatestOptions))
               (tx (fetchLatestState demoEnv demoSched demoRelays emptyFetchFilter 1
                      (asFetchLatestOptions
                         (spreadFetchLatestOptions defaultFetchLatestOptions
                            (lastEventOptions noFetchLatestOptions)))).2) →
        (created_at e' <= created_at e)%Z.
Proof.
  eexists _, _. split; [vm_compute; reflexivity|]. split; [reflexivity|].
  eapply (fetchLastEvent_newest demoEnv demoSched demoRelays emptyFetchFilter
            noFetchLatestOptions _ (Some (mkEvent "c" "alice" 100))).
  vm_compute; reflexivity.
Defined.

(** A first argument of neither shape makes [fetchLatestEventsPerAuthor] and
    [fetchLastEventPerAuthor] throw before any warning is logged and before
    any call on the relay pool: the [NostrFetchError] for a malformed first
    argument if the argument is an object (of neither shape), and the
    [TypeError] of the [in] operator if it is not an object.  For
    [fetchLatestEventsPerAuthor] the check of [limit] comes first. *)
Theorem malformed_authorsAndRelays (env : Env) (isObject : bool) (otherFilter : FetchFilter)
    (lim : Z) (options : FetchLatestOptions) :
  let malformed :=
    if isObject
    then NostrFetchError
           "malformed first argument for fetchLatestEventsPerAuthor/fetchLastEventPerAuthor"
    else TypeError in
  fetchLatestEventsPerAuthor env (Malformed isObject) otherFilter lim options
  = ([], Throw (if (0 <? lim)%Z then malformed
                else NostrFetchError limitShouldBePositive))
  ∧ fetchLastEventPerAuthor env (Malformed isObject) otherFilter options
    = ([], Throw malformed).
Proof.
  cbv zeta. unfold fetchLastEventPerAuthor. rewrite !fetchLatestEventsPerAuthor_eq.
  split; [by destruct (0 <? lim)%Z, isObject|by destruct isObject].
Qed.

(* ===================================================================== *)
(** * What is asked of which relay *)
(* ===================================================================== *)

Section Scheduler_tasks.
Context {W G : Type} (step : W → G → W * G).

(** An invariant given task by task, along every schedule. *)
Lemma run_tasks_shared (R : W → G → Prop) (Q : G → Prop) :
  (∀ w g, Q g → R w g → Q (step w g).2 ∧ R (step w g).1 (step w g).2) →
  (∀ w w' g, Q g → R w g → R w' g → R w' (step w g).2) →
  ∀ s st, Q st.2 → Forall (λ w, R w st.2) st.1 →
          Q (run step s st).2 ∧ Forall (λ w, R w (run step s st).2) (run step s st).1.
Proof.
  intros Hown Hother s st HQ HR.
  apply (run_invariant step (λ st, Q st.2 ∧ Forall (λ w, R w st.2) st.1)); [|done].
  intros i st'. by apply stepTask_tasks.
Qed.
End Scheduler_tasks.

(** Every sub-request of the trace satisfies [P]. *)
Definition requestsAll (P : string → Filter → FetchTillEoseOptions → Prop)
  (es : list Effect) : Prop :=
  ∀ url fil opts, FetchTillEose url fil opts ∈ es → P url fil opts.

Lemma requestsAll_nil P : requestsAll P [].
Proof. by intros url fil opts ?%elem_of_nil. Qed.

Lemma requestsAll_snoc P es url fil opts :
  requestsAll P es → P url fil opts → requestsAll P (es ++ [FetchTillEose url fil opts]).
Proof.
  intros Hes HP url' fil' opts' [?|[= -> -> ->]%list_elem_of_singleton]%elem_of_app;
    [by apply Hes|done].
Qed.

(** The sub-requests of [allEventsIterator]: to relay [url], which is one of
    [eligible]; with the caller's filter and [since], an [until], and the
    final options. *)
Definition AllEvents_request (eligible : list string) (fil : FetchFilter)
  (timeRangeFilter : FetchTimeRangeFilter) (finalOpts : Required_AllEventsIterOptions)
  (url : string) (fil' : Filter) (opts : FetchTillEoseOptions) : Prop :=
  url ∈ eligible
  ∧ f_rest fil' = fil ∧ since fil' = tr_since timeRangeFilter ∧ is_Some (until fil')
  ∧ opts = asFetchTillEoseOptions finalOpts.

Lemma AllEvents_step_requests eligible env fil timeRangeFilter finalOpts w g :
  requestsAll (AllEvents_request eligible fil timeRangeFilter finalOpts) (effects g) →
  AllEvents.rurl w ∈ eligible →
  requestsAll (AllEvents_request eligible fil timeRangeFilter finalOpts)
    (effects (AllEvents.step env fil timeRangeFilter finalOpts w g).2)
  ∧ AllEvents.rurl (AllEvents.step env fil timeRangeFilter finalOpts w g).1 ∈ eligible.
Proof.
  intros Hg Hw. unfold AllEvents.step.
  destruct (AllEvents.phase w) as [|[|e pending] throws vars|]; simpl; try done.
  - split; [|done]. apply requestsAll_snoc; [done|]. by repeat split.
  - repeat case_match; done.
  - repeat case_decide; done.
Qed.

(** The sub-requests of [fetchLatestEvents]; there is no [since]. *)
Definition Latest_request (eligible : list string) (fil : FetchFilter)
  (finalOpts : Required_FetchLatestOptions)
  (url : string) (fil' : Filter) (opts : FetchTillEoseOptions) : Prop :=
  url ∈ eligible
  ∧ f_rest fil' = fil ∧ since fil' = None ∧ is_Some (until fil')
  ∧ opts = asFetchTillEoseOptions (subOptsOf finalOpts).

Lemma Latest_step_requests eligible env fil finalOpts w g :
  requestsAll (Latest_request eligible fil finalOpts) (effects g) →
  Latest.rurl w ∈ eligible →
  requestsAll (Latest_request eligible fil finalOpts)
    (effects (Latest.step env fil finalOpts w g).2)
  ∧ Latest.rurl (Latest.step env fil finalOpts w g).1 ∈ eligible.
Proof.
  intros Hg Hw. unfold Latest.step.
  destruct (Latest.phase w) as [|[|e pending] throws vars|]; simpl; try done.
  - split; [|done]. apply requestsAll_snoc; [done|]. by repeat split.
  - repeat case_match; done.
  - repeat case_decide; done.
Qed.

(** A sub-request ([fetchTillEose]). *)
Definition isRequest (e : Effect) : bool :=
  match e with
  | FetchTillEose _ _ _ => true
  | _ => false
  end.

(** The relay workers call nothing but [fetchTillEose]. *)
Definition onlyRequests (es : list Effect) : Prop := Forall (λ e, isRequest e = true) es.

Lemma AllEvents_step_onlyRequests env fil timeRangeFilter finalOpts w g :
  onlyRequests (effects g) →
  onlyRequests (effects (AllEvents.step env fil timeRangeFilter finalOpts w g).2).
Proof.
  intros Hg. unfold AllEvents.step.
  destruct (AllEvents.phase w) as [|[|e pending] throws vars|]; simpl; try done.
  - apply Forall_app. split; [done|]. by repeat constructor.
  - repeat case_match; done.
  - repeat case_decide; done.
Qed.

Lemma Latest_step_onlyRequests env fil finalOpts w g :
  onlyRequests (effects g) → onlyRequests (effects (Latest.step env fil finalOpts w g).2).
Proof.
  intros Hg. unfold Latest.step.
  destruct (Latest.phase w) as [|[|e pending] throws vars|]; simpl; try done.
  - apply Forall_app. split; [done|]. by repeat constructor.
  - repeat case_match; done.
  - repeat case_decide; done.
Qed.

(** An eligible relay is one the pool has connected, and, when the filter
    has a [search] key, one that supports NIP-50. *)
Lemma eligibleRelayUrlsOf_elem env relayUrls opts fil url :
  url ∈ eligibleRelayUrlsOf env relayUrls opts (calcRequiredNips fil) →
  url ∈ ensureRelays env relayUrls (connectTimeoutMs opts)
  ∧ (is_Some (search fil) → relaySupportsNips env url [50%Z] = true).
Proof.
  unfold eligibleRelayUrlsOf, calcRequiredNips. destruct (search fil) as [s|].
  - intros [Hs Hin]%list_elem_of_filter. split; [done|]. intros _.
    by destruct (relaySupportsNips env url [50%Z]).
  - intros Hin. split; [done|]. by intros [? [=]].
Qed.

(** The capability checker is consulted only for a filter with [search]. *)
Lemma ensureRelaysWithCapCheck_no_search env relayUrls opts fil :
  search fil = None →
  (ensureRelaysWithCapCheck env relayUrls opts (calcRequiredNips fil)).1
  = [EnsureRelays relayUrls (connectTimeoutMs opts)].
Proof. intros Hs. unfold ensureRelaysWithCapCheck, calcRequiredNips. by rewrite Hs. Qed.

(** Relays are asked only what the caller asks.  Every REQ that
    [allEventsIterator] sends goes to a relay that the pool has connected
    and, when the filter has a [search] key, that supports NIP-50; it carries
    the caller's filter unchanged, the caller's [since], and an [until].
    The same holds of [fetchLatestEvents], whose REQs carry no [since].
    Without a [search] key the capability checker is not consulted. *)
Theorem requests_follow_the_call (env : Env) (sched : list nat) :
  (∀ relayUrls fil timeRangeFilter options es it url fil' opts,
     allEventsIterator env relayUrls fil timeRangeFilter options = (es, Ok it) →
     FetchTillEose url fil' opts
       ∈ effects (AllEvents.state (AllEvents.advance env sched it)).2 →
     url ∈ ensureRelays env relayUrls (connectTimeoutMs (filledOptsOf options))
     ∧ (is_Some (search fil) → relaySupportsNips env url [50%Z] = true)
     ∧ f_rest fil' = fil ∧ since fil' = tr_since timeRangeFilter ∧ is_Some (until fil')
     ∧ (search fil = None → ∀ u nips, RelaySupportsNips u nips ∉ es))
  ∧ (∀ relayUrls fil lim options es res url fil' opts,
       fetchLatestEvents env sched relayUrls fil lim options = (es, Ok res) →
       FetchTillEose url fil' opts ∈ es →
       url ∈ ensureRelays env relayUrls
               (connectTimeoutMs
                  (spreadFetchLatestOptions defaultFetchLatestOptions options))
       ∧ (is_Some (search fil) → relaySupportsNips env url [50%Z] = true)
       ∧ f_rest fil' = fil ∧ since fil' = None ∧ is_Some (until fil')
       ∧ (search fil = None → ∀ u nips, RelaySupportsNips u nips ∉ es)).
Proof.
  split.
  - intros relayUrls fil timeRangeFilter options es it url fil' opts.
    rewrite allEventsIterator_eq. case_match; [done|]. cbv zeta.
    intros [Hes <-]%Ok_pair_inv. unfold AllEvents.advance.
    cbn [AllEvents.state AllEvents.it_filter AllEvents.it_timeRangeFilter
         AllEvents.it_finalOpts].
    set (eligible := eligibleRelayUrlsOf _ _ _ _). intros Hreq.
    edestruct (run_tasks_shared
                 (AllEvents.step env fil timeRangeFilter (finalOptsOf options))
                 (λ w _, AllEvents.rurl w ∈ eligible)
                 (λ g, requestsAll
                         (AllEvents_request eligible fil timeRangeFilter
                            (finalOptsOf options)) (effects g))
                 ltac:(intros w g HQ HR; by apply AllEvents_step_requests)
                 ltac:(done) sched
                 (AllEvents.init (default (currUnixtimeSec env) (tr_until timeRangeFilter))
                    eligible))
      as [Hall _].
    + apply requestsAll_nil.
    + apply Forall_fmap, Forall_forall. by intros u Hu.
    + apply Hall in Hreq as (Hurl & Hfil & Hsince & Huntil & _).
      apply eligibleRelayUrlsOf_elem in Hurl as [Hconn Hnip].
      split_and!; try done.
      intros Hs u nips Hin. subst es.
      rewrite ensureRelaysWithCapCheck_no_search in Hin by done.
      apply elem_of_app in Hin as [Hin|Hin%list_elem_of_singleton]; [|done].
      unfold warnIfEmpty in Hin. destruct relayUrls; [|by apply elem_of_nil in Hin].
      by apply list_elem_of_singleton in Hin.
  - intros relayUrls fil lim options es res url fil' opts.
    rewrite fetchLatestEvents_eq. case_match; [|done]. cbv zeta.
    intros [Hes _]%Ok_pair_inv. unfold fetchLatestState in Hes.
    set (finalOpts := spreadFetchLatestOptions _ options) in *.
    set (eligible := eligibleRelayUrlsOf _ _ _ _) in *.
    edestruct (run_tasks_shared (Latest.step env fil finalOpts)
                 (λ w _, Latest.rurl w ∈ eligible)
                 (λ g, requestsAll (Latest_request eligible fil finalOpts) (effects g))
                 ltac:(intros w g HQ HR; by apply Latest_step_requests)
                 ltac:(done) sched
                 (Latest.init (currUnixtimeSec env) lim eligible))
      as [Hall _].
    + apply requestsAll_nil.
    + apply Forall_fmap, Forall_forall. by intros u Hu.
    + intros Hreq.
      assert (∀ u nips, search fil = None → RelaySupportsNips u nips ∉ es) as Hcap.
      { intros u nips Hs Hin. subst es.
        rewrite ensureRelaysWithCapCheck_no_search in Hin by done.
        apply elem_of_app in Hin as [Hin|Hin].
        - unfold warnIfEmpty in Hin. destruct relayUrls; [|by apply elem_of_nil in Hin].
          by apply list_elem_of_singleton in Hin.
        - apply elem_of_cons in Hin as [Hin|Hin]; [done|].
          pose proof (run_shared (Latest.step env fil finalOpts)
                        (λ g, onlyRequests (effects g))
                        ltac:(intros; by apply Latest_step_onlyRequests) sched
                        (Latest.init (currUnixtimeSec env) lim eligible)
                        ltac:(constructor)) as Honly.
          eapply Forall_forall in Honly; [|exact Hin]. done. }
      assert (FetchTillEose url fil' opts ∈ effects
                (run (Latest.step env fil finalOpts) sched
                   (Latest.init (currUnixtimeSec env) lim eligible)).2) as Hreq'.
      { subst es. apply elem_of_app in Hreq as [Hin|Hin].
        - unfold warnIfEmpty in Hin. destruct relayUrls; [|by apply elem_of_nil in Hin].
          by apply list_elem_of_singleton in Hin.
        - apply elem_of_app in Hin as [Hin|Hin]; [|done].
          unfold ensureRelaysWithCapCheck in Hin.
          destruct (calcRequiredNips fil); simpl in Hin.
          + by apply list_elem_of_singleton in Hin.
          + rewrite app_nil_r in Hin.
            apply elem_of_cons in Hin as [Hin|Hin]; [done|].
            by apply list_elem_of_fmap in Hin as (? & [=] & _). }
      apply Hall in Hreq' as (Hurl & Hfil & Hsince & Huntil & _).
      apply eligibleRelayUrlsOf_elem in Hurl as [Hconn Hnip].
      split_and!; try done. intros Hs u nips. by apply Hcap.
Qed.

Lemma requests_follow_the_call_witness :
  ∃ es it fil' opts,
    allEventsIterator demoEnv demoRelays emptyFetchFilter noTimeRange
      noAllEventsIterOptions = (es, Ok it)
    ∧ FetchTillEose "wss://r1" fil' opts
        ∈ effects (AllEvents.state (AllEvents.advance demoEnv [0] it)).2
    ∧ "wss://r1" ∈ demoRelays
    ∧ f_rest fil' = emptyFetchFilter.
Proof.
  eexists _, _, _, _. split; [vm_compute; reflexivity|].
  split; [vm_compute; apply list_elem_of_here|].
  edestruct (proj1 (requests_follow_the_call demoEnv [0]) demoRelays emptyFetchFilter
               noTimeRange noAllEventsIterOptions)
    as (Hurl & _ & Hfil & _);
    [vm_compute; reflexivity|vm_compute; apply list_elem_of_here|].
  split; [exact Hurl|exact Hfil].
Defined.

(* ===================================================================== *)
(** * Where delivered events come from *)
(* ===================================================================== *)

Section Scheduler_apart.
Context {W G : Type} (step : W → G → W * G).

(** Tasks [i] and [j] of a state stand in the relation [D] whenever they are
    two tasks. *)
Definition apart (D : W → W → Prop) (ws : list W) : Prop :=
  ∀ i j w w', i ≠ j → ws !! i = Some w → ws !! j = Some w' → D w w'.

(** An invariant given task by task, where the step of a task has to keep
    the invariant of another task only if the two stand in [D]. *)
Lemma run_tasks_apart (D : W → W → Prop) (R : W → G → Prop) (Q : G → Prop) :
  (∀ w w' g, D w w' → D (step w g).1 w') →
  (∀ w w' g, D w' w → D w' (step w g).1) →
  (∀ w g, Q g → R w g → Q (step w g).2 ∧ R (step w g).1 (step w g).2) →
  (∀ w w' g, D w w' → Q g → R w g → R w' g → R w' (step w g).2) →
  ∀ s st, apart D st.1 → Q st.2 → Forall (λ w, R w st.2) st.1 →
          Q (run step s st).2 ∧ Forall (λ w, R w (run step s st).2) (run step s st).1.
Proof.
  intros HDl HDr Hown Hother s st HD0 HQ0 HR0.
  apply (run_invariant step (λ st, apart D st.1 ∧ Q st.2 ∧ Forall (λ w, R w st.2) st.1));
    [|done].
  clear s st HD0 HQ0 HR0.
  intros i [ws g] (HD & HQ & HR). unfold stepTask. cbn [fst snd] in *.
  destruct (ws !! i) as [w|] eqn:Hi; cbn [fst snd]; [|done].
  assert (i < length ws) as Hlt by (by eapply lookup_lt_Some).
  assert (R w g) as Hw by exact (Forall_lookup_1 _ _ _ _ HR Hi).
  destruct (Hown w g HQ Hw) as [HQ' Hw']. split_and!; [|done|].
  - intros j k wj wk Hjk Hj Hk.
    destruct (decide (j = i)) as [->|Hji], (decide (k = i)) as [->|Hki]; [done|..].
    + rewrite list_lookup_insert_eq in Hj by done. injection Hj as <-.
      rewrite list_lookup_insert_ne in Hk by done. apply HDl. by eapply (HD i k).
    + rewrite list_lookup_insert_eq in Hk by done. injection Hk as <-.
      rewrite list_lookup_insert_ne in Hj by done. apply HDr. by eapply (HD j i).
    + rewrite list_lookup_insert_ne in Hj, Hk by done. by eapply (HD j k).
  - apply Forall_lookup. intros j wj Hj. destruct (decide (j = i)) as [->|Hji].
    + rewrite list_lookup_insert_eq in Hj by done. by injection Hj as <-.
    + rewrite list_lookup_insert_ne in Hj by done.
      eapply Hother; [by eapply (HD i j)|done..|].
      exact (Forall_lookup_1 _ _ _ _ HR Hj).
Qed.

(** Tasks made from a list without repetitions, one from each element, are
    apart when the elements decide [D]. *)
Lemma apart_fmap {K} (f : K → W) (D : W → W → Prop) (ks : list K) :
  (∀ k k', k ≠ k' → D (f k) (f k')) → NoDup ks → apart D (f <$> ks).
Proof.
  intros Hf Hnd i j w w' Hij. rewrite !list_lookup_fmap.
  destruct (ks !! i) as [k|] eqn:Hi; [|done]. destruct (ks !! j) as [k'|] eqn:Hj; [|done].
  simpl. intros [= <-] [= <-]. apply Hf. intros ->.
  apply Hij. by eapply NoDup_lookup.
Qed.
End Scheduler_apart.

(** The sub-requests that a trace sends to the relay [url], in their
    order. *)
Definition requestsTo (url : string) (es : list Effect)
  : list (Filter * FetchTillEoseOptions) :=
  omap (λ eff, match eff with
               | FetchTillEose u fil opts =>
                   if decide (u = url) then Some (fil, opts) else None
               | _ => None
               end) es.

Lemma requestsTo_app url es es' :
  requestsTo url (es ++ es') = requestsTo url es ++ requestsTo url es'.
Proof. apply omap_app. Qed.

Lemma requestsTo_self url fil opts : requestsTo url [FetchTillEose url fil opts] = [(fil, opts)].
Proof. unfold requestsTo. simpl. by rewrite decide_True. Qed.

Lemma requestsTo_other url u fil opts :
  u ≠ url → requestsTo url [FetchTillEose u fil opts] = [].
Proof. intros Hne. unfold requestsTo. simpl. by rewrite decide_False. Qed.

Lemma requestsTo_none url es : Forall (λ eff, isRequest eff = false) es → requestsTo url es = [].
Proof.
  induction 1 as [|eff es Heff _ IH]; [done|].
  change (eff :: es) with ([eff] ++ es). rewrite requestsTo_app, IH.
  by destruct eff.
Qed.

(** What a fetch does before its relay workers start holds no
    sub-request. *)
Definition noRequests (es : list Effect) : Prop := Forall (λ eff, isRequest eff = false) es.

Lemma noRequests_warnIfEmpty {E} (l : list E) msg : noRequests (warnIfEmpty l msg).
Proof. destruct l; simpl; by repeat constructor. Qed.

Lemma noRequests_ensure env relayUrls opts requiredNips :
  noRequests (ensureRelaysWithCapCheck env relayUrls opts requiredNips).1.
Proof.
  unfold ensureRelaysWithCapCheck. destruct requiredNips as [|nip nips]; simpl.
  - by repeat constructor.
  - constructor; [done|]. rewrite app_nil_r. apply Forall_fmap, Forall_true. by intros x.
Qed.

(** Event [e] was yielded by a relay in answer to a sub-request of the
    trace [es]: for some relay and some [n], the [n]-th sub-request that the
    trace sends to the relay (counting from 0) has filter [fil] and options
    [opts], and [e] is among the events that the relay yields for that
    sub-request, the [n]-th of its worker. *)
Definition answered (env : Env) (es : list Effect) (e : NostrEvent) : Prop :=
  ∃ url n fil opts,
    requestsTo url es !! n = Some (fil, opts)
    ∧ e ∈ sub_events (fetchTillEose env url fil opts n).

Lemma answered_app_l env es es' e : answered env es e → answered env (es ++ es') e.
Proof.
  intros (url & n & fil & opts & Hn & He). exists url, n, fil, opts. split; [|done].
  rewrite requestsTo_app. by apply lookup_app_l_Some.
Qed.

Lemma answered_after env es0 es e :
  noRequests es0 → answered env es e → answered env (es0 ++ es) e.
Proof.
  intros Hes0 (url & n & fil & opts & Hn & He). exists url, n, fil, opts. split; [|done].
  by rewrite requestsTo_app, requestsTo_none.
Qed.

(** The answer to the sub-request that a worker sends next. *)
Lemma answered_next env es url reqCount fil opts e :
  length (requestsTo url es) = reqCount →
  e ∈ sub_events (fetchTillEose env url fil opts reqCount) →
  answered env (es ++ [FetchTillEose url fil opts]) e.
Proof.
  intros Hlen He. exists url, reqCount, fil, opts. split; [|done].
  rewrite requestsTo_app, requestsTo_self, <-Hlen. apply list_lookup_middle. done.
Qed.

(** How a step extends the trace: not at all, or by one sub-request to the
    relay [url]. *)
Definition extendedFor (url : string) (es es' : list Effect) : Prop :=
  es' = es ∨ ∃ fil opts, es' = es ++ [FetchTillEose url fil opts].

Lemma extendedFor_answered env url es es' e :
  extendedFor url es es' → answered env es e → answered env es' e.
Proof. intros [->|(fil & opts & ->)]; [done|apply answered_app_l]. Qed.

Lemma extendedFor_requestsTo url url' es es' :
  url ≠ url' → extendedFor url es es' → requestsTo url' es' = requestsTo url' es.
Proof.
  intros Hne [->|(fil & opts & ->)]; [done|].
  by rewrite requestsTo_app, requestsTo_other, app_nil_r.
Qed.

(** The events of the running sub-request that are still to come. *)
Definition pendingOf {V} (p : Phase V) : list NostrEvent :=
  match p with
  | InForAwait pending _ _ => pending
  | _ => []
  end.

Definition fanInAnswered (env : Env) (g : FanIn) : Prop :=
  ∀ e, e ∈ tx g → answered env (effects g) e.

(** A worker and the trace: the sub-requests to the relay of the worker are
    those the worker has counted, and what is still to come of its running
    sub-request was answered. *)
Definition workerAnswered (env : Env) {V} (rurl : string) (reqCount : nat) (p : Phase V)
  (es : list Effect) : Prop :=
  length (requestsTo rurl es) = reqCount
  ∧ ∀ e, e ∈ pendingOf p → answered env es e.

Lemma workerAnswered_other env {V} url url' reqCount (p : Phase V) es es' :
  url ≠ url' → extendedFor url es es' →
  workerAnswered env url' reqCount p es → workerAnswered env url' reqCount p es'.
Proof.
  intros Hne Hext [Hlen Hp]. split.
  - by rewrite (extendedFor_requestsTo url url' es es').
  - intros e He. eapply extendedFor_answered; [done|by apply Hp].
Qed.

Lemma AllEvents_step_answered env fil timeRangeFilter finalOpts w g :
  fanInAnswered env g →
  workerAnswered env (AllEvents.rurl w) (AllEvents.reqCount w) (AllEvents.phase w)
    (effects g) →
  let w' := (AllEvents.step env fil timeRangeFilter finalOpts w g).1 in
  let g' := (AllEvents.step env fil timeRangeFilter finalOpts w g).2 in
  fanInAnswered env g'
  ∧ workerAnswered env (AllEvents.rurl w') (AllEvents.reqCount w') (AllEvents.phase w')
      (effects g')
  ∧ extendedFor (AllEvents.rurl w) (effects g) (effects g')
  ∧ AllEvents.rurl w' = AllEvents.rurl w.
Proof.
  intros Hg [Hlen Hw]. unfold AllEvents.step.
  destruct (AllEvents.phase w) as [|[|e pending] throws vars|] eqn:Hph;
    cbn [pendingOf] in Hw.
  - cbn [fst snd AllEvents.rurl AllEvents.reqCount AllEvents.phase effects tx pendingOf].
    refine (conj _ (conj (conj _ _) (conj _ eq_refl))).
    + intros e He. by apply answered_app_l, Hg.
    + rewrite requestsTo_app, requestsTo_self, length_app, Hlen. simpl. lia.
    + intros e He. by eapply answered_next.
    + right. by eexists _, _.
  - assert (∀ e : NostrEvent, e ∈ [] → answered env (effects g) e) as Hnil
      by (by intros ? ?%elem_of_nil).
    destruct throws; [|destruct (negb _); [|destruct (signalAborted _ _ _ _)]];
      exact (conj Hg (conj (conj Hlen Hnil) (conj (or_introl eq_refl) eq_refl))).
  - assert (∀ e', e' ∈ pending → answered env (effects g) e') as Hp.
    { intros e' He'. by apply Hw, list_elem_of_further. }
    repeat case_decide;
      (refine (conj _ (conj (conj Hlen Hp) (conj (or_introl eq_refl) eq_refl))));
      try exact Hg.
    intros e' [He'| ->%list_elem_of_singleton]%elem_of_app; [by apply Hg|].
    apply Hw, list_elem_of_here.
  - refine (conj Hg (conj (conj Hlen _) (conj (or_introl eq_refl) eq_refl))).
    cbn [fst]. rewrite Hph. by intros ? ?%elem_of_nil.
Qed.

Lemma Latest_step_answered env fil finalOpts w g :
  fanInAnswered env g →
  workerAnswered env (Latest.rurl w) (Latest.reqCount w) (Latest.phase w) (effects g) →
  let w' := (Latest.step env fil finalOpts w g).1 in
  let g' := (Latest.step env fil finalOpts w g).2 in
  fanInAnswered env g'
  ∧ workerAnswered env (Latest.rurl w') (Latest.reqCount w') (Latest.phase w') (effects g')
  ∧ extendedFor (Latest.rurl w) (effects g) (effects g')
  ∧ Latest.rurl w' = Latest.rurl w.
Proof.
  intros Hg [Hlen Hw]. unfold Latest.step.
  destruct (Latest.phase w) as [|[|e pending] throws vars|] eqn:Hph;
    cbn [pendingOf] in Hw.
  - cbn [fst snd Latest.rurl Latest.reqCount Latest.phase effects tx pendingOf].
    refine (conj _ (conj (conj _ _) (conj _ eq_refl))).
    + intros e He. by apply answered_app_l, Hg.
    + rewrite requestsTo_app, requestsTo_self, length_app, Hlen. simpl. lia.
    + intros e He. by eapply answered_next.
    + right. by eexists _, _.
  - assert (∀ e : NostrEvent, e ∈ [] → answered env (effects g) e) as Hnil
      by (by intros ? ?%elem_of_nil).
    destruct throws; [|destruct (_ || _); [|destruct (signalAborted _ _ _ _)]];
      exact (conj Hg (conj (conj Hlen Hnil) (conj (or_introl eq_refl) eq_refl))).
  - assert (∀ e', e' ∈ pending → answered env (effects g) e') as Hp.
    { intros e' He'. by apply Hw, list_elem_of_further. }
    repeat case_decide;
      (refine (conj _ (conj (conj Hlen Hp) (conj (or_introl eq_refl) eq_refl))));
      try exact Hg.
    intros e' [He'| ->%list_elem_of_singleton]%elem_of_app; [by apply Hg|].
    apply Hw, list_elem_of_here.
  - refine (conj Hg (conj (conj Hlen _) (conj (or_introl eq_refl) eq_refl))).
    cbn [fst]. rewrite Hph. by intros ? ?%elem_of_nil.
Qed.

Lemma AllEvents_run_answered env fil timeRangeFilter finalOpts sched initialUntil eligible :
  NoDup eligible →
  fanInAnswered env
    (run (AllEvents.step env fil timeRangeFilter finalOpts) sched
       (AllEvents.init initialUntil eligible)).2.
Proof.
  intros Hnd.
  edestruct (run_tasks_apart (AllEvents.step env fil timeRangeFilter finalOpts)
               (λ w w', AllEvents.rurl w ≠ AllEvents.rurl w')
               (λ w g, workerAnswered env (AllEvents.rurl w) (AllEvents.reqCount w)
                         (AllEvents.phase w) (effects g))
               (fanInAnswered env)) as [Hall _]; [| | | | | | |exact Hall].
  - intros w w' g HD. unfold AllEvents.step.
    destruct (AllEvents.phase w) as [|[|e pending] throws vars|]; simpl; try done;
      repeat case_match; done.
  - intros w w' g HD. unfold AllEvents.step.
    destruct (AllEvents.phase w) as [|[|e pending] throws vars|]; simpl; try done;
      repeat case_match; done.
  - intros w g HQ HR.
    destruct (AllEvents_step_answered env fil timeRangeFilter finalOpts w g HQ HR)
      as (? & ? & ?). done.
  - intros w w' g HD HQ HR HR'.
    destruct (AllEvents_step_answered env fil timeRangeFilter finalOpts w g HQ HR)
      as (_ & _ & Hext & _).
    by eapply workerAnswered_other.
  - by apply apart_fmap.
  - by intros e ?%elem_of_nil.
  - apply Forall_fmap, Forall_forall. intros u _. split; [done|].
    simpl. by intros e ?%elem_of_nil.
Qed.

Lemma Latest_run_answered env fil finalOpts sched initialUntil lim eligible :
  NoDup eligible →
  fanInAnswered env
    (run (Latest.step env fil finalOpts) sched (Latest.init initialUntil lim eligible)).2.
Proof.
  intros Hnd.
  edestruct (run_tasks_apart (Latest.step env fil finalOpts)
               (λ w w', Latest.rurl w ≠ Latest.rurl w')
               (λ w g, workerAnswered env (Latest.rurl w) (Latest.reqCount w)
                         (Latest.phase w) (effects g))
               (fanInAnswered env)) as [Hall _]; [| | | | | | |exact Hall].
  - intros w w' g HD. unfold Latest.step.
    destruct (Latest.phase w) as [|[|e pending] throws vars|]; simpl; try done;
      repeat case_match; done.
  - intros w w' g HD. unfold Latest.step.
    destruct (Latest.phase w) as [|[|e pending] throws vars|]; simpl; try done;
      repeat case_match; done.
  - intros w g HQ HR.
    destruct (Latest_step_answered env fil finalOpts w g HQ HR) as (? & ? & ?). done.
  - intros w w' g HD HQ HR HR'.
    destruct (Latest_step_answered env fil finalOpts w g HQ HR) as (_ & _ & Hext & _).
    by eapply workerAnswered_other.
  - by apply apart_fmap.
  - by intros e ?%elem_of_nil.
  - apply Forall_fmap, Forall_forall. intros u _. split; [done|].
    simpl. by intros e ?%elem_of_nil.
Qed.

(** The same for the per-author fetch, where an event is also kept under
    the key of its author: [e] is an event of author [pk] that a relay
    yielded. *)
Definition ownedBy (env : Env) (es : list Effect) (pk : string) (e : NostrEvent) : Prop :=
  pubkey e = pk ∧ answered env es e.

Lemma ownedBy_mono env url es es' pk e :
  extendedFor url es es' → ownedBy env es pk e → ownedBy env es' pk e.
Proof. intros Hext [Hpk Ha]. split; [done|]. by eapply extendedFor_answered. Qed.

Definition bucketsOwned (env : Env) (es : list Effect) (b : EventBuckets.t) : Prop :=
  ∀ k bucket e,
    EventBuckets.buckets b !! k = Some bucket → e ∈ bucket → ownedBy env es k e.

Definition latchesOwned (env : Env) (es : list Effect)
  (latches : KeyRelayMatrix.t (option (list NostrEvent))) : Prop :=
  ∀ pk rurl evs e,
    latches !! (pk, rurl) = Some (Some evs) → e ∈ evs → ownedBy env es pk e.

Definition recordsOwned (env : Env) (es : list Effect) (records : list PerAuthor.AuthorEvents)
  : Prop :=
  ∀ r e, r ∈ records → e ∈ PerAuthor.events r → ownedBy env es (PerAuthor.author r) e.

Definition sharedOwned (env : Env) (g : PerAuthor.Shared) : Prop :=
  latchesOwned env (PerAuthor.effects g) (PerAuthor.latches g)
  ∧ recordsOwned env (PerAuthor.effects g) (PerAuthor.tx g).

Definition taskOwned (env : Env) (t : PerAuthor.Task) (g : PerAuthor.Shared) : Prop :=
  match t with
  | PerAuthor.Fetcher w =>
      bucketsOwned env (PerAuthor.effects g) (PerAuthor.evBucketsPerAuthor w)
      ∧ workerAnswered env (PerAuthor.rurl w) (PerAuthor.reqCount w) (PerAuthor.phase w)
          (PerAuthor.effects g)
  | PerAuthor.Merger _ _ => True
  end.

Lemma bucketsOwned_mono env url es es' b :
  extendedFor url es es' → bucketsOwned env es b → bucketsOwned env es' b.
Proof. intros Hext Hb k bucket e Hk He. eapply ownedBy_mono; [done|by eapply Hb]. Qed.

Lemma latchesOwned_mono env url es es' l :
  extendedFor url es es' → latchesOwned env es l → latchesOwned env es' l.
Proof. intros Hext Hl pk rurl evs e Hk He. eapply ownedBy_mono; [done|by eapply Hl]. Qed.

Lemma recordsOwned_mono env url es es' rs :
  extendedFor url es es' → recordsOwned env es rs → recordsOwned env es' rs.
Proof. intros Hext Hr r e Hin He. eapply ownedBy_mono; [done|by eapply Hr]. Qed.

Lemma add_owned env es b key ev :
  bucketsOwned env es b → ownedBy env es key ev →
  bucketsOwned env es (EventBuckets.add b key ev).1
  ∧ ∀ evs e, EventBuckets.events (EventBuckets.add b key ev).2 = Some evs → e ∈ evs →
             ownedBy env es key e.
Proof.
  intros Hb Hev. unfold EventBuckets.add.
  destruct (EventBuckets.buckets b !! key) as [bucket|] eqn:Hk; [|done].
  case_match; [done|].
  assert (∀ e, e ∈ bucket ++ [ev] → ownedBy env es key e) as Hnew.
  { intros e [He| ->%list_elem_of_singleton]%elem_of_app; [by eapply Hb|done]. }
  assert (bucketsOwned env es
            {| EventBuckets.buckets := <[key := bucket ++ [ev]]> (EventBuckets.buckets b);
               EventBuckets.limitPerKey := EventBuckets.limitPerKey b |}) as Hb'.
  { intros k bk e. simpl. destruct (decide (key = k)) as [->|Hne].
    - rewrite lookup_insert_eq. intros [= <-]. apply Hnew.
    - rewrite lookup_insert_ne by done. apply Hb. }
  case_match; simpl; (split; [done|]); [|done].
  intros evs e [= <-]. apply Hnew.
Qed.

Lemma resolve_owned env es latches pk rurl evs :
  latchesOwned env es latches → (∀ e, e ∈ evs → ownedBy env es pk e) →
  latchesOwned env es (PerAuthor.resolve latches pk rurl evs).
Proof.
  intros Hl Hevs pk' rurl' evs' e. rewrite resolve_lookup.
  destruct (latches !! (pk', rurl')) as [[v|]|] eqn:Hk.
  - intros [= <-]. by eapply Hl.
  - case_decide as Heq; [|done]. injection Heq as -> ->. intros [= <-]. apply Hevs.
  - done.
Qed.

Lemma resolveAllOnEarlyBreak_owned env es w latches :
  latchesOwned env es latches →
  bucketsOwned env es (PerAuthor.evBucketsPerAuthor w) →
  latchesOwned env es (PerAuthor.resolveAllOnEarlyBreak w latches).
Proof.
  intros Hl Hb. unfold PerAuthor.resolveAllOnEarlyBreak.
  revert latches Hl. induction (PerAuthor.authors w) as [|pk pks IH]; intros latches Hl;
    [done|].
  simpl. apply IH, resolve_owned; [done|].
  intros e. unfold EventBuckets.getBucket.
  destruct (EventBuckets.buckets _ !! pk) as [bucket|] eqn:Hk; simpl.
  - by apply Hb.
  - by intros ?%elem_of_nil.
Qed.

(** The merge of the merger holds only events of the lists it merges. *)
Lemma evsDeduped_elem evsPerRelay e :
  e ∈ PerAuthor.evsDeduped evsPerRelay → e ∈ concat evsPerRelay.
Proof.
  unfold PerAuthor.evsDeduped.
  set (f := λ (acc : list NostrEvent * gset string) ev, _).
  assert (∀ evs acc, e ∈ (foldl f acc evs).1 → e ∈ acc.1 ∨ e ∈ evs) as Hfold.
  { induction evs as [|ev evs IH]; intros acc; simpl; [by left|].
    intros [He|He]%IH; [|right; by apply list_elem_of_further].
    unfold f in He. case_decide; [by left|]. simpl in He.
    apply elem_of_app in He as [He| ->%list_elem_of_singleton]; [by left|].
    right. apply list_elem_of_here. }
  intros [He|He]%Hfold; [by apply elem_of_nil in He|done].
Qed.

Lemma recordOf_owned env es lim finalOpts latches pk evsPerRelay e :
  (0 < lim)%Z →
  latchesOwned env es latches →
  mapM (λ d : option (list NostrEvent), d)
       (default [] (KeyRelayMatrix.itemsByKey latches pk)) = Some evsPerRelay →
  e ∈ PerAuthor.events (PerAuthor.recordOf env lim finalOpts pk evsPerRelay) →
  ownedBy env es pk e.
Proof.
  intros Hlim Hl Hm He. simpl in He.
  eapply sublist_subseteq in He; [|by apply latestOf_sublist].
  rewrite sortBy_Permutation in He. apply evsDeduped_elem in He.
  apply list_elem_of_In, in_concat in He as (evs & Hevs & He).
  apply list_elem_of_In in Hevs, He.
  apply mapM_Some_1 in Hm.
  apply list_elem_of_lookup_1 in Hevs as [i Hi].
  eapply Forall2_lookup_r in Hm as (d & Hd & Heq); [|exact Hi]. subst d.
  apply list_elem_of_lookup_2, itemsByKey_elem in Hd as [rurl Hr].
  by eapply Hl.
Qed.

(** How the step of a task extends the trace. *)
Definition taskExtended (t : PerAuthor.Task) (es es' : list Effect) : Prop :=
  match t with
  | PerAuthor.Fetcher w => extendedFor (PerAuthor.rurl w) es es'
  | PerAuthor.Merger _ _ => es' = es
  end.

(** Two fetchers work on two relays. *)
Definition fetchersApart (t t' : PerAuthor.Task) : Prop :=
  match t, t' with
  | PerAuthor.Fetcher w, PerAuthor.Fetcher w' => PerAuthor.rurl w ≠ PerAuthor.rurl w'
  | _, _ => True
  end.

Lemma PerAuthor_step_owned env otherFilter lim finalOpts t g :
  (0 < lim)%Z →
  sharedOwned env g → taskOwned env t g →
  let t' := (PerAuthor.step env otherFilter lim finalOpts t g).1 in
  let g' := (PerAuthor.step env otherFilter lim finalOpts t g).2 in
  sharedOwned env g' ∧ taskOwned env t' g'
  ∧ taskExtended t (PerAuthor.effects g) (PerAuthor.effects g').
Proof.
  intros Hlim [Hl Hr] Ht. destruct t as [w|pk [|]];
    cbn [PerAuthor.step fst snd taskExtended].
  - destruct Ht as [Hb [Hlen Hp]]. unfold PerAuthor.stepFetcher.
    destruct (PerAuthor.phase w) as [|[|e pending] throws vars|] eqn:Hph;
      cbn [pendingOf] in Hp.
    + destruct (EventBuckets.calcKeysAndLimitForNextReq (PerAuthor.evBucketsPerAuthor w))
        as [[|a nextAuthors] nextLimit];
        cbn [fst snd PerAuthor.effects PerAuthor.latches PerAuthor.tx PerAuthor.phase
             PerAuthor.rurl PerAuthor.reqCount PerAuthor.evBucketsPerAuthor taskOwned
             sharedOwned pendingOf].
      * refine (conj (conj Hl Hr) (conj (conj Hb (conj Hlen _)) _)); [|by left].
        by intros ? ?%elem_of_nil.
      * assert (extendedFor (PerAuthor.rurl w) (PerAuthor.effects g)
                  (PerAuthor.effects g ++
                     [FetchTillEose (PerAuthor.rurl w)
                        (PerAuthor.refinedFilter otherFilter w (a :: nextAuthors) nextLimit)
                        (asFetchTillEoseOptions (subOptsOf finalOpts))])) as Hext.
        { right. by eexists _, _. }
        refine (conj (conj _ _) (conj (conj _ (conj _ _)) Hext)).
        -- by eapply latchesOwned_mono.
        -- by eapply recordsOwned_mono.
        -- by eapply bucketsOwned_mono.
        -- rewrite requestsTo_app, requestsTo_self, length_app, Hlen. simpl. lia.
        -- intros e He. by eapply answered_next.
    + assert (latchesOwned env (PerAuthor.effects g)
                (PerAuthor.resolveAllOnEarlyBreak w (PerAuthor.latches g))) as Hl'
        by (by apply resolveAllOnEarlyBreak_owned).
      destruct throws; [|destruct (negb _); [|destruct (signalAborted _ _ _ _)]];
        simpl; (split_and!; [done..| |by left]); try done; by intros ? ?%elem_of_nil.
    + assert (∀ e', e' ∈ pending → answered env (PerAuthor.effects g) e') as Hp'.
      { intros e' He'. by apply Hp, list_elem_of_further. }
      case_decide; [simpl; split_and!; try done; by left|].
      assert (ownedBy env (PerAuthor.effects g) (pubkey e) e) as He.
      { split; [done|]. apply Hp, list_elem_of_here. }
      destruct (add_owned env (PerAuthor.effects g) (PerAuthor.evBucketsPerAuthor w)
                  (pubkey e) e Hb He) as [Hb' Hevs].
      destruct (EventBuckets.state _) eqn:Hst; simpl;
        (refine (conj (conj _ Hr) (conj (conj Hb' (conj Hlen Hp')) _)); [|by left]);
        try exact Hl.
      apply resolve_owned; [done|].
      intros e'. destruct (EventBuckets.events _) as [evs|] eqn:Hev; simpl.
      * by apply Hevs.
      * by intros ?%elem_of_nil.
    + simpl. refine (conj (conj Hl Hr) (conj (conj Hb (conj Hlen _)) _)); [|by left].
      rewrite Hph. exact Hp.
  - done.
  - unfold PerAuthor.stepMerger. case_match eqn:Hm; simpl;
      [|by refine (conj (conj Hl Hr) (conj I _))].
    refine (conj (conj Hl _) (conj I _)); [|done].
    intros r e [Hin| ->%list_elem_of_singleton]%elem_of_app; [by apply Hr|].
    intros He. eapply recordOf_owned; [exact Hlim|exact Hl|exact Hm|exact He].
Qed.

Lemma PerAuthor_step_fetchersApart env otherFilter lim finalOpts t t' g :
  (fetchersApart t t' → fetchersApart (PerAuthor.step env otherFilter lim finalOpts t g).1 t')
  ∧ (fetchersApart t' t
     → fetchersApart t' (PerAuthor.step env otherFilter lim finalOpts t g).1).
Proof.
  pose proof (PerAuthor_step_taskKey env otherFilter lim finalOpts t g) as Hkey.
  destruct (PerAuthor.step env otherFilter lim finalOpts t g).1 as [w1|pk1 s1],
    t as [w|pk s]; try done; simpl in Hkey; injection Hkey as Hurl _.
  split; destruct t' as [w'|]; simpl; try done; by rewrite Hurl.
Qed.

(** A [Map] holds a key once. *)
Lemma JsMap_set_keys {V} (m : JsMap.t V) k v k' :
  k' ∈ JsMap.keys (JsMap.set m k v) ↔ k' ∈ JsMap.keys m ∨ k' = k.
Proof.
  unfold JsMap.keys. induction m as [|[k0 v0] m IH]; simpl.
  - rewrite list_elem_of_singleton. split; [by right|]. by intros [?%elem_of_nil|].
  - case_decide as Hk; simpl; rewrite !elem_of_cons; [subst; tauto|].
    rewrite IH. tauto.
Qed.

Lemma JsMap_set_NoDup {V} (m : JsMap.t V) k v :
  NoDup (JsMap.keys m) → NoDup (JsMap.keys (JsMap.set m k v)).
Proof.
  induction m as [|[k0 v0] m IH]; simpl.
  - intros _. apply NoDup_singleton.
  - intros [Hk0 Hnd]%NoDup_cons. case_decide as Hk; simpl.
    + by apply NoDup_cons.
    + apply NoDup_cons. split; [|by apply IH].
      intros [Hin| ->]%JsMap_set_keys; done.
Qed.

Lemma JsMap_new_NoDup {V} (entries : list (string * V)) : NoDup (JsMap.keys (JsMap.new entries)).
Proof.
  unfold JsMap.new.
  assert (∀ acc : JsMap.t V,
            NoDup (JsMap.keys acc) →
            NoDup (JsMap.keys (foldl (λ m kv, JsMap.set m kv.1 kv.2) acc entries))) as Hfold.
  { induction entries as [|[k v] entries IH]; intros acc Hacc; simpl; [done|].
    by apply IH, JsMap_set_NoDup. }
  apply Hfold, NoDup_nil_2.
Qed.

Lemma mapAvailableRelayToAuthors_NoDup env a2rs opts nips es ra :
  mapAvailableRelayToAuthors env a2rs opts nips = (es, Ok ra) → NoDup (JsMap.keys ra.1).
Proof.
  destruct a2rs as [authors relayUrls|a2rsArr|isObject];
    unfold mapAvailableRelayToAuthors; [| |by destruct isObject].
  - intros (es1 & [] & _ & _ & Hk)%bind_Ok. cbv beta zeta in Hk.
    rewrite ensureRelaysWithCapCheck_pair, bind_Ok_eq in Hk.
    unfold ret in Hk. cbn [fst snd] in Hk. injection Hk as <-. apply JsMap_new_NoDup.
  - intros (es1 & [] & _ & _ & Hk)%bind_Ok. cbv beta zeta in Hk.
    rewrite ensureRelaysWithCapCheck_pair, bind_Ok_eq in Hk.
    cbn [fst snd] in Hk. destruct (mapM _ _); unfold ret, throw in Hk;
      cbn [fst snd] in Hk; [|done].
    injection Hk as <-. apply JsMap_new_NoDup.
Qed.

Lemma PerAuthor_init_apart initialUntil lim relayToAuthors allAuthors :
  NoDup (JsMap.keys relayToAuthors) →
  apart fetchersApart (PerAuthor.init initialUntil lim relayToAuthors allAuthors).1.
Proof.
  intros Hnd i j t t' Hij. unfold PerAuthor.init. cbn [fst].
  intros Hi Hj.
  apply lookup_app_Some in Hi as [Hi|[_ Hi]]; apply lookup_app_Some in Hj as [Hj|[_ Hj]];
    apply list_lookup_fmap_Some_1 in Hi as (x & -> & Hi);
    apply list_lookup_fmap_Some_1 in Hj as (y & -> & Hj); try done.
  simpl. intros Heq. apply Hij. eapply NoDup_lookup; [exact Hnd| |].
  - unfold JsMap.keys. by apply list_lookup_fmap_Some_2.
  - unfold JsMap.keys. rewrite Heq. by apply list_lookup_fmap_Some_2.
Qed.

Lemma PerAuthor_run_owned env otherFilter lim finalOpts sched initialUntil relayToAuthors
    allAuthors :
  (0 < lim)%Z → NoDup (JsMap.keys relayToAuthors) →
  sharedOwned env
    (run (PerAuthor.step env otherFilter lim finalOpts) sched
       (PerAuthor.init initialUntil lim relayToAuthors allAuthors)).2.
Proof.
  intros Hlim Hnd.
  edestruct (run_tasks_apart (PerAuthor.step env otherFilter lim finalOpts) fetchersApart
               (taskOwned env) (sharedOwned env)) as [Hall _]; [| | | | | | |exact Hall].
  - intros t t' g. apply PerAuthor_step_fetchersApart.
  - intros t t' g. apply PerAuthor_step_fetchersApart.
  - intros t g HQ HR.
    destruct (PerAuthor_step_owned env otherFilter lim finalOpts t g Hlim HQ HR)
      as (? & ? & ?). done.
  - intros t t' g HD HQ HR HR'.
    destruct (PerAuthor_step_owned env otherFilter lim finalOpts t g Hlim HQ HR)
      as (_ & _ & Hext).
    destruct t' as [w'|]; [|done]. destruct HR' as [Hb Hw'].
    destruct t as [w|pk s]; cbn [taskExtended] in Hext.
    + split; [by eapply bucketsOwned_mono|by eapply workerAnswered_other].
    + cbn [taskOwned]. by rewrite Hext.
  - by apply PerAuthor_init_apart.
  - split.
    + intros pk rurl evs e. rewrite matrix_lookup. simpl. intros Hk.
      apply elem_of_list_to_map_2, list_elem_of_bind in Hk as (ra & Hk & _).
      by apply list_elem_of_fmap in Hk as (? & [=] & _).
    + by intros r e ?%elem_of_nil.
  - simpl. apply Forall_app. split; apply Forall_fmap, Forall_forall; [|done].
    intros ra _. simpl. split; [|split; [done|by intros e ?%elem_of_nil]].
    intros k bucket e. rewrite new_lookup. case_decide; [|done].
    intros [= <-]. by intros ?%elem_of_nil.
Qed.

(** Nothing is made up.  Let the pool report every connected relay once.
    Then every event that [allEventsIterator] delivers, and every event that
    [fetchAllEvents] or [fetchLatestEvents] resolves to, was yielded by a
    relay in answer to one of the sub-requests of that fetch: to the [n]-th
    sub-request that the fetch has sent to the relay, with the filter and the
    options of that sub-request.  The same holds of every event in a record
    of [fetchLatestEventsPerAuthor], whose relays are the keys of a [Map]. *)
Theorem delivered_events_were_answered (env : Env) (sched : list nat) :
  (∀ relayUrls fil timeRangeFilter options es it e,
     allEventsIterator env relayUrls fil timeRangeFilter options = (es, Ok it) →
     NoDup (eligibleRelayUrlsOf env relayUrls (filledOptsOf options) (calcRequiredNips fil)) →
     e ∈ AllEvents.delivered (AllEvents.advance env sched it) →
     answered env (effects (AllEvents.state (AllEvents.advance env sched it)).2) e)
  ∧ (∀ relayUrls fil timeRangeFilter options es res e,
       fetchAllEvents env sched relayUrls fil timeRangeFilter options = (es, Ok (Some res)) →
       NoDup (eligibleRelayUrlsOf env relayUrls
                (filledOptsOf (fetchAllIterOptions options)) (calcRequiredNips fil)) →
       e ∈ res → answered env es e)
  ∧ (∀ relayUrls fil lim options es res e,
       fetchLatestEvents env sched relayUrls fil lim options = (es, Ok (Some res)) →
       NoDup (eligibleRelayUrlsOf env relayUrls
                (spreadFetchLatestOptions defaultFetchLatestOptions options)
                (calcRequiredNips fil)) →
       e ∈ res → answered env es e)
  ∧ (∀ authorsAndRelays otherFilter lim options es it r e,
       fetchLatestEventsPerAuthor env authorsAndRelays otherFilter lim options
       = (es, Ok it) →
       r ∈ PerAuthor.delivered (PerAuthor.advance env sched it) →
       e ∈ PerAuthor.events r →
       answered env (PerAuthor.effects (PerAuthor.state (PerAuthor.advance env sched it)).2)
         e).
Proof.
  split_and!.
  - intros relayUrls fil timeRangeFilter options es it e.
    rewrite allEventsIterator_eq. case_match; [done|]. cbv zeta.
    intros [_ <-]%Ok_pair_inv Hnd.
    unfold AllEvents.delivered, AllEvents.advance.
    cbn [AllEvents.state AllEvents.it_filter AllEvents.it_timeRangeFilter
         AllEvents.it_finalOpts].
    by apply AllEvents_run_answered.
  - intros relayUrls fil timeRangeFilter options es res e.
    rewrite fetchAllEvents_eq. case_match; [done|]. cbv zeta.
    unfold fetchAllState. case_match; [|done]. intros [<- Hres]%Ok_pair_inv Hnd He.
    apply answered_after; [apply noRequests_warnIfEmpty|].
    apply answered_after;
      [apply Forall_app; split; [apply noRequests_warnIfEmpty|apply noRequests_ensure]|].
    apply AllEvents_run_answered; [done|].
    injection Hres as <-.
    destruct (default false (sort_opt options));
      [rewrite sortBy_Permutation in He|]; exact He.
  - intros relayUrls fil lim options es res e.
    rewrite fetchLatestEvents_eq. case_match eqn:Hlim; [|done]. apply Z.ltb_lt in Hlim.
    cbv zeta. unfold fetchLatestState. case_match; [|done].
    intros [<- Hres]%Ok_pair_inv Hnd He. injection Hres as <-.
    apply answered_after; [apply noRequests_warnIfEmpty|].
    apply answered_after; [apply noRequests_ensure|].
    apply Latest_run_answered; [done|].
    eapply sublist_subseteq in He; [|by apply latestOf_sublist].
    by rewrite sortBy_Permutation in He.
  - intros authorsAndRelays otherFilter lim options es it r e.
    rewrite fetchLatestEventsPerAuthor_eq. case_match eqn:Hlim; [|done].
    apply Z.ltb_lt in Hlim. cbv zeta.
    destruct (mapAvailableRelayToAuthors _ _ _ _) as [es' [ra|err]] eqn:Hmap; [|done].
    apply mapAvailableRelayToAuthors_NoDup in Hmap.
    intros [_ <-]%Ok_pair_inv. unfold PerAuthor.delivered, PerAuthor.advance.
    cbn [PerAuthor.state PerAuthor.it_otherFilter PerAuthor.it_limit
         PerAuthor.it_finalOpts].
    intros Hr He.
    by eapply (PerAuthor_run_owned env otherFilter lim _ sched _ ra.1 ra.2 Hlim Hmap).
Qed.

Lemma delivered_events_were_answered_witness :
  ∃ es res,
    fetchAllEvents demoEnv demoSched demoRelays emptyFetchFilter noTimeRange
      noFetchAllOptions = (es, Ok (Some res))
    ∧ mkEvent "a" "bob" 80 ∈ res
    ∧ answered demoEnv es (mkEvent "a" "bob" 80).
Proof.
  eexists _, _. split; [vm_compute; reflexivity|].
  assert (mkEvent "a" "bob" 80
            ∈ [mkEvent "c" "alice" 100; mkEvent "b" "alice" 90; mkEvent "a" "bob" 80])
    as Hin by (do 2 apply list_elem_of_further; apply list_elem_of_here).
  split; [exact Hin|].
  eapply (proj1 (proj2 (delivered_events_were_answered demoEnv demoSched)) demoRelays
            emptyFetchFilter noTimeRange noFetchAllOptions);
    [vm_compute; reflexivity|apply (bool_decide_unpack _); vm_compute; reflexivity|exact Hin].
Defined.

(** No event is attributed to the wrong author: whatever the relays answer,
    every event in the record that [fetchLatestEventsPerAuthor] yields for an
    author has that author as its [pubkey]; so has the event, if any, that
    [fetchLastEventPerAuthor] yields for the author. *)
Theorem records_hold_the_authors_events (env : Env) (sched : list nat)
    (authorsAndRelays : AuthorsAndRelays) (otherFilter : FetchFilter) :
  (∀ lim options es it r e,
     fetchLatestEventsPerAuthor env authorsAndRelays otherFilter lim options
     = (es, Ok it) →
     r ∈ PerAuthor.delivered (PerAuthor.advance env sched it) →
     e ∈ PerAuthor.events r → pubkey e = PerAuthor.author r)
  ∧ (∀ options es it r e,
       fetchLastEventPerAuthor env authorsAndRelays otherFilter options = (es, Ok it) →
       r ∈ LastPerAuthor.mapped (PerAuthor.delivered (PerAuthor.advance env sched it)) →
       LastPerAuthor.event r = Some e → pubkey e = LastPerAuthor.author r).
Proof.
  assert (∀ lim options es it r e,
            fetchLatestEventsPerAuthor env authorsAndRelays otherFilter lim options
            = (es, Ok it) →
            r ∈ PerAuthor.delivered (PerAuthor.advance env sched it) →
            e ∈ PerAuthor.events r → pubkey e = PerAuthor.author r) as Hlatest.
  { intros lim options es it r e.
    rewrite fetchLatestEventsPerAuthor_eq. case_match eqn:Hlim; [|done].
    apply Z.ltb_lt in Hlim. cbv zeta.
    destruct (mapAvailableRelayToAuthors _ _ _ _) as [es' [ra|err]] eqn:Hmap; [|done].
    apply mapAvailableRelayToAuthors_NoDup in Hmap.
    intros [_ <-]%Ok_pair_inv. unfold PerAuthor.delivered, PerAuthor.advance.
    cbn [PerAuthor.state PerAuthor.it_otherFilter PerAuthor.it_limit
         PerAuthor.it_finalOpts].
    intros Hr He.
    by eapply (PerAuthor_run_owned env otherFilter lim _ sched _ ra.1 ra.2 Hlim Hmap). }
  split; [exact Hlatest|].
  intros options es it r e Hit. unfold LastPerAuthor.mapped.
  intros (r' & -> & Hr')%list_elem_of_fmap. simpl. intros Hhead.
  eapply Hlatest; [exact Hit|exact Hr'|].
  destruct (PerAuthor.events r'); [done|]. injection Hhead as ->. apply list_elem_of_here.
Qed.

Lemma records_hold_the_authors_events_witness :
  ∃ es it,
    fetchLatestEventsPerAuthor demoEnv demoAuthors emptyFetchFilter 1 noFetchLatestOptions
    = (es, Ok it)
    ∧ {| PerAuthor.author := "bob"; PerAuthor.events := [mkEvent "a" "bob" 80] |}
        ∈ PerAuthor.delivered (PerAuthor.advance demoEnv demoSched it)
    ∧ pubkey (mkEvent "a" "bob" 80) = "bob".
Proof.
  eexists _, _. split; [vm_compute; reflexivity|].
  assert ({| PerAuthor.author := "bob"; PerAuthor.events := [mkEvent "a" "bob" 80] |}
            ∈ [ {| PerAuthor.author := "alice";
                   PerAuthor.events := [mkEvent "c" "alice" 100] |};
                {| PerAuthor.author := "bob";
                   PerAuthor.events := [mkEvent "a" "bob" 80] |} ]) as Hin
    by (apply list_elem_of_further, list_elem_of_here).
  split; [exact Hin|].
  eapply (proj1 (records_hold_the_authors_events demoEnv demoSched demoAuthors
                   emptyFetchFilter) 1%Z noFetchLatestOptions _ _
            {| PerAuthor.author := "bob"; PerAuthor.events := [mkEvent "a" "bob" 80] |});
    [vm_compute; reflexivity|exact Hin|apply list_elem_of_here].
Defined.

(* ===================================================================== *)
(** * Nothing that a relay answers is lost *)
(* ===================================================================== *)

(** Every id in [globalSeenEventIds] is the id of an event on the channel. *)
Definition seenDelivered (g : FanIn) : Prop :=
  ∀ i, i ∈ globalSeenEventIds g → i ∈ id <$> tx g.

(** Each event of [answer] has been handled by the worker (its id is in
    [localSeenEventIds]), or is still to come in the running sub-request. *)
Definition covered (answer : list NostrEvent) (w : AllEvents.Worker) : Prop :=
  ∀ e, e ∈ answer →
       id e ∈ AllEvents.localSeenEventIds w ∨ e ∈ pendingOf (AllEvents.phase w).

Lemma AllEvents_step_seen env fil timeRangeFilter finalOpts w g :
  seenDelivered g → AllEvents.localSeenEventIds w ⊆ globalSeenEventIds g →
  let w' := (AllEvents.step env fil timeRangeFilter finalOpts w g).1 in
  let g' := (AllEvents.step env fil timeRangeFilter finalOpts w g).2 in
  seenDelivered g'
  ∧ AllEvents.localSeenEventIds w' ⊆ globalSeenEventIds g'
  ∧ globalSeenEventIds g ⊆ globalSeenEventIds g'.
Proof.
  intros Hg Hw. unfold AllEvents.step.
  destruct (AllEvents.phase w) as [|[|e pending] throws vars|]; simpl; try done.
  - repeat case_match; done.
  - case_decide as Hlocal; [done|]. case_decide as Hglobal; simpl.
    + split_and!; [done| |done]. apply union_least; [by apply singleton_subseteq_l|done].
    + split_and!; [|by apply union_mono_l|apply union_subseteq_r].
      unfold seenDelivered. simpl.
      intros i [->%elem_of_singleton|Hi]%elem_of_union; rewrite fmap_app;
        apply elem_of_app.
      * right. simpl. apply list_elem_of_here.
      * left. by apply Hg.
Qed.

Lemma AllEvents_step_covered env fil timeRangeFilter finalOpts answer w g :
  covered answer w → covered answer (AllEvents.step env fil timeRangeFilter finalOpts w g).1.
Proof.
  unfold covered, AllEvents.step. intros Hw.
  destruct (AllEvents.phase w) as [|[|e pending] throws vars|] eqn:Hph; simpl in *.
  - intros x [Hx|Hx%elem_of_nil]%Hw; [by left|done].
  - repeat case_match; simpl; intros x [Hx|Hx%elem_of_nil]%Hw; try done; by left.
  - case_decide as Hlocal; [|case_decide]; simpl;
      intros x [Hx|[->|Hx]%elem_of_cons]%Hw;
      try (by left); try (by right); left;
      try (by apply elem_of_union_r); by apply elem_of_union_l, elem_of_singleton.
  - by rewrite Hph.
Qed.

Lemma AllEvents_step_answer env fil timeRangeFilter finalOpts w g :
  AllEvents.phase w = AtLoopHead →
  covered
    (sub_events (fetchTillEose env (AllEvents.rurl w)
                   (AllEvents.refinedFilter fil timeRangeFilter finalOpts w)
                   (asFetchTillEoseOptions finalOpts) (AllEvents.reqCount w)))
    (AllEvents.step env fil timeRangeFilter finalOpts w g).1.
Proof. intros Hph e He. unfold AllEvents.step. rewrite Hph. simpl. by right. Qed.

Lemma AllEvents_run_seen env fil timeRangeFilter finalOpts sched initialUntil eligible :
  let st := run (AllEvents.step env fil timeRangeFilter finalOpts) sched
              (AllEvents.init initialUntil eligible) in
  seenDelivered st.2
  ∧ Forall (λ w, AllEvents.localSeenEventIds w ⊆ globalSeenEventIds st.2) st.1.
Proof.
  apply (run_tasks_shared (AllEvents.step env fil timeRangeFilter finalOpts)
           (λ w g, AllEvents.localSeenEventIds w ⊆ globalSeenEventIds g) seenDelivered).
  - intros w g HQ HR.
    destruct (AllEvents_step_seen env fil timeRangeFilter finalOpts w g HQ HR)
      as (? & ? & ?). done.
  - intros w w' g HQ HR HR'.
    destruct (AllEvents_step_seen env fil timeRangeFilter finalOpts w g HQ HR)
      as (_ & _ & Hmono). by etrans.
  - by intros i ?%elem_of_empty.
  - apply Forall_fmap, Forall_forall. by intros u _.
Qed.

(** From the moment worker [i] stands at the head of its loop as [w], it
    is [w] still or has the answer to the REQ of [w] covered. *)
Lemma AllEvents_run_covered env fil timeRangeFilter finalOpts sched' st i w :
  st.1 !! i = Some w → AllEvents.phase w = AtLoopHead →
  let answer :=
    sub_events (fetchTillEose env (AllEvents.rurl w)
                  (AllEvents.refinedFilter fil timeRangeFilter finalOpts w)
                  (asFetchTillEoseOptions finalOpts) (AllEvents.reqCount w)) in
  ∃ w', (run (AllEvents.step env fil timeRangeFilter finalOpts) sched' st).1 !! i = Some w'
        ∧ (w' = w ∨ covered answer w').
Proof.
  intros Hi Hph answer.
  apply (run_invariant (AllEvents.step env fil timeRangeFilter finalOpts)
           (λ st, ∃ w', st.1 !! i = Some w' ∧ (w' = w ∨ covered answer w')));
    [|by eauto].
  clear st Hi. intros j st (w' & Hi & Hw').
  destruct (decide (j = i)) as [->|Hne].
  - rewrite (stepTask_self _ _ _ _ Hi). eexists. split; [done|]. right.
    destruct Hw' as [->|Hcov]; [by apply AllEvents_step_answer|].
    by apply AllEvents_step_covered.
  - rewrite stepTask_other by done. eauto.
Qed.

(** Nothing that a relay answers is lost.  Take any moment of a fetch at
    which a relay worker of [allEventsIterator] stands at the head of its loop,
    about to send a REQ, and any event [e] of the answer to that REQ (be it
    that the subscription then ends with an error).  Once the channel is
    closed, [e] or an event with the same id has been delivered. *)
Theorem no_event_is_lost (env : Env) (relayUrls : list string) (fil : FetchFilter)
    (timeRangeFilter : FetchTimeRangeFilter) (options : AllEventsIterOptions)
    (es : list Effect) (it : AllEvents.Iterator) (sched sched' : list nat) (i : nat)
    (w : AllEvents.Worker) (e : NostrEvent) :
  allEventsIterator env relayUrls fil timeRangeFilter options = (es, Ok it) →
  (AllEvents.state (AllEvents.advance env sched it)).1 !! i = Some w →
  AllEvents.phase w = AtLoopHead →
  e ∈ sub_events (fetchTillEose env (AllEvents.rurl w)
                    (AllEvents.refinedFilter fil timeRangeFilter (finalOptsOf options) w)
                    (asFetchTillEoseOptions (finalOptsOf options))
                    (AllEvents.reqCount w)) →
  AllEvents.closed (AllEvents.advance env (sched ++ sched') it) = true →
  id e ∈ id <$> AllEvents.delivered (AllEvents.advance env (sched ++ sched') it).
Proof.
  rewrite allEventsIterator_eq. case_match; [done|]. cbv zeta.
  intros [_ <-]%Ok_pair_inv.
  unfold AllEvents.closed, AllEvents.delivered, AllEvents.advance.
  cbn [AllEvents.state AllEvents.it_filter AllEvents.it_timeRangeFilter
       AllEvents.it_finalOpts].
  rewrite run_app. set (st := run _ sched _). intros Hi Hph He Hclosed.
  destruct (AllEvents_run_covered env fil timeRangeFilter (finalOptsOf options) sched' st
              i w Hi Hph) as (w' & Hi' & Hw').
  destruct (AllEvents_run_seen env fil timeRangeFilter (finalOptsOf options)
              (sched ++ sched') (default (currUnixtimeSec env) (tr_until timeRangeFilter))
              (eligibleRelayUrlsOf env relayUrls (filledOptsOf options)
                 (calcRequiredNips fil))) as [Hseen Hlocal].
  rewrite run_app in Hseen, Hlocal. fold st in Hseen, Hlocal.
  set (st' := run _ sched' st) in *.
  assert (isFinished (AllEvents.phase w') = true) as Hfin.
  { eapply forallb_forall in Hclosed; [exact Hclosed|].
    by apply list_elem_of_In, list_elem_of_lookup_2 with i. }
  destruct Hw' as [->|Hcov]; [by rewrite Hph in Hfin|].
  apply Hseen. eapply Forall_lookup_1 in Hlocal; [|exact Hi'].
  apply Hlocal. destruct (Hcov e He) as [Hid|Hp]; [done|].
  destruct (AllEvents.phase w'); try done. by apply elem_of_nil in Hp.
Qed.

Lemma no_event_is_lost_witness :
  ∃ es it w,
    allEventsIterator demoEnv demoRelays emptyFetchFilter noTimeRange
      noAllEventsIterOptions = (es, Ok it)
    ∧ (AllEvents.state (AllEvents.advance demoEnv [] it)).1 !! 1 = Some w
    ∧ id (mkEvent "a" "bob" 80)
        ∈ id <$> AllEvents.delivered (AllEvents.advance demoEnv ([] ++ demoSched) it).
Proof.
  eexists _, _, _. split; [vm_compute; reflexivity|].
  split; [vm_compute; reflexivity|].
  eapply (no_event_is_lost demoEnv demoRelays emptyFetchFilter noTimeRange
            noAllEventsIterOptions _ _ [] demoSched 1);
    [vm_compute; reflexivity|vm_compute; reflexivity|reflexivity| |vm_compute; reflexivity].
  vm_compute. apply list_elem_of_further, list_elem_of_here.
Defined.

(* ===================================================================== *)
(** * How many sub-requests a fetch makes *)
(* ===================================================================== *)

Lemma sum_list_with_insert {A} (c : A → nat) (l : list A) i x y :
  l !! i = Some x → sum_list_with c (<[i := y]> l) + c x = sum_list_with c l + c y.
Proof.
  revert i. induction l as [|z l IH]; intros [|i]; simpl; try done.
  - intros [= ->]. lia.
  - intros Hi. specialize (IH i Hi). lia.
Qed.

Lemma sum_list_with_bound {A} (c : A → nat) (b : nat) (l : list A) :
  Forall (λ x, c x ≤ b) l → sum_list_with c l ≤ b * length l.
Proof. induction 1; simpl; lia. Qed.

Section Scheduler_count.
Context {W G : Type} (step : W → G → W * G) (c : W → nat) (len : G → nat).
(** a step of a task adds as much to the shared count as to its own *)
Hypothesis step_count : ∀ w g, len (step w g).2 + c w = len g + c (step w g).1.

Lemma run_count s st :
  len st.2 = sum_list_with c st.1 →
  len (run step s st).2 = sum_list_with c (run step s st).1.
Proof using step_count.
  apply (run_invariant step (λ st, len st.2 = sum_list_with c st.1)).
  clear st. intros i [ws g]. unfold stepTask. simpl.
  destruct (ws !! i) as [w|] eqn:Hi; simpl; [|done].
  intros Hlen. pose proof (sum_list_with_insert c ws i w (step w g).1 Hi).
  pose proof (step_count w g). lia.
Qed.
End Scheduler_count.

(** The number of sub-requests in a trace. *)
Definition requestCount (es : list Effect) : nat := length (List.filter isRequest es).

Lemma requestCount_app es1 es2 : requestCount (es1 ++ es2) = requestCount es1 + requestCount es2.
Proof. unfold requestCount. by rewrite List.filter_app, length_app. Qed.

Lemma requestCount_onlyRequests es : onlyRequests es → requestCount es = length es.
Proof.
  unfold requestCount. induction 1 as [|e es He _ IH]; simpl; [done|].
  rewrite He. simpl. by rewrite IH.
Qed.

Lemma requestCount_warnIfEmpty {E} (l : list E) msg : requestCount (warnIfEmpty l msg) = 0.
Proof. by destruct l. Qed.

Lemma requestCount_ensure env relayUrls opts requiredNips :
  requestCount (ensureRelaysWithCapCheck env relayUrls opts requiredNips).1 = 0.
Proof.
  unfold ensureRelaysWithCapCheck. destruct requiredNips as [|nip nips]; [done|].
  cbn [bind tell ret fst snd]. rewrite app_nil_r. unfold requestCount. simpl.
  induction (ensureRelays env relayUrls (connectTimeoutMs opts)); simpl; done.
Qed.

Lemma AllEvents_step_count env fil timeRangeFilter finalOpts w g :
  length (effects (AllEvents.step env fil timeRangeFilter finalOpts w g).2)
  + AllEvents.reqCount w
  = length (effects g)
    + AllEvents.reqCount (AllEvents.step env fil timeRangeFilter finalOpts w g).1.
Proof.
  unfold AllEvents.step.
  destruct (AllEvents.phase w) as [|[|e pending] throws vars|]; simpl; try done.
  - rewrite length_app. simpl. lia.
  - repeat case_match; done.
  - repeat case_decide; done.
Qed.

Lemma Latest_step_count env fil finalOpts w g :
  length (effects (Latest.step env fil finalOpts w g).2) + Latest.reqCount w
  = length (effects g) + Latest.reqCount (Latest.step env fil finalOpts w g).1.
Proof.
  unfold Latest.step.
  destruct (Latest.phase w) as [|[|e pending] throws vars|]; simpl; try done.
  - rewrite length_app. simpl. lia.
  - repeat case_match; done.
  - repeat case_decide; done.
Qed.

(** What is left of the quota of a worker of [fetchLatestEvents], against
    the REQs it has sent: each further REQ needs a locally-new event of the
    one before. *)
Definition Latest_budget (lim : Z) (w : Latest.Worker) : Prop :=
  match Latest.phase w with
  | AtLoopHead =>
      (0 < Latest.remainingLimit w)%Z
      ∧ (Latest.remainingLimit w + Z.of_nat (Latest.reqCount w) <= lim)%Z
  | InForAwait _ _ vars =>
      (0 < Latest.remainingLimit w)%Z
      ∧ (Latest.remainingLimit w + Z.of_nat (Latest.reqCount w) <= lim + 1)%Z
      ∧ (0 <= Latest.numNewEvents vars)%Z
  | Finished => (Z.of_nat (Latest.reqCount w) <= lim)%Z
  end.

Lemma Latest_step_budget env fil finalOpts lim w g :
  Latest_budget lim w → Latest_budget lim (Latest.step env fil finalOpts w g).1.
Proof.
  unfold Latest_budget, Latest.step.
  destruct (Latest.phase w) as [|[|e pending] throws vars|] eqn:Hph;
    simpl; rewrite ?Hph; try done.
  - lia.
  - intros (Hrem & Hsum & Hnew). destruct throws; simpl; [lia|].
    destruct (Latest.numNewEvents vars =? 0)%Z eqn:Hz; simpl; [lia|].
    apply Z.eqb_neq in Hz.
    destruct (Latest.remainingLimit w - Latest.numNewEvents vars <=? 0)%Z eqn:Hle;
      simpl; [lia|]. apply Z.leb_gt in Hle.
    destruct (signalAborted env finalOpts (Latest.rurl w) (Latest.reqCount w)); simpl; lia.
  - intros (Hrem & Hsum & Hnew). repeat case_decide; simpl; lia.
Qed.

(** The [limit] of every sub-request lies between 1 and [min(lim, 5000)]. *)
Definition limitWithin (lim : Z) (url : string) (fil : Filter) (opts : FetchTillEoseOptions)
  : Prop :=
  ∃ l, limit fil = Some l ∧ (1 <= l <= Z.min lim MAX_LIMIT_PER_REQ)%Z.

Lemma Latest_step_limitWithin env fil finalOpts lim w g :
  requestsAll (limitWithin lim) (effects g) → Latest_budget lim w →
  requestsAll (limitWithin lim) (effects (Latest.step env fil finalOpts w g).2).
Proof.
  intros Hg. unfold Latest_budget, Latest.step.
  destruct (Latest.phase w) as [|[|e pending] throws vars|]; simpl; try done.
  - intros [Hrem Hsum]. apply requestsAll_snoc; [done|].
    eexists. split; [done|]. unfold MAX_LIMIT_PER_REQ. lia.
  - repeat case_match; done.
  - repeat case_decide; done.
Qed.

Lemma Latest_run_budget env fil finalOpts lim sched initialUntil eligible :
  (0 < lim)%Z →
  let st := run (Latest.step env fil finalOpts) sched (Latest.init initialUntil lim eligible) in
  requestsAll (limitWithin lim) (effects st.2) ∧ Forall (Latest_budget lim) st.1.
Proof.
  intros Hlim.
  apply (run_tasks_shared (Latest.step env fil finalOpts)
           (λ w _, Latest_budget lim w)
           (λ g, requestsAll (limitWithin lim) (effects g))).
  - intros w g HQ HR. split; [by apply Latest_step_limitWithin|by apply Latest_step_budget].
  - done.
  - apply requestsAll_nil.
  - apply Forall_fmap, Forall_forall. intros u _. unfold Latest_budget. simpl. lia.
Qed.

Lemma Latest_budget_reqCount lim w :
  Latest_budget lim w → Latest.reqCount w ≤ Z.to_nat lim.
Proof. unfold Latest_budget. destruct (Latest.phase w); lia. Qed.

Lemma Latest_run_onlyRequests env fil finalOpts sched st :
  onlyRequests (effects st.2) →
  onlyRequests (effects (run (Latest.step env fil finalOpts) sched st).2).
Proof.
  apply (run_shared (Latest.step env fil finalOpts) (λ g, onlyRequests (effects g))).
  intros; by apply Latest_step_onlyRequests.
Qed.

Lemma AllEvents_run_onlyRequests env fil timeRangeFilter finalOpts sched st :
  onlyRequests (effects st.2) →
  onlyRequests (effects (run (AllEvents.step env fil timeRangeFilter finalOpts) sched st).2).
Proof.
  apply (run_shared (AllEvents.step env fil timeRangeFilter finalOpts)
           (λ g, onlyRequests (effects g))).
  intros; by apply AllEvents_step_onlyRequests.
Qed.

(** The trace of [fetchLatestEvents] has the sub-requests of its workers. *)
Lemma fetchLatestEvents_requests env sched relayUrls fil lim options es res :
  fetchLatestEvents env sched relayUrls fil lim options = (es, Ok res) →
  (0 < lim)%Z
  ∧ requestCount es
    = length (effects (fetchLatestState env sched relayUrls fil lim options).2)
  ∧ ∀ url fil' opts,
      FetchTillEose url fil' opts ∈ es →
      FetchTillEose url fil' opts
        ∈ effects (fetchLatestState env sched relayUrls fil lim options).2.
Proof.
  rewrite fetchLatestEvents_eq. case_match eqn:Hlim; [|done]. apply Z.ltb_lt in Hlim.
  cbv zeta. intros [<- _]%Ok_pair_inv. split; [done|]. split.
  - rewrite !requestCount_app, requestCount_warnIfEmpty, requestCount_ensure. simpl.
    apply requestCount_onlyRequests. unfold fetchLatestState.
    apply Latest_run_onlyRequests. constructor.
  - intros url fil' opts [Hin|Hin]%elem_of_app.
    { unfold warnIfEmpty in Hin. destruct relayUrls; [|by apply elem_of_nil in Hin].
      by apply list_elem_of_singleton in Hin. }
    apply elem_of_app in Hin as [Hin|Hin]; [|done].
    unfold ensureRelaysWithCapCheck in Hin.
    destruct (calcRequiredNips fil); simpl in Hin.
    + by apply list_elem_of_singleton in Hin.
    + rewrite app_nil_r in Hin. apply elem_of_cons in Hin as [Hin|Hin]; [done|].
      by apply list_elem_of_fmap in Hin as (? & [=] & _).
Qed.

(** For a [limit] [N] that is a safe integer, [fetchLatestEvents relays
    filter N opts] asks for at most what it may return: the [limit] of every
    REQ lies between 1 and [min(N, 5000)], and a relay worker sends at most
    [N] REQs, so that the fetch sends at most [N] times the number of
    eligible relays.  (The worker counts down from [N] in double precision,
    which is exact on safe integers.) *)
Theorem fetchLatestEvents_requests_bounded (env : Env) (sched : list nat)
    (relayUrls : list string) (fil : FetchFilter) (lim : Z) (options : FetchLatestOptions)
    (es : list Effect) (res : option (list NostrEvent)) :
  isSafeInteger lim →
  fetchLatestEvents env sched relayUrls fil lim options = (es, Ok res) →
  let eligible :=
    eligibleRelayUrlsOf env relayUrls
      (spreadFetchLatestOptions defaultFetchLatestOptions options) (calcRequiredNips fil) in
  (∀ url fil' opts,
     FetchTillEose url fil' opts ∈ es →
     ∃ l, limit fil' = Some l ∧ (1 <= l <= Z.min lim MAX_LIMIT_PER_REQ)%Z)
  ∧ (Z.of_nat (requestCount es) <= lim * Z.of_nat (length eligible))%Z.
Proof.
  intros _ Hfetch eligible.
  apply fetchLatestEvents_requests in Hfetch as (Hlim & Hcount & Hreqs).
  unfold fetchLatestState in *. fold eligible in Hcount, Hreqs.
  set (finalOpts := spreadFetchLatestOptions _ options) in *.
  destruct (Latest_run_budget env fil finalOpts lim sched (currUnixtimeSec env) eligible Hlim)
    as [Hwithin Hbudget].
  split.
  - intros url fil' opts Hin. exact (Hwithin url fil' opts (Hreqs url fil' opts Hin)).
  - rewrite Hcount.
    rewrite (run_count (Latest.step env fil finalOpts) Latest.reqCount
               (λ g, length (effects g))).
    + etrans; [apply inj_le, (sum_list_with_bound _ (Z.to_nat lim))|].
      * eapply Forall_impl; [exact Hbudget|]. apply Latest_budget_reqCount.
      * rewrite run_length. unfold Latest.init. simpl. rewrite length_fmap.
        rewrite Nat2Z.inj_mul. lia.
    + intros w g. apply Latest_step_count.
    + simpl. generalize eligible. intros l. induction l as [|u l IH]; [done|exact IH].
Qed.

Lemma fetchLatestEvents_requests_bounded_witness :
  ∃ es res,
    fetchLatestEvents demoEnv demoSched demoRelays emptyFetchFilter 2 noFetchLatestOptions
    = (es, Ok res)
    ∧ (Z.of_nat (requestCount es) <= 2 * 2)%Z.
Proof.
  eexists _, _. split; [vm_compute; reflexivity|].
  eapply (fetchLatestEvents_requests_bounded demoEnv demoSched demoRelays emptyFetchFilter
            2%Z noFetchLatestOptions).
  - unfold isSafeInteger, MAX_SAFE_INTEGER. lia.
  - vm_compute; reflexivity.
Defined.

(* ===================================================================== *)
(** * A fetch whose signal is aborted *)
(* ===================================================================== *)

(** A worker that has not paginated: at the head of its loop it has sent
    nothing and stands at the initial [until]; later it has sent one REQ. *)
Definition askedOnce {V} (initialUntil : Z) (p : Phase V) (nextUntil : Z) (reqCount : nat)
  : Prop :=
  match p with
  | AtLoopHead => nextUntil = initialUntil ∧ reqCount = 0
  | _ => reqCount ≤ 1
  end.

Definition untilIs (u : Z) (url : string) (fil : Filter) (opts : FetchTillEoseOptions)
  : Prop :=
  until fil = Some u.

Lemma AllEvents_step_askedOnce env fil timeRangeFilter
    (finalOpts : Required_AllEventsIterOptions) initialUntil w g :
  (∀ url n, signalAborted env finalOpts url n = true) →
  requestsAll (untilIs initialUntil) (effects g) →
  askedOnce initialUntil (AllEvents.phase w) (AllEvents.nextUntil w) (AllEvents.reqCount w) →
  let w' := (AllEvents.step env fil timeRangeFilter finalOpts w g).1 in
  let g' := (AllEvents.step env fil timeRangeFilter finalOpts w g).2 in
  requestsAll (untilIs initialUntil) (effects g')
  ∧ askedOnce initialUntil (AllEvents.phase w') (AllEvents.nextUntil w')
      (AllEvents.reqCount w').
Proof.
  intros Habort Hg. unfold AllEvents.step.
  destruct (AllEvents.phase w) as [|[|e pending] throws vars|] eqn:Hph; simpl.
  - intros [Hu ->]. split; [|done]. apply requestsAll_snoc; [done|].
    unfold untilIs. simpl. by rewrite Hu.
  - intros Hw. rewrite Habort. by repeat case_match.
  - intros Hw. by repeat case_decide.
  - rewrite Hph. done.
Qed.

Lemma Latest_step_askedOnce env fil (finalOpts : Required_FetchLatestOptions)
    initialUntil w g :
  (∀ url n, signalAborted env finalOpts url n = true) →
  requestsAll (untilIs initialUntil) (effects g) →
  askedOnce initialUntil (Latest.phase w) (Latest.nextUntil w) (Latest.reqCount w) →
  let w' := (Latest.step env fil finalOpts w g).1 in
  let g' := (Latest.step env fil finalOpts w g).2 in
  requestsAll (untilIs initialUntil) (effects g')
  ∧ askedOnce initialUntil (Latest.phase w') (Latest.nextUntil w') (Latest.reqCount w').
Proof.
  intros Habort Hg. unfold Latest.step.
  destruct (Latest.phase w) as [|[|e pending] throws vars|] eqn:Hph; simpl.
  - intros [Hu ->]. split; [|done]. apply requestsAll_snoc; [done|].
    unfold untilIs. simpl. by rewrite Hu.
  - intros Hw. rewrite Habort. by repeat case_match.
  - intros Hw. by repeat case_decide.
  - rewrite Hph. done.
Qed.

Lemma askedOnce_reqCount {V} initialUntil (p : Phase V) nextUntil reqCount :
  askedOnce initialUntil p nextUntil reqCount → reqCount ≤ 1.
Proof. destruct p; simpl; lia. Qed.

Lemma signalAborted_true env (opts : Required_FetchOptions) signal :
  abortSignal opts = Some signal →
  (∀ url n, aborted env signal url n = true) →
  ∀ url n, signalAborted env opts url n = true.
Proof. intros Hs Ha url n. unfold signalAborted. by rewrite Hs. Qed.

(** The abort signal is read only after a sub-request has ended.  So a fetch
    whose signal reads aborted does not paginate: each relay worker of
    [allEventsIterator], and of [fetchLatestEvents], sends at most one REQ,
    that with the initial [until]. *)
Theorem aborted_fetch_asks_once (env : Env) (sched : list nat) (signal : AbortSignal) :
  (∀ url n, aborted env signal url n = true) →
  (∀ relayUrls fil timeRangeFilter options es it,
     abortSignal_opt (aio_fetch_opt options) = Some signal →
     allEventsIterator env relayUrls fil timeRangeFilter options = (es, Ok it) →
     let requests := effects (AllEvents.state (AllEvents.advance env sched it)).2 in
     length requests
     ≤ length (eligibleRelayUrlsOf env relayUrls (filledOptsOf options)
                 (calcRequiredNips fil))
     ∧ ∀ url fil' opts,
         FetchTillEose url fil' opts ∈ requests →
         until fil' = Some (default (currUnixtimeSec env) (tr_until timeRangeFilter)))
  ∧ (∀ relayUrls fil lim options es res,
       abortSignal_opt (flo_fetch_opt options) = Some signal →
       fetchLatestEvents env sched relayUrls fil lim options = (es, Ok res) →
       requestCount es
       ≤ length (eligibleRelayUrlsOf env relayUrls
                   (spreadFetchLatestOptions defaultFetchLatestOptions options)
                   (calcRequiredNips fil))
       ∧ ∀ url fil' opts,
           FetchTillEose url fil' opts ∈ es → until fil' = Some (currUnixtimeSec env)).
Proof.
  intros Haborted. split.
  - intros relayUrls fil timeRangeFilter options es it Hsignal.
    rewrite allEventsIterator_eq. case_match; [done|]. cbv zeta.
    intros [_ <-]%Ok_pair_inv. unfold AllEvents.advance.
    cbn [AllEvents.state AllEvents.it_filter AllEvents.it_timeRangeFilter
         AllEvents.it_finalOpts].
    set (eligible := eligibleRelayUrlsOf _ _ _ _).
    set (initialUntil := default _ _).
    assert (∀ url n, signalAborted env (finalOptsOf options) url n = true) as Habort.
    { apply (signalAborted_true env _ signal); [|done].
      unfold finalOptsOf, filledOptsOf, spreadAllEventsIterOptions, spreadFetchOptions.
      simpl. by rewrite Hsignal. }
    destruct (run_tasks_shared
                (AllEvents.step env fil timeRangeFilter (finalOptsOf options))
                (λ w _, askedOnce initialUntil (AllEvents.phase w) (AllEvents.nextUntil w)
                          (AllEvents.reqCount w))
                (λ g, requestsAll (untilIs initialUntil) (effects g))
                ltac:(intros w g HQ HR; by apply AllEvents_step_askedOnce)
                ltac:(done) sched (AllEvents.init initialUntil eligible))
      as [Huntil Honce].
    { apply requestsAll_nil. }
    { apply Forall_fmap, Forall_forall. by intros u _. }
    split; [|exact Huntil].
    rewrite (run_count (AllEvents.step env fil timeRangeFilter (finalOptsOf options))
               AllEvents.reqCount (λ g, length (effects g))).
    + etrans; [apply (sum_list_with_bound _ 1)|].
      * eapply Forall_impl; [exact Honce|]. intros w. apply askedOnce_reqCount.
      * rewrite run_length. unfold AllEvents.init. simpl. rewrite length_fmap. lia.
    + intros w g. apply AllEvents_step_count.
    + simpl. generalize eligible. intros l. induction l as [|u l IH]; [done|exact IH].
  - intros relayUrls fil lim options es res Hsignal Hfetch.
    apply fetchLatestEvents_requests in Hfetch as (Hlim & Hcount & Hreqs).
    unfold fetchLatestState in *.
    set (finalOpts := spreadFetchLatestOptions _ options) in *.
    set (eligible := eligibleRelayUrlsOf _ _ _ _) in *.
    assert (∀ url n, signalAborted env finalOpts url n = true) as Habort.
    { apply (signalAborted_true env _ signal); [|done].
      unfold finalOpts, spreadFetchLatestOptions, spreadFetchOptions.
      simpl. by rewrite Hsignal. }
    destruct (run_tasks_shared (Latest.step env fil finalOpts)
                (λ w _, askedOnce (currUnixtimeSec env) (Latest.phase w)
                          (Latest.nextUntil w) (Latest.reqCount w))
                (λ g, requestsAll (untilIs (currUnixtimeSec env)) (effects g))
                ltac:(intros w g HQ HR; by apply Latest_step_askedOnce)
                ltac:(done) sched (Latest.init (currUnixtimeSec env) lim eligible))
      as [Huntil Honce].
    { apply requestsAll_nil. }
    { apply Forall_fmap, Forall_forall. by intros u _. }
    split.
    + rewrite Hcount.
      rewrite (run_count (Latest.step env fil finalOpts) Latest.reqCount
                 (λ g, length (effects g))).
      * etrans; [apply (sum_list_with_bound _ 1)|].
        -- eapply Forall_impl; [exact Honce|]. intros w. apply askedOnce_reqCount.
        -- rewrite run_length. unfold Latest.init. simpl. rewrite length_fmap. lia.
      * intros w g. apply Latest_step_count.
      * simpl. generalize eligible. intros l. induction l as [|u l IH]; [done|exact IH].
    + intros url fil' opts Hin. exact (Huntil url fil' opts (Hreqs url fil' opts Hin)).
Qed.

(** An environment in which the signal 0 reads aborted. *)
Definition abortedEnv : Env :=
  {| ensureRelays := ensureRelays demoEnv;
     relaySupportsNips := relaySupportsNips demoEnv;
     fetchTillEose := fetchTillEose demoEnv;
     verifyEventSig := verifyEventSig demoEnv;
     currUnixtimeSec := currUnixtimeSec demoEnv;
     aborted := λ _ _ _, true;
     normalizeRelayUrls := normalizeRelayUrls demoEnv |}.

Definition abortOptions : AllEventsIterOptions :=
  {| aio_fetch_opt :=
       {| skipVerification_opt := None; connectTimeoutMs_opt := None;
          abortSignal_opt := Some 0; abortSubBeforeEoseTimeoutMs_opt := None;
          limitPerReq_opt := None |};
     enableBackpressure_opt := None |}.

Lemma aborted_fetch_asks_once_witness :
  ∃ es it,
    allEventsIterator abortedEnv demoRelays emptyFetchFilter noTimeRange abortOptions
    = (es, Ok it)
    ∧ AllEvents.closed (AllEvents.advance abortedEnv demoSched it) = true
    ∧ length (effects (AllEvents.state (AllEvents.advance abortedEnv demoSched it)).2) ≤ 2.
Proof.
  eexists _, _. split; [vm_compute; reflexivity|]. split; [vm_compute; reflexivity|].
  eapply (proj1 (aborted_fetch_asks_once abortedEnv demoSched 0 ltac:(reflexivity))
            demoRelays emptyFetchFilter noTimeRange abortOptions);
    [reflexivity|vm_compute; reflexivity].
Defined.

(* ===================================================================== *)
(** * [fetchLatestEvents] completes *)
(* ===================================================================== *)

Section Scheduler_turns.
Context {W G : Type} (step : W → G → W * G).


End Scheduler_turns.


Section Latest_finishes.
Context (env : Env) (fil : FetchFilter) (finalOpts : Required_FetchLatestOptions) (lim : Z).





End Latest_finishes.





(* ===================================================================== *)
(** * Which relay is asked about which author *)
(* ===================================================================== *)

Lemma JsMap_get_set {V} (m : JsMap.t V) k v k' :
  JsMap.get (JsMap.set m k v) k' = if decide (k = k') then Some v else JsMap.get m k'.
Proof.
  induction m as [|[k0 v0] m IH]; simpl.
  - by case_decide.
  - destruct (decide (k0 = k)) as [->|Hne]; simpl.
    + by case_decide.
    + destruct (decide (k0 = k')) as [->|Hne'].
      * by rewrite decide_False by done.
      * exact IH.
Qed.

Lemma JsMap_set_elem {V} (m : JsMap.t V) k v kv :
  kv ∈ JsMap.set m k v → kv ∈ m ∨ kv = (k, v).
Proof.
  induction m as [|[k0 v0] m IH]; simpl.
  - intros ->%list_elem_of_singleton. by right.
  - case_decide as Hk.
    + intros [->|Hin]%elem_of_cons; [right; by subst|left; by apply list_elem_of_further].
    + intros [->|[Hin| ->]%IH]%elem_of_cons.
      * left. apply list_elem_of_here.
      * left. by apply list_elem_of_further.
      * by right.
Qed.

(** The entries of [new Map(entries)] are among [entries]. *)
Lemma JsMap_new_elem {V} (entries : list (string * V)) kv :
  kv ∈ JsMap.new entries → kv ∈ entries.
Proof.
  unfold JsMap.new.
  assert (∀ acc : JsMap.t V,
            kv ∈ foldl (λ m kv, JsMap.set m kv.1 kv.2) acc entries → kv ∈ acc ∨ kv ∈ entries)
    as Hfold.
  { induction entries as [|[k v] entries IH]; intros acc; simpl; [by left|].
    intros [[Hin| ->]%JsMap_set_elem|Hin]%IH.
    - by left.
    - right. apply list_elem_of_here.
    - right. by apply list_elem_of_further. }
  intros [Hin%elem_of_nil|Hin]%Hfold; done.
Qed.

(** Relay [url] is one that the call names for author [a]: with one relay
    set for all authors, an eligible relay of the set; with a relay set per
    author, a relay of the normalized set of an entry of [a]. *)
Definition relayOfAuthor (env : Env) (a2rs : AuthorsAndRelays) (opts : Required_FetchOptions)
  (nips : list Z) (a url : string) : Prop :=
  match a2rs with
  | RelaySetForAllAuthors authors relayUrls =>
      a ∈ authors ∧ url ∈ eligibleRelayUrlsOf env relayUrls opts nips
  | RelaySetsPerAuthor a2rsArr =>
      ∃ rurls, (a, rurls) ∈ a2rsArr ∧ url ∈ normalizeRelayUrls env rurls
  | Malformed _ => False
  end.

(** The transposition: the authors that [rurl2authors] holds for a relay
    have the relay in their normalized relay set. *)
Lemma rurl2authors_sound env (a2rsArr : list (string * list string)) rurl authors a :
  let rurl2authors :=
    foldl (λ (m : JsMap.t (list string)) (ar : string * list string),
             foldl (λ (m : JsMap.t (list string)) rurl,
                      JsMap.set m rurl (default [] (JsMap.get m rurl) ++ [ar.1]))
                   m (normalizeRelayUrls env ar.2))
          [] a2rsArr in
  JsMap.get rurl2authors rurl = Some authors → a ∈ authors →
  ∃ rurls, (a, rurls) ∈ a2rsArr ∧ rurl ∈ normalizeRelayUrls env rurls.
Proof.
  cbv zeta.
  set (inner := λ (author : string) (m : JsMap.t (list string)) (rurl : string),
                  JsMap.set m rurl (default [] (JsMap.get m rurl) ++ [author])).
  set (P := λ (past : list (string * list string)) (m : JsMap.t (list string)),
              ∀ rurl authors a,
                JsMap.get m rurl = Some authors → a ∈ authors →
                ∃ rurls, (a, rurls) ∈ past ∧ rurl ∈ normalizeRelayUrls env rurls).
  assert (∀ author rurls0 todo past m,
            (∀ r, r ∈ todo → r ∈ rurls0) →
            (∃ rs, (author, rs) ∈ past ∧ rurls0 = normalizeRelayUrls env rs) →
            P past m → P past (foldl (inner author) m todo)) as Hinner.
  { intros author rurls0 todo. induction todo as [|r todo IH]; intros past m Hsub Hau Hm;
      [done|].
    simpl. apply IH; [intros r' Hr'; by apply Hsub, list_elem_of_further|done|].
    intros rurl' authors' a'. unfold inner. rewrite JsMap_get_set.
    case_decide as Hr; [|by apply Hm]. subst rurl'. intros [= <-].
    intros [Ha| ->%list_elem_of_singleton]%elem_of_app.
    - destruct (JsMap.get m r) as [as0|] eqn:Hg; simpl in Ha; [by eapply Hm|].
      by apply elem_of_nil in Ha.
    - destruct Hau as (rs & Hrs & ->). exists rs. split; [done|].
      apply Hsub, list_elem_of_here. }
  assert (∀ todo past m,
            P past m →
            P (past ++ todo)
              (foldl (λ m (ar : string * list string),
                        foldl (inner ar.1) m (normalizeRelayUrls env ar.2)) m todo))
    as Houter.
  { induction todo as [|[author rs] todo IH]; intros past m Hm.
    - by rewrite app_nil_r.
    - simpl. rewrite (cons_middle _ past todo), app_assoc. apply IH.
      apply (Hinner author (normalizeRelayUrls env rs)); [done| |].
      + exists rs. split; [|done]. apply elem_of_app. right. apply list_elem_of_here.
      + intros rurl' authors' a' Hg Ha. destruct (Hm _ _ _ Hg Ha) as (rs' & Hin & Hr).
        exists rs'. split; [|done]. apply elem_of_app. by left. }
  intros Hg Ha. refine (Houter a2rsArr [] [] _ rurl authors a Hg Ha).
  intros ? ? ? [=].
Qed.

(** Every entry of the mapping of available relays to authors pairs a relay
    with authors for whom the call names that relay. *)
Lemma mapAvailableRelayToAuthors_sound env a2rs opts nips es ra url authors a :
  mapAvailableRelayToAuthors env a2rs opts nips = (es, Ok ra) →
  (url, authors) ∈ ra.1 → a ∈ authors → relayOfAuthor env a2rs opts nips a url.
Proof.
  destruct a2rs as [authors0 relayUrls|a2rsArr|isObject];
    unfold mapAvailableRelayToAuthors; [| |by destruct isObject].
  - intros (es1 & [] & _ & _ & Hk)%bind_Ok. cbv beta zeta in Hk.
    rewrite ensureRelaysWithCapCheck_pair, bind_Ok_eq in Hk.
    unfold ret in Hk. cbn [fst snd] in Hk. injection Hk as <-. cbn [fst].
    intros (r & [= -> ->] & Hr)%JsMap_new_elem%list_elem_of_fmap Ha. by split.
  - intros (es1 & [] & _ & _ & Hk)%bind_Ok. cbv beta zeta in Hk.
    rewrite ensureRelaysWithCapCheck_pair, bind_Ok_eq in Hk.
    cbn [fst snd] in Hk. destruct (mapM _ _) as [entries|] eqn:Hm;
      unfold ret, throw in Hk; cbn [fst snd] in Hk; [|done].
    injection Hk as <-. cbn [fst]. intros Hin%JsMap_new_elem Ha.
    apply mapM_Some_1 in Hm.
    apply list_elem_of_lookup_1 in Hin as [i Hi].
    eapply Forall2_lookup_r in Hm as (r & _ & Hr); [|exact Hi].
    destruct (JsMap.get _ r) as [as0|] eqn:Hg; [|done]. injection Hr as -> ->.
    by eapply rurl2authors_sound.
Qed.

Lemma foldr_add_pos (l : list Z) :
  Forall (λ x, (0 < x)%Z) l → l ≠ [] → (1 <= foldr Z.add 0 l)%Z.
Proof.
  intros Hl Hne. destruct Hl as [|x l Hx Hl]; [done|]. simpl.
  assert (0 <= foldr Z.add 0 l)%Z; [|lia].
  clear Hne Hx. induction Hl; simpl; lia.
Qed.

(** When there is a bucket to fill, the next REQ asks for one event at
    least. *)
Lemma calc_limit_pos b :
  (EventBuckets.calcKeysAndLimitForNextReq b).1 ≠ [] →
  (1 <= (EventBuckets.calcKeysAndLimitForNextReq b).2)%Z.
Proof.
  unfold EventBuckets.calcKeysAndLimitForNextReq. simpl. intros Hne.
  apply foldr_add_pos.
  - apply Forall_fmap, Forall_forall. intros [k bucket] Hin.
    apply openEntries_lookup in Hin as [_ Hlt]. unfold EventBuckets.remaining. simpl. lia.
  - intros Hnil. apply Hne. apply fmap_nil_inv in Hnil. by rewrite Hnil.
Qed.

(** The sub-requests of [fetchLatestEventsPerAuthor]: to the relay of a
    fetcher, for some of the authors of that fetcher. *)
Definition PerAuthor_request (keys : list ((string * list string) + string))
  (otherFilter : FetchFilter) (url : string) (fil' : Filter) (opts : FetchTillEoseOptions)
  : Prop :=
  ∃ relayAuthors nextAuthors l,
    inl (url, relayAuthors) ∈ keys
    ∧ f_rest fil' = withAuthors otherFilter nextAuthors
    ∧ nextAuthors ≠ [] ∧ (∀ a, a ∈ nextAuthors → a ∈ relayAuthors)
    ∧ since fil' = None
    ∧ limit fil' = Some l ∧ (1 <= l <= MAX_LIMIT_PER_REQ)%Z.

Definition taskOfKeys (keys : list ((string * list string) + string)) (lim : Z)
  (t : PerAuthor.Task) : Prop :=
  taskKey t ∈ keys
  ∧ match t with
    | PerAuthor.Fetcher w =>
        bucketsInv (PerAuthor.authors w) lim (PerAuthor.evBucketsPerAuthor w)
    | PerAuthor.Merger _ _ => True
    end.

Lemma PerAuthor_step_requests keys env otherFilter lim finalOpts t g :
  requestsAll (PerAuthor_request keys otherFilter) (PerAuthor.effects g) →
  taskOfKeys keys lim t →
  requestsAll (PerAuthor_request keys otherFilter)
    (PerAuthor.effects (PerAuthor.step env otherFilter lim finalOpts t g).2)
  ∧ taskOfKeys keys lim (PerAuthor.step env otherFilter lim finalOpts t g).1.
Proof.
  intros Hg [Hkey Ht]. split.
  - destruct t as [w|pk [|]]; cbn [PerAuthor.step fst snd]; [|done|].
    + unfold PerAuthor.stepFetcher.
      destruct (PerAuthor.phase w) as [|[|e pending] throws vars|]; [| | |done].
      * pose proof (calc_limit_pos (PerAuthor.evBucketsPerAuthor w)) as Hpos.
        pose proof (calc_keys (PerAuthor.evBucketsPerAuthor w)) as Hkeys.
        destruct (EventBuckets.calcKeysAndLimitForNextReq (PerAuthor.evBucketsPerAuthor w))
          as [[|a nextAuthors] nextLimit]; cbn [fst snd] in Hpos, Hkeys; simpl;
          [exact Hg|].
        apply requestsAll_snoc; [exact Hg|].
        exists (PerAuthor.authors w), (a :: nextAuthors), (Z.min nextLimit MAX_LIMIT_PER_REQ).
        split_and!; try done.
        -- intros a' [bucket [Hb _]]%Hkeys. destruct Ht as (_ & Hdom & _).
           apply Hdom. by exists bucket.
        -- specialize (Hpos ltac:(done)). unfold MAX_LIMIT_PER_REQ. lia.
        -- apply Z.le_min_r.
      * simpl. repeat case_match; done.
      * simpl. case_decide; [done|]. by destruct (EventBuckets.state _).
    + unfold PerAuthor.stepMerger. by case_match.
  - split; [by rewrite PerAuthor_step_taskKey|].
    destruct t as [w|pk [|]]; cbn [PerAuthor.step fst snd]; [|done|].
    + unfold PerAuthor.stepFetcher.
      destruct (PerAuthor.phase w) as [|[|e pending] throws vars|]; [| | |done].
      * by destruct (EventBuckets.calcKeysAndLimitForNextReq
                       (PerAuthor.evBucketsPerAuthor w)) as [[|a nextAuthors] nextLimit].
      * simpl. by repeat case_match.
      * simpl. case_decide; [done|].
        assert (bucketsInv (PerAuthor.authors w) lim
                  (EventBuckets.add (PerAuthor.evBucketsPerAuthor w) (pubkey e) e).1)
          by (by apply bucketsInv_add).
        by destruct (EventBuckets.state _).
    + unfold PerAuthor.stepMerger. by destruct (mapM _ _).
Qed.

(** A relay is asked only about authors for whom the call names it.  Every
    REQ of [fetchLatestEventsPerAuthor] carries the caller's filter with
    [authors] set to a non-empty list of authors, each of whom has the relay
    in the relay set that the call gives for the author, and it carries no
    [since]. *)
Theorem perAuthor_requests_follow_relay_sets (env : Env) (sched : list nat)
    (authorsAndRelays : AuthorsAndRelays) (otherFilter : FetchFilter) (lim : Z)
    (options : FetchLatestOptions) (es : list Effect) (it : PerAuthor.Iterator)
    (url : string) (fil' : Filter) (opts : FetchTillEoseOptions) :
  fetchLatestEventsPerAuthor env authorsAndRelays otherFilter lim options = (es, Ok it) →
  FetchTillEose url fil' opts
    ∈ PerAuthor.effects (PerAuthor.state (PerAuthor.advance env sched it)).2 →
  ∃ nextAuthors,
    f_rest fil' = withAuthors otherFilter nextAuthors
    ∧ nextAuthors ≠ []
    ∧ (∀ a, a ∈ nextAuthors →
            relayOfAuthor env authorsAndRelays
              (spreadFetchLatestOptions defaultFetchLatestOptions options)
              (calcRequiredNips otherFilter) a url)
    ∧ since fil' = None.
Proof.
  rewrite fetchLatestEventsPerAuthor_eq. case_match eqn:Hlim; [|done].
  apply Z.ltb_lt in Hlim. cbv zeta.
  destruct (mapAvailableRelayToAuthors _ _ _ _) as [es' [ra|err]] eqn:Hmap; [|done].
  intros [_ <-]%Ok_pair_inv. unfold PerAuthor.advance.
  cbn [PerAuthor.state PerAuthor.it_otherFilter PerAuthor.it_limit PerAuthor.it_finalOpts].
  set (finalOpts := spreadFetchLatestOptions _ options) in *.
  set (st0 := PerAuthor.init (currUnixtimeSec env) lim ra.1 ra.2).
  intros Hreq.
  destruct (run_tasks_shared (PerAuthor.step env otherFilter lim finalOpts)
              (λ t _, taskOfKeys (taskKey <$> st0.1) lim t)
              (λ g, requestsAll (PerAuthor_request (taskKey <$> st0.1) otherFilter)
                      (PerAuthor.effects g))
              ltac:(intros t g HQ HR; by apply PerAuthor_step_requests)
              ltac:(done) sched st0) as [Hall _].
  { apply requestsAll_nil. }
  { apply Forall_forall. intros t Ht. split; [by apply list_elem_of_fmap_2|].
    unfold st0, PerAuthor.init in Ht. cbn [fst] in Ht.
    apply elem_of_app in Ht as [(rk & -> & _)%list_elem_of_fmap
                               |(pk & -> & _)%list_elem_of_fmap]; [|done].
    apply bucketsInv_new. lia. }
  apply Hall in Hreq
    as (relayAuthors & nextAuthors & l & Hkey & Hfil & Hne & Hsub & Hsince & Hl & Hrange).
  exists nextAuthors. split_and!; try done.
  intros a Ha. eapply mapAvailableRelayToAuthors_sound; [exact Hmap| |by apply Hsub].
  apply list_elem_of_fmap in Hkey as (t & Ht & Hin).
  unfold st0, PerAuthor.init in Hin. cbn [fst] in Hin.
  apply elem_of_app in Hin as [([r ks] & -> & Hin)%list_elem_of_fmap
                              |(pk & -> & _)%list_elem_of_fmap]; [|done].
  simpl in Ht. by injection Ht as -> ->.
Qed.

(** Alice publishes to r1, Bob to r2. *)
Definition aliceR1BobR2 : AuthorsAndRelays :=
  RelaySetsPerAuthor [("alice", ["wss://r1"]); ("bob", ["wss://r2"])].

Lemma perAuthor_requests_follow_relay_sets_witness :
  ∃ es it fil' opts,
    fetchLatestEventsPerAuthor demoEnv aliceR1BobR2 emptyFetchFilter 1 noFetchLatestOptions
    = (es, Ok it)
    ∧ FetchTillEose "wss://r2" fil' opts
        ∈ PerAuthor.effects (PerAuthor.state (PerAuthor.advance demoEnv [1] it)).2
    ∧ authors (f_rest fil') = Some ["bob"]
    ∧ ∃ nextAuthors,
        f_rest fil' = withAuthors emptyFetchFilter nextAuthors
        ∧ ∀ a, a ∈ nextAuthors →
               ∃ rurls, (a, rurls) ∈ [("alice", ["wss://r1"]); ("bob", ["wss://r2"])]
                        ∧ "wss://r2" ∈ rurls.
Proof.
  eexists _, _, _, _. split; [vm_compute; reflexivity|].
  split; [vm_compute; apply list_elem_of_here|]. split; [reflexivity|].
  edestruct (perAuthor_requests_follow_relay_sets demoEnv [1] aliceR1BobR2 emptyFetchFilter
               1%Z noFetchLatestOptions)
    as (nextAuthors & Hfil & _ & Hrel & _);
    [vm_compute; reflexivity|vm_compute; apply list_elem_of_here|].
  exists nextAuthors. split; [exact Hfil|exact Hrel].
Defined.

(* ===================================================================== *)
(** * Relay-to-client messages ([@nostr-fetch/kernel], [nostr.ts]) *)
(* ===================================================================== *)

Module Nostr.
Section json.
(** JavaScript numbers; of a number the code asks only
    [typeof x === "number"]. *)
Context {Number : Type}.

(** A value as [JSON.parse] returns it.  An object is given by its own
    properties, one per key. *)
#[local] Unset Elimination Schemes.
Inductive Json :=
| JNull
| JBool (b : bool)
| JNumber (n : Number)
| JString (s : string)
| JArray (items : list Json)
| JObject (props : list (string * Json)).
#[local] Set Elimination Schemes.

Fixpoint lookupProp (props : list (string * Json)) (key : string) : option Json :=
  match props with
  | [] => None
  | (k, v) :: props' => if String.eqb k key then Some v else lookupProp props' key
  end.

(** [key in v ? v[key] : undefined], for a key that is no array index and
    not ["length"]: an array has no such key. *)
Definition prop (v : Json) (key : string) : option Json :=
  match v with
  | JObject props => lookupProp props key
  | _ => None
  end.

(** The character class [[a-f0-9]]. *)
Definition isLowerHexChar (c : Ascii.ascii) : bool :=
  let n := Ascii.nat_of_ascii c in
  (48 <=? n) && (n <=? 57) || (97 <=? n) && (n <=? 102).

(** [/^[a-f0-9]{len}$/.test(s)] *)
Definition hexStr (len : nat) (s : string) : bool :=
  (String.length s =? len) && forallb isLowerHexChar (String.list_ascii_of_string s).

Definition is32BytesHexStr (s : string) : bool := hexStr 64 s.
Definition is64BytesHexStr (s : string) : bool := hexStr 128 s.

Definition isArray (v : Json) : bool :=
  match v with JArray _ => true | _ => false end.

Definition isString (v : Json) : bool :=
  match v with JString _ => true | _ => false end.

(** [validateEvent]: schema validation for Nostr events. *)
Definition validateEvent (rawEv : Json) : bool :=
  (* id: 32-bytes lowercase hex-encoded sha256 *)
  if negb match prop rawEv "id" with
          | Some (JString s) => is32BytesHexStr s
          | _ => false
          end then false
  (* pubkey: 32-bytes lowercase hex-encoded public key *)
  else if negb match prop rawEv "pubkey" with
               | Some (JString s) => is32BytesHexStr s
               | _ => false
               end then false
  (* created_at: unix timestamp in seconds *)
  else if negb match prop rawEv "created_at" with
               | Some (JNumber _) => true
               | _ => false
               end then false
  (* kind: integer *)
  else if negb match prop rawEv "kind" with
               | Some (JNumber _) => true
               | _ => false
               end then false
  (* tags: array of arrays of non-null strings *)
  else if negb match prop rawEv "tags" with
               | Some (JArray _) => true
               | _ => false
               end then false
  else if match prop rawEv "tags" with
          | Some (JArray tags) =>
              existsb (λ tag, match tag with
                              | JArray es => existsb (λ e, negb (isString e)) es
                              | _ => true
                              end) tags
          | _ => false
          end then false
  (* content: string *)
  else if negb match prop rawEv "content" with
               | Some (JString _) => true
               | _ => false
               end then false
  (* sig: 64-bytes hex of the signature *)
  else if negb match prop rawEv "sig" with
               | Some (JString s) => is64BytesHexStr s
               | _ => false
               end then false
  else true.

Definition msgTypeNames : list string := ["EVENT"; "EOSE"; "NOTICE"; "OK"; "AUTH"; "COUNT"].

(** [R2CMessage]: the parsed array, read as one of the three tuple types. *)
Inductive R2CMessage :=
| R2CEvent (subId : string) (event : Json)
| R2CEose (subId : string)
| R2CNotice (notice : Json).

(** The array that a message is. *)
Definition toJson (msg : R2CMessage) : Json :=
  match msg with
  | R2CEvent subId ev => JArray [JString "EVENT"; JString subId; ev]
  | R2CEose subId => JArray [JString "EOSE"; JString subId]
  | R2CNotice notice => JArray [JString "NOTICE"; notice]
  end.

(** [JSON.parse]; [None] when it throws. *)
Variable JSON_parse : string → option Json.

(** [parseR2CMessage]; [None] is [undefined]. *)
Definition parseR2CMessage (rawMsg : string) : option R2CMessage :=
  match JSON_parse rawMsg with
  | None => None                       (* failed to parse R2C message as JSON *)
  | Some (JArray (JString msgType :: rest)) =>
      if negb (bool_decide (msgType ∈ msgTypeNames)) then None
      else if String.eqb msgType "OK" || String.eqb msgType "AUTH"
              || String.eqb msgType "COUNT" then None
      else if String.eqb msgType "EVENT" then
        match rest with
        | [JString subId; ev] =>
            match ev with
            | JObject _ | JArray _ =>  (* typeof ev === "object" && ev !== null *)
                if negb (validateEvent ev) then None else Some (R2CEvent subId ev)
            | _ => None
            end
        | _ => None
        end
      else if String.eqb msgType "EOSE" then
        match rest with
        | [JString subId] => Some (R2CEose subId)
        | _ => None
        end
      else if String.eqb msgType "NOTICE" then
        match rest with
        | [notice] => Some (R2CNotice notice)
        | _ => None
        end
      else None
  | Some _ => None                     (* malformed R2C message *)
  end.

(** ** What [validateEvent] and [parseR2CMessage] accept *)

Definition hexDigits : list Ascii.ascii := String.list_ascii_of_string "0123456789abcdef".

(** [s] consists of [len] characters, each a digit or one of [a] to [f]. *)
Definition hexOf (len : nat) (s : string) : Prop :=
  String.length s = len ∧ Forall (λ c, c ∈ hexDigits) (String.list_ascii_of_string s).

Lemma isLowerHexChar_spec c : isLowerHexChar c = true ↔ c ∈ hexDigits.
Proof.
  assert (isLowerHexChar c = bool_decide (c ∈ hexDigits)) as ->.
  { destruct c as [[] [] [] [] [] [] [] []]; vm_compute; reflexivity. }
  apply bool_decide_eq_true.
Qed.

Lemma hexStr_spec len s : hexStr len s = true ↔ hexOf len s.
Proof.
  unfold hexStr, hexOf. rewrite andb_true_iff, Nat.eqb_eq, forallb_forall, Forall_forall.
  split; intros [Hlen Hall]; (split; [done|]); intros c Hc.
  - apply isLowerHexChar_spec, Hall. by apply list_elem_of_In.
  - apply isLowerHexChar_spec, Hall. by apply list_elem_of_In.
Qed.

(** An array of arrays of strings. *)
Definition stringArrays (tags : list Json) : Prop :=
  Forall (λ tag, ∃ es, tag = JArray es ∧ Forall (λ e, ∃ s, e = JString s) es) tags.

Lemma stringArrays_spec tags :
  existsb (λ tag, match tag with
                  | JArray es => existsb (λ e, negb (isString e)) es
                  | _ => true
                  end) tags = false
  ↔ stringArrays tags.
Proof.
  unfold stringArrays. induction tags as [|tag tags IH]; simpl.
  - split; [constructor|done].
  - rewrite orb_false_iff, IH, Forall_cons. apply and_iff_compat_r.
    destruct tag as [| | | |es|]; try (split; [done|by intros (? & [=] & _)]).
    split.
    + intros Hes. exists es. split; [done|].
      induction es as [|e es IHes]; [constructor|]. simpl in Hes.
      apply orb_false_iff in Hes as [He Hes]. constructor; [|by apply IHes].
      destruct e; try done. by eexists.
    + intros (es' & [= <-] & Hes). induction Hes as [|e es [s ->] _ IHes]; [done|].
      simpl. exact IHes.
Qed.

(** What a valid event is: the seven properties of a Nostr event, each of
    its type, with [id] and [pubkey] of 64 and [sig] of 128 lowercase hex
    digits. *)
Definition validEvent (rawEv : Json) : Prop :=
  ∃ i pk t k tags content s,
    prop rawEv "id" = Some (JString i) ∧ hexOf 64 i
    ∧ prop rawEv "pubkey" = Some (JString pk) ∧ hexOf 64 pk
    ∧ prop rawEv "created_at" = Some (JNumber t)
    ∧ prop rawEv "kind" = Some (JNumber k)
    ∧ prop rawEv "tags" = Some (JArray tags) ∧ stringArrays tags
    ∧ prop rawEv "content" = Some (JString content)
    ∧ prop rawEv "sig" = Some (JString s) ∧ hexOf 128 s.

Lemma validateEvent_spec (rawEv : Json) : validateEvent rawEv = true ↔ validEvent rawEv.
Proof.
  unfold validateEvent, validEvent, is32BytesHexStr, is64BytesHexStr. split.
  - destruct (prop rawEv "id") as [[| | |i| |]|]; try done.
    destruct (hexStr 64 i) eqn:Hi; [|done]. apply hexStr_spec in Hi.
    destruct (prop rawEv "pubkey") as [[| | |pk| |]|]; try done.
    destruct (hexStr 64 pk) eqn:Hpk; [|done]. apply hexStr_spec in Hpk.
    destruct (prop rawEv "created_at") as [[| |t| | |]|]; try done.
    destruct (prop rawEv "kind") as [[| |k| | |]|]; try done.
    destruct (prop rawEv "tags") as [[| | | |tags|]|]; try done.
    cbn [negb]. cbv iota.
    destruct (existsb _ tags) eqn:Htags; [done|]. apply stringArrays_spec in Htags.
    destruct (prop rawEv "content") as [[| | |content| |]|]; try done.
    destruct (prop rawEv "sig") as [[| | |s| |]|]; try done.
    destruct (hexStr 128 s) eqn:Hs; [|done]. apply hexStr_spec in Hs.
    intros _. by exists i, pk, t, k, tags, content, s.
  - intros (i & pk & t & k & tags & content & s & -> & Hi & -> & Hpk & -> & -> & ->
            & Htags & -> & -> & Hs).
    apply hexStr_spec in Hi, Hpk, Hs. apply stringArrays_spec in Htags.
    by rewrite Hi, Hpk, Hs, Htags.
Qed.

(** The property names of a Nostr event. *)
Definition eventKeys : list string :=
  ["id"; "pubkey"; "created_at"; "kind"; "tags"; "content"; "sig"].

(** [validateEvent] accepts exactly the valid events, and it looks at the
    seven properties of an event only: what else the object holds does not
    matter. *)
Theorem validateEvent_accepts (rawEv : Json) :
  (validateEvent rawEv = true ↔ validEvent rawEv)
  ∧ ∀ rawEv', (∀ key, key ∈ eventKeys → prop rawEv' key = prop rawEv key) →
              validateEvent rawEv' = validateEvent rawEv.
Proof.
  split; [apply validateEvent_spec|].
  intros rawEv' Hsame. unfold validateEvent.
  rewrite !Hsame; [done|unfold eventKeys..];
    repeat first [apply list_elem_of_here|apply list_elem_of_further].
Qed.

(** [parseR2CMessage] returns a message exactly when the text parses to an
    array ["EVENT", subId, event] with a string [subId] and a valid event, to
    ["EOSE", subId] with a string [subId], or to ["NOTICE", notice] with any
    notice; it then returns that very array.  Everything else, the messages
    OK, AUTH and COUNT included, gives [undefined]. *)
Theorem parseR2CMessage_accepts (rawMsg : string) (msg : R2CMessage) :
  parseR2CMessage rawMsg = Some msg
  ↔ JSON_parse rawMsg = Some (toJson msg)
    ∧ match msg with
      | R2CEvent _ ev => validEvent ev
      | _ => True
      end.
Proof.
  unfold parseR2CMessage. split.
  - destruct (JSON_parse rawMsg) as [[| | | |[|[| | |msgType| |] rest]|]|]; try done.
    case_match; [done|]. case_match; [done|].
    destruct (String.eqb msgType "EVENT") eqn:Hevent.
    { apply String.eqb_eq in Hevent as ->.
      destruct rest as [|[| | |subId| |] [|ev [|? ?]]]; try done.
      destruct ev; try done;
        (destruct (validateEvent _) eqn:Hv; [|done]; intros [= <-];
         split; [done|by apply validateEvent_spec]). }
    destruct (String.eqb msgType "EOSE") eqn:Heose.
    { apply String.eqb_eq in Heose as ->.
      destruct rest as [|[| | |subId| |] [|? ?]]; try done. by intros [= <-]. }
    destruct (String.eqb msgType "NOTICE") eqn:Hnotice; [|done].
    apply String.eqb_eq in Hnotice as ->.
    destruct rest as [|notice [|? ?]]; try done. by intros [= <-].
  - intros [-> Hvalid]. destruct msg as [subId ev|subId|notice]; simpl; [|done..].
    apply validateEvent_spec in Hvalid.
    rewrite Hvalid. destruct ev; try done.
Qed.

End json.
Arguments Json Number : clear implicits.
Arguments R2CMessage Number : clear implicits.
End Nostr.

(** A well-formed event object, with a property the schema does not know. *)
Definition zeros64 : string :=
  "0000000000000000000000000000000000000000000000000000000000000000".

Definition sampleEvent : Nostr.Json Z :=
  Nostr.JObject
    [("id", Nostr.JString zeros64); ("pubkey", Nostr.JString zeros64);
     ("created_at", Nostr.JNumber 1700000000%Z); ("kind", Nostr.JNumber 1%Z);
     ("tags", Nostr.JArray [Nostr.JArray [Nostr.JString "e"; Nostr.JString zeros64]]);
     ("content", Nostr.JString "hello"); ("sig", Nostr.JString (zeros64 +:+ zeros64));
     ("seen_on", Nostr.JArray [Nostr.JString "wss://r1"])].

Lemma sampleEvent_valid : Nostr.validEvent sampleEvent.
Proof. apply Nostr.validateEvent_spec. vm_compute; reflexivity. Qed.

Lemma validateEvent_accepts_witness :
  Nostr.validEvent sampleEvent
  ∧ Nostr.validateEvent
      (Nostr.JObject
         [("id", Nostr.JString zeros64); ("pubkey", Nostr.JString zeros64);
          ("created_at", Nostr.JNumber 1700000000%Z); ("kind", Nostr.JNumber 1%Z);
          ("tags", Nostr.JArray [Nostr.JArray [Nostr.JString "e"; Nostr.JString zeros64]]);
          ("content", Nostr.JString "hello");
          ("sig", Nostr.JString (zeros64 +:+ zeros64))])
    = Nostr.validateEvent sampleEvent.
Proof.
  split.
  - apply (proj1 (proj1 (Nostr.validateEvent_accepts sampleEvent))).
    vm_compute; reflexivity.
  - apply (proj2 (Nostr.validateEvent_accepts sampleEvent)).
    intros key Hkey. unfold Nostr.eventKeys in Hkey.
    repeat (apply elem_of_cons in Hkey as [->|Hkey]; [reflexivity|]).
    by apply elem_of_nil in Hkey.
Defined.

(** A [JSON.parse] that knows two texts. *)
Definition sampleParse (rawMsg : string) : option (Nostr.Json Z) :=
  if String.eqb rawMsg "event" then
    Some (Nostr.JArray [Nostr.JString "EVENT"; Nostr.JString "sub1"; sampleEvent])
  else if String.eqb rawMsg "ok" then
    Some (Nostr.JArray [Nostr.JString "OK"; Nostr.JString zeros64; Nostr.JBool true])
  else None.

Lemma parseR2CMessage_accepts_witness :
  Nostr.parseR2CMessage sampleParse "event" = Some (Nostr.R2CEvent "sub1" sampleEvent)
  ∧ Nostr.parseR2CMessage sampleParse "ok" = None.
Proof.
  split; [|vm_compute; reflexivity].
  apply (proj2 (Nostr.parseR2CMessage_accepts sampleParse "event"
                  (Nostr.R2CEvent "sub1" sampleEvent))).
  split; [vm_compute; reflexivity|exact sampleEvent_valid].
Defined.

(* ===================================================================== *)
(** * [allEventsIterator] over relays that hold finitely many events *)
(* ===================================================================== *)

(** Whatever a relay answers, it is an event with an id of [universe]. *)
Definition answersWithin (env : Env) (universe : gset string) : Prop :=
  ∀ url fil opts n e, e ∈ sub_events (fetchTillEose env url fil opts n) → id e ∈ universe.

Lemma size_add_new (x : string) (X : gset string) : x ∉ X → size ({[x]} ∪ X) = S (size X).
Proof.
  intros Hx. rewrite size_union by (by apply disjoint_singleton_l).
  by rewrite size_singleton.
Qed.

Section AllEvents_finishes.
Context (env : Env) (fil : FetchFilter) (timeRangeFilter : FetchTimeRangeFilter)
        (finalOpts : Required_AllEventsIterOptions) (universe : gset string).
Hypothesis answers : answersWithin env universe.

(** The ids a worker has seen, and those still to come, are of the
    universe. *)
Definition AllEvents_within (w : AllEvents.Worker) : Prop :=
  AllEvents.localSeenEventIds w ⊆ universe
  ∧ ∀ e, e ∈ pendingOf (AllEvents.phase w) → id e ∈ universe.

(** A worker has sent at most one REQ more than it has seen ids: each REQ
    but the last has brought a new one. *)
Definition AllEvents_paid (w : AllEvents.Worker) : Prop :=
  match AllEvents.phase w with
  | AtLoopHead => AllEvents.reqCount w ≤ size (AllEvents.localSeenEventIds w)
  | InForAwait _ _ vars =>
      AllEvents.reqCount w
      ≤ size (AllEvents.localSeenEventIds w)
        + (if AllEvents.gotNewEvent vars then 0 else 1)
  | Finished => AllEvents.reqCount w ≤ size (AllEvents.localSeenEventIds w) + 1
  end.

Lemma AllEvents_step_within w g :
  AllEvents_within w →
  AllEvents_within (AllEvents.step env fil timeRangeFilter finalOpts w g).1.
Proof using answers.
  intros [Hlocal Hpending]. unfold AllEvents_within, AllEvents.step.
  destruct (AllEvents.phase w) as [|[|e pending] throws vars|] eqn:Hph; simpl in *.
  - split; [done|]. intros e He. by eapply answers.
  - repeat case_match; simpl; (split; [done|]); by intros e ?%elem_of_nil.
  - assert (∀ e', e' ∈ pending → id e' ∈ universe) as Hp.
    { intros e' He'. by apply Hpending, list_elem_of_further. }
    assert (id e ∈ universe) as He by apply Hpending, list_elem_of_here.
    repeat case_decide; simpl; (split; [|done]); try done;
      (apply union_least; [by apply singleton_subseteq_l|done]).
  - by rewrite Hph.
Qed.

Lemma AllEvents_step_paid w g :
  AllEvents_paid w → AllEvents_paid (AllEvents.step env fil timeRangeFilter finalOpts w g).1.
Proof.
  unfold AllEvents_paid, AllEvents.step.
  destruct (AllEvents.phase w) as [|[|e pending] throws vars|] eqn:Hph;
    simpl; rewrite ?Hph; try done.
  - lia.
  - intros Hw. destruct throws; simpl; [destruct (AllEvents.gotNewEvent vars); lia|].
    destruct (AllEvents.gotNewEvent vars); simpl; [|lia].
    destruct (signalAborted _ _ _ _); simpl; lia.
  - intros Hw. case_decide as Hlocal; simpl; [done|].
    assert (size ({[id e]} ∪ AllEvents.localSeenEventIds w)
            = S (size (AllEvents.localSeenEventIds w))) as Hsize by (by apply size_add_new).
    case_decide; simpl; rewrite Hsize; destruct (AllEvents.gotNewEvent vars); lia.
Qed.








End AllEvents_finishes.





(** The ids of the events of [demoStores]. *)
Definition demoIds : gset string := {["a"; "b"; "c"]}.

Lemma demoEnv_answersWithin : answersWithin demoEnv demoIds.
Proof.
  intros url fil opts n e. simpl. unfold storeRelay, demoStores. simpl.
  intros He.
  assert (e ∈ List.filter (matchesFilter fil)
                (if String.eqb url "wss://r1"
                 then [mkEvent "c" "alice" 100; mkEvent "b" "alice" 90]
                 else if String.eqb url "wss://r2"
                      then [mkEvent "c" "alice" 100; mkEvent "a" "bob" 80]
                      else [])) as Hin.
  { destruct (limit fil); [by eapply subseteq_take|done]. }
  apply list_elem_of_In, filter_In in Hin as [Hin _]. apply list_elem_of_In in Hin.
  unfold demoIds.
  repeat case_match;
    repeat (apply elem_of_cons in Hin as [->|Hin]; [set_solver|]);
    by apply elem_of_nil in Hin.
Qed.


(** A relay is asked at most once more than it has events to give.  If the
    relays answer with events of finitely many ids only, [n] of them, then
    each relay worker of [allEventsIterator] sends at most [n + 1] REQs,
    whatever the size of the pages: every REQ but the last one has brought an
    id that the worker had not seen. *)
Theorem allEvents_requests_bounded (env : Env) (universe : gset string) (sched : list nat)
    (relayUrls : list string) (fil : FetchFilter) (timeRangeFilter : FetchTimeRangeFilter)
    (options : AllEventsIterOptions) (es : list Effect) (it : AllEvents.Iterator) :
  answersWithin env universe →
  allEventsIterator env relayUrls fil timeRangeFilter options = (es, Ok it) →
  length (effects (AllEvents.state (AllEvents.advance env sched it)).2)
  ≤ (size universe + 1)
    * length (eligibleRelayUrlsOf env relayUrls (filledOptsOf options)
                (calcRequiredNips fil)).
Proof.
  intros Hanswers. rewrite allEventsIterator_eq. case_match; [done|]. cbv zeta.
  intros [_ <-]%Ok_pair_inv. unfold AllEvents.advance.
  cbn [AllEvents.state AllEvents.it_filter AllEvents.it_timeRangeFilter
       AllEvents.it_finalOpts].
  set (eligible := eligibleRelayUrlsOf _ _ _ _).
  set (initialUntil := default _ _).
  set (step := AllEvents.step env fil timeRangeFilter (finalOptsOf options)).
  assert (Forall (λ w, AllEvents_within universe w ∧ AllEvents_paid w)
            (run step sched (AllEvents.init initialUntil eligible)).1) as Hinv.
  { apply run_tasks.
    - intros w g [Hw Hp]. split; [by apply AllEvents_step_within|by apply AllEvents_step_paid].
    - apply Forall_fmap, Forall_forall. intros u _. split; [|unfold AllEvents_paid; simpl; lia].
      split; simpl; [apply empty_subseteq|by intros e ?%elem_of_nil]. }
  rewrite (run_count step AllEvents.reqCount (λ g, length (effects g))).
  - etrans; [apply (sum_list_with_bound _ (size universe + 1))|].
    + eapply Forall_impl; [exact Hinv|]. intros w [[Hlocal _] Hpaid].
      apply subseteq_size in Hlocal. unfold AllEvents_paid in Hpaid.
      destruct (AllEvents.phase w) as [|pending throws vars|]; [lia| |lia].
      destruct (AllEvents.gotNewEvent vars); lia.
    + rewrite run_length. unfold AllEvents.init. simpl. rewrite length_fmap. lia.
  - intros w g. apply AllEvents_step_count.
  - simpl. generalize eligible. intros l. induction l as [|u l IH]; [done|exact IH].
Qed.

Lemma allEvents_requests_bounded_witness :
  ∃ es it,
    allEventsIterator demoEnv demoRelays emptyFetchFilter noTimeRange
      noAllEventsIterOptions = (es, Ok it)
    ∧ length (effects (AllEvents.state (AllEvents.advance demoEnv demoSched it)).2)
      ≤ (size demoIds + 1) * 2.
Proof.
  eexists _, _. split; [vm_compute; reflexivity|].
  eapply (allEvents_requests_bounded demoEnv demoIds demoSched demoRelays emptyFetchFilter
            noTimeRange noAllEventsIterOptions);
    [exact demoEnv_answersWithin|vm_compute; reflexivity].
Defined.

(* ===================================================================== *)
(** * [fetchLatestEventsPerAuthor] over relays that hold finitely many events *)
(* ===================================================================== *)

Section PerAuthor_finishes.
Context (env : Env) (otherFilter : FetchFilter) (lim : Z)
        (finalOpts : Required_FetchLatestOptions) (universe : gset string).
Hypothesis answers : answersWithin env universe.











End PerAuthor_finishes.





